(** * Heredity: exact inference over a family gene-inheritance model

    A shallow embedding of [src/Ex3_Heredity/heredity.py]: the fixed
    probability tables [PROBS], the hypothesis enumeration of [main]
    ([powerset] and the evidence filter), [joint_probability], [update]
    and [normalize], with [load_data]; and, in the module [Tictactoe],
    of [src/Ex2_tictactoe_minimax/tictactoe.py].

    Numbers.  The Python code computes with binary64 floats (and the
    integers 0 and 1, which Python converts to floats as soon as they meet
    one).  The functions below are written once, over a number interface
    [Num], and run at two instances: [float] (Rocq's primitive binary64
    floats, the arithmetic the interpreter performs) and [Qc] (exact
    rationals, the arithmetic the specification reasons in).

    Errors.  A [KeyError] (a gene count outside 0, 1, 2) and a
    [ZeroDivisionError] are both modelled by [None].

    Containers.  A dict iterated in insertion order is an association
    list with distinct keys; a Python set of names is a [gset string];
    the order in which Python lists the elements of a set is a parameter
    [set_order]. *)

From Stdlib Require Import Floats ZArith QArith Qcanon.
From stdpp Require Import numbers strings gmap sets list.

Set Warnings "-inexact-float,-clear-no-such-hyp".

(** ** Numbers *)

Declare Scope num_scope.
Delimit Scope num_scope with num.

Class Num (A : Type) := {
  num0 : A;                       (* the integer 0 *)
  num1 : A;                       (* the integer 1 *)
  cent : Z -> A;                  (* the decimal literal k/100 *)
  nadd : A -> A -> A;
  nsub : A -> A -> A;
  nmul : A -> A -> A;
  ndiv : A -> A -> A;
  is_zero : A -> bool             (* the divisor test of Python's "/" *)
}.

Infix "+" := nadd : num_scope.
Infix "-" := nsub : num_scope.
Infix "*" := nmul : num_scope.
Infix "/" := ndiv : num_scope.

(** binary64, as Python's [float]. *)
#[export] Instance float_Num : Num float := {
  num0 := 0%float;
  num1 := 1%float;
  cent k := PrimFloat.div (PrimFloat.of_uint63 (Uint63.of_Z k)) 100%float;
  nadd := PrimFloat.add;
  nsub := PrimFloat.sub;
  nmul := PrimFloat.mul;
  ndiv := PrimFloat.div;
  is_zero x := PrimFloat.eqb x 0%float
}.

(** exact rationals. *)
#[export] Instance Qc_Num : Num Qc := {
  num0 := 0%Qc;
  num1 := 1%Qc;
  cent k := Q2Qc (k # 100);
  nadd := Qcplus;
  nsub := Qcminus;
  nmul := Qcmult;
  ndiv := Qcdiv;
  is_zero x := bool_decide (x = 0%Qc)
}.

(** ** Data model *)

Record person := Person {
  name : string;
  mother : option string;
  father : option string;
  trait : option bool
}.

(** [people]: dict from name to person record, in insertion order. *)
Abbreviation population := (list (string * person)) (only parsing).

Definition keys {V} (d : list (string * V)) : list string := d.*1.

(** [x in s] for a set of names; [None in s] is [False]. *)
Definition mem (x : string) (s : gset string) : bool := bool_decide (x ∈ s).

Definition omem (x : option string) (s : gset string) : bool :=
  match x with Some y => mem y s | None => false end.

Definition b2n (b : bool) : nat := if b then 1 else 0.

(** [1 * (x in one_gene) + 2 * (x in two_genes)] *)
Definition gene_count (x : option string) (one_gene two_genes : gset string) : nat :=
  1 * b2n (omem x one_gene) + 2 * b2n (omem x two_genes).

Section Engine.
Context {A : Type} {N : Num A}.
Local Open Scope num_scope.

(** A [bool] used as a number. *)
Definition b2A (b : bool) : A := if b then num1 else num0.

(** ** The table [PROBS] *)

Definition PROBS_gene (n : nat) : option A :=
  match n with
  | 2 => Some (cent 1)
  | 1 => Some (cent 3)
  | 0 => Some (cent 96)
  | _ => None
  end.

Definition PROBS_trait (n : nat) (t : bool) : option A :=
  match n with
  | 2 => Some (if t then cent 65 else cent 35)
  | 1 => Some (if t then cent 56 else cent 44)
  | 0 => Some (if t then cent 1 else cent 99)
  | _ => None
  end.

Definition PROBS_mutation : A := cent 1.

(** ** [joint_probability] *)

(** The two lists built by the first loop. *)
Definition parents (people : population) : list (string * person) :=
  filter (λ hp, mother hp.2 = None) people.

Definition children (people : population) : list (string * person) :=
  filter (λ hp, mother hp.2 ≠ None) people.

(** [PROBS['mutation'] * (n == 0) + 0.5 * (n == 1) + (1 - PROBS['mutation']) * (n == 2)] *)
Definition parent_effect (n : nat) : A :=
  PROBS_mutation * b2A (n =? 0)%nat + cent 50 * b2A (n =? 1)%nat
  + (num1 - PROBS_mutation) * b2A (n =? 2)%nat.

(** One round of the loop over [parents]. *)
Definition parent_step (one_gene two_genes have_trait : gset string)
    (parents_joint : A) (parent : string) : option A :=
  let n_genes := gene_count (Some parent) one_gene two_genes in
  let trait := mem parent have_trait in
  g ← PROBS_gene n_genes;
  t ← PROBS_trait n_genes trait;
  Some (parents_joint * (g * t)).

(** The factor chosen by the [if]/[elif]/[else] on the child's gene count. *)
Definition inherit (n_genes : nat) (mother_effect father_effect : A) : A :=
  if (n_genes =? 0)%nat then
    (num1 - mother_effect) * (num1 - father_effect)
  else if (n_genes =? 1)%nat then
    (num1 - mother_effect) * father_effect + mother_effect * (num1 - father_effect)
  else
    mother_effect * father_effect.

(** One round of the loop over [children]. *)
Definition child_step (one_gene two_genes have_trait : gset string)
    (children_joint : A) (child : string * person) : option A :=
  let mother := mother child.2 in
  let father := father child.2 in
  let n_genes := gene_count (Some child.1) one_gene two_genes in
  let n_genes_mother := gene_count mother one_gene two_genes in
  let n_genes_father := gene_count father one_gene two_genes in
  let trait := mem child.1 have_trait in
  let mother_effect := parent_effect n_genes_mother in
  let father_effect := parent_effect n_genes_father in
  let children_joint := children_joint * inherit n_genes mother_effect father_effect in
  t ← PROBS_trait n_genes trait;
  Some (children_joint * t).

(** A loop whose body may raise. *)
Definition loop {S X} (body : S -> X -> option S) (s : S) (xs : list X) : option S :=
  foldl (λ acc x, acc ≫= λ s, body s x) (Some s) xs.

Definition joint_probability (people : population)
    (one_gene two_genes have_trait : gset string) : option A :=
  parents_joint ← loop (λ pj hp, parent_step one_gene two_genes have_trait pj hp.1)
                       num1 (parents people);
  children_joint ← loop (child_step one_gene two_genes have_trait)
                        num1 (children people);
  Some (parents_joint * children_joint).

(** ** The table [probabilities] *)

(** One person's two distributions: ["gene"] with keys 0, 1, 2 and
    ["trait"] with keys [True], [False]. *)
Record dist := Dist {
  gene0 : A; gene1 : A; gene2 : A;
  trait_true : A; trait_false : A
}.

Local Abbreviation table := (list (string * dist)) (only parsing).

Definition gene_get (d : dist) (n : nat) : option A :=
  match n with
  | 0 => Some (gene0 d)
  | 1 => Some (gene1 d)
  | 2 => Some (gene2 d)
  | _ => None
  end.

Definition trait_get (d : dist) (t : bool) : A :=
  if t then trait_true d else trait_false d.

(** [d['gene'][n] += p] *)
Definition gene_add (d : dist) (n : nat) (p : A) : option dist :=
  match n with
  | 0 => Some (Dist (gene0 d + p) (gene1 d) (gene2 d) (trait_true d) (trait_false d))
  | 1 => Some (Dist (gene0 d) (gene1 d + p) (gene2 d) (trait_true d) (trait_false d))
  | 2 => Some (Dist (gene0 d) (gene1 d) (gene2 d + p) (trait_true d) (trait_false d))
  | _ => None
  end.

(** [d['trait'][t] += p] *)
Definition trait_add (d : dist) (t : bool) (p : A) : dist :=
  if t then Dist (gene0 d) (gene1 d) (gene2 d) (trait_true d + p) (trait_false d)
  else Dist (gene0 d) (gene1 d) (gene2 d) (trait_true d) (trait_false d + p).

(** ** [update] *)

Definition update_person (one_gene two_genes have_trait : gset string) (p : A)
    (human : string) (d : dist) : option dist :=
  let n_genes := gene_count (Some human) one_gene two_genes in
  let trait := mem human have_trait in
  d' ← gene_add d n_genes p;
  Some (trait_add d' trait p).

Definition update (probabilities : table)
    (one_gene two_genes have_trait : gset string) (p : A) : option table :=
  mapM (λ hd, d' ← update_person one_gene two_genes have_trait p hd.1 hd.2;
              Some (hd.1, d')) probabilities.

(** ** [normalize] *)

(** [sum_genes_probs]: starts at 0 and adds the entries 0, 1, 2 in turn. *)
Definition sum_genes_probs (d : dist) : A :=
  num0 + gene0 d + gene1 d + gene2 d.

Definition sum_trait_probs (d : dist) : A :=
  trait_true d + trait_false d.

(** One round of the loop of [normalize].  The code divides the gene
    entries before it computes the trait sum, so a zero trait sum raises
    after the gene entries have been overwritten; both failures are
    [None] here. *)
Definition normalize_person (d : dist) : option dist :=
  let sg := sum_genes_probs d in
  if is_zero sg then None else
  let st := sum_trait_probs d in
  if is_zero st then None else
  Some (Dist (gene0 d / sg) (gene1 d / sg) (gene2 d / sg)
             (trait_true d / st) (trait_false d / st)).

Definition normalize (probabilities : table) : option table :=
  mapM (λ hd, d' ← normalize_person hd.2; Some (hd.1, d')) probabilities.

End Engine.

Arguments dist A : clear implicits.

(** [probabilities]: dict from name to the person's distributions. *)
Abbreviation table A := (list (string * dist A)) (only parsing).

(** ** [powerset] and the enumeration of [main] *)

(** [itertools.combinations(l, r)], in the order itertools yields. *)
Fixpoint combinations {X} (l : list X) (r : nat) : list (list X) :=
  match r, l with
  | 0, _ => [[]]
  | S _, [] => []
  | S r', x :: l' => (cons x <$> combinations l' r') ++ combinations l' r
  end.

(** [chain.from_iterable(combinations(l, r) for r in range(len(l) + 1))] *)
Definition all_combinations {X} (l : list X) : list (list X) :=
  r ← seq 0 (S (length l)); combinations l r.

(** A hypothesis, as the three sets handed to [joint_probability] and
    [update]. *)
Definition hypothesis : Type := gset string * gset string * gset string.

Section Enumeration.
(** [list(s)] for a set [s]: Python fixes some order, a function of the
    hash values and the history of the set; the properties below are
    proved for every order. *)
Variable set_order : gset string -> list string.

Definition powerset (s : gset string) : list (gset string) :=
  list_to_set <$> all_combinations (set_order s).

(** [people[person]["trait"]].  The loops only ask for the names of
    [set(people)], for which the lookup succeeds; a missing key (a
    [KeyError] in Python) reads here as no observation. *)
Definition trait_of (people : population) (person : string) : option bool :=
  hp ← list_find (λ hp, hp.1 = person) people; trait hp.2.2.

(** [fails_evidence] *)
Definition fails_evidence (people : population) (names have_trait : gset string) : bool :=
  existsb (λ person,
    match trait_of people person with
    | Some t => negb (eqb t (mem person have_trait))
    | None => false
    end) (set_order names).

Context {A : Type} {N : Num A}.

Definition zero_dist : dist A := Dist num0 num0 num0 num0 num0.

(** The initial [probabilities]. *)
Definition init_table (people : population) : table A :=
  (λ hp, (hp.1, zero_dist)) <$> people.

(** The state of the loops of [main]: the table, and the calls made so
    far (most recent first); [None] once a call has raised. *)
Definition state : Type := option (table A * list hypothesis).

(** The body of the innermost loop. *)
Definition visit (people : population) (have_trait one_gene two_genes : gset string)
    (st : state) : state :=
  s ← st;
  p ← joint_probability people one_gene two_genes have_trait;
  probabilities ← update s.1 one_gene two_genes have_trait p;
  Some (probabilities, (one_gene, two_genes, have_trait) :: s.2).

(** The three nested loops. *)
Definition enumerate (people : population) : state :=
  let names : gset string := list_to_set (keys people) in
  foldl (λ st have_trait,
    if fails_evidence people names have_trait then st else
    foldl (λ st one_gene,
      foldl (λ st two_genes, visit people have_trait one_gene two_genes st)
            st (powerset (names ∖ one_gene)))
      st (powerset names))
    (Some (init_table people, [])) (powerset names).

(** [main], from the initial table to the normalized one. *)
Definition main (people : population) : option (table A) :=
  s ← enumerate people; normalize s.1.

End Enumeration.

(** ** [load_data] *)

(** A row of the CSV file, as [csv.DictReader] hands it over: the four
    columns, as strings. *)
Record row := CsvRow {
  row_name : string;
  row_mother : string;
  row_father : string;
  row_trait : string
}.

(** [s or None] for a string [s]: the empty string is falsy. *)
Definition or_None (s : string) : option string :=
  if decide (s = "") then None else Some s.

(** [True if s == "1" else False if s == "0" else None] *)
Definition trait_of_string (s : string) : option bool :=
  if decide (s = "1") then Some true
  else if decide (s = "0") then Some false
  else None.

(** The dict built for one row. *)
Definition person_of_row (r : row) : person :=
  Person (row_name r) (or_None (row_mother r)) (or_None (row_father r))
         (trait_of_string (row_trait r)).

(** [d[k] = v] on a dict in insertion order: an existing key keeps its
    place and gets the new value, a new key goes to the end. *)
Fixpoint dict_set {V} (d : list (string * V)) (k : string) (v : V) : list (string * V) :=
  match d with
  | [] => [(k, v)]
  | (k', v') :: d' =>
      if decide (k' = k) then (k, v) :: d' else (k', v') :: dict_set d' k v
  end.

(** [load_data], from the rows the reader yields. *)
Definition load_data (rows : list row) : population :=
  foldl (λ data r, dict_set data (row_name r) (person_of_row r)) [] rows.

(** * The vocabulary of the specification *)

(** ** Gene counts, founders, families *)

(** The gene count the specification assigns to a person under a
    hypothesis: 2 if in [two_genes], 1 if in [one_gene], otherwise 0. *)
Definition hypothesized_count (x : option string) (one_gene two_genes : gset string) : nat :=
  if omem x two_genes then 2 else if omem x one_gene then 1 else 0.

(** A founder has no parent reference. *)
Definition founder (hp : string * person) : Prop :=
  mother hp.2 = None ∧ father hp.2 = None.

#[export] Instance founder_dec hp : Decision (founder hp).
Proof. unfold founder. apply _. Defined.

(** Both parents are recorded, or neither. *)
Definition well_formed (people : population) : Prop :=
  Forall (λ hp : string * person, mother hp.2 = None ↔ father hp.2 = None) people.

(** Two entries for the same person with the same parents, whatever
    their observed traits. *)
Definition same_family (a b : string * person) : Prop :=
  a.1 = b.1 ∧ mother a.2 = mother b.2 ∧ father a.2 = father b.2.

Section Vocabulary.
Context {A : Type} {N : Num A}.
Local Open Scope num_scope.

(** ** What [update] and [normalize] do to a person's distributions *)

(** Bucket [n] of the gene distribution gained [p]; the other two are as
    they were. *)
Definition gene_bumped (d d' : dist A) (n : nat) (p : A) : Prop :=
  ∀ i, i < 3 →
    gene_get d' i = (λ g, if decide (i = n) then g + p else g) <$> gene_get d i.

(** Bucket [t] of the trait distribution gained [p]; the other is as it
    was. *)
Definition trait_bumped (d d' : dist A) (t : bool) (p : A) : Prop :=
  ∀ b, trait_get d' b = if decide (b = t) then trait_get d b + p else trait_get d b.

(** One of the two sums of a person is zero for Python's [/]. *)
Definition zero_sum (d : dist A) : Prop :=
  is_zero (sum_genes_probs d) = true ∨ is_zero (sum_trait_probs d) = true.

(** Neither sum is. *)
Definition nonzero_sums (d : dist A) : Prop :=
  is_zero (sum_genes_probs d) = false ∧ is_zero (sum_trait_probs d) = false.

#[export] Instance nonzero_sums_dec d : Decision (nonzero_sums d).
Proof. unfold nonzero_sums. apply _. Defined.

(** Every entry is the old entry over the old sum of its distribution. *)
Definition divided_by_sums (d d' : dist A) : Prop :=
  gene0 d' = gene0 d / sum_genes_probs d ∧
  gene1 d' = gene1 d / sum_genes_probs d ∧
  gene2 d' = gene2 d / sum_genes_probs d ∧
  trait_true d' = trait_true d / sum_trait_probs d ∧
  trait_false d' = trait_false d / sum_trait_probs d.

(** ** The formula for the joint probability, in the words of the
    specification *)

(** The mutation probability. *)
Definition mu : A := cent 1.

(** The unconditional probability of carrying [n] copies. *)
Definition gene_prior (n : nat) : A :=
  match n with 0 => cent 96 | 1 => cent 3 | _ => cent 1 end.

(** The probability of showing the trait, or not, with [n] copies. *)
Definition trait_given_gene (n : nat) (t : bool) : A :=
  match n with
  | 0 => if t then cent 1 else cent 99
  | 1 => if t then cent 56 else cent 44
  | _ => if t then cent 65 else cent 35
  end.

(** The probability that one parent passes the variant on. *)
Definition transmission (n : nat) : A :=
  match n with 0 => mu | 1 => cent 50 | _ => num1 - mu end.

(** The probability of 0, 1 or 2 copies from the two transmissions. *)
Definition copies (n : nat) (m f : A) : A :=
  match n with
  | 0 => (num1 - m) * (num1 - f)
  | 1 => (num1 - m) * f + m * (num1 - f)
  | _ => m * f
  end.

(** The factor of a founder. *)
Definition founder_factor (og tg ht : gset string) (hp : string * person) : A :=
  let n := hypothesized_count (Some hp.1) og tg in
  gene_prior n * trait_given_gene n (mem hp.1 ht).

(** The combination of the two parents' transmissions for a child. *)
Definition inheritance_factor (og tg : gset string) (hp : string * person) : A :=
  copies (hypothesized_count (Some hp.1) og tg)
    (transmission (hypothesized_count (mother hp.2) og tg))
    (transmission (hypothesized_count (father hp.2) og tg)).

(** The product over the founders times the product over the others. *)
Definition joint_formula (people : population) (og tg ht : gset string) : A :=
  foldl (λ acc hp, acc * founder_factor og tg ht hp)
        num1 (filter founder people)
  * foldl (λ acc hp, acc * inheritance_factor og tg hp
                     * trait_given_gene (hypothesized_count (Some hp.1) og tg) (mem hp.1 ht))
          num1 (filter (λ hp, ¬ founder hp) people).

(** ** The calls of [main] *)

(** One round of the innermost loop, on a hypothesis. *)
Definition call (people : population) (st : state (A:=A)) (h : hypothesis) : state :=
  visit people h.2 h.1.1 h.1.2 st.

End Vocabulary.

(** ** Subsets and hypotheses *)

(** All sublists, by the usual recursion. *)
Fixpoint sublists {X} (l : list X) : list (list X) :=
  match l with
  | [] => [[]]
  | x :: l' => (cons x <$> sublists l') ++ sublists l'
  end.

Definition psets (l : list string) : list (gset string) :=
  list_to_set <$> sublists l.

(** A candidate [have_trait] agrees with what is recorded about a
    person. *)
Definition agrees (tr : string → option bool) (have_trait : gset string)
    (person : string) : bool :=
  match tr person with
  | Some t => eqb t (mem person have_trait)
  | None => true
  end.

(** The people whose names the loops range over. *)
Definition names_of (people : population) : gset string := list_to_set (keys people).

Section Hypotheses.
Variable set_order : gset string → list string.

(** The hypotheses the loops of [main] reach, in order. *)
Definition hypotheses (people : population) : list hypothesis :=
  have_trait ← filter (λ ht, fails_evidence set_order people (names_of people) ht = false)
                      (powerset set_order (names_of people));
  one_gene ← powerset set_order (names_of people);
  two_genes ← powerset set_order (names_of people ∖ one_gene);
  [(one_gene, two_genes, have_trait)].

End Hypotheses.

(** The persons with no recorded observation. *)
Definition unobserved (people : population) : list (string * person) :=
  filter (λ hp, trait hp.2 = None) people.

(** The persons with a recorded observation. *)
Definition observed (people : population) : list (string * person) :=
  filter (λ hp, trait hp.2 ≠ None) people.


(** ** Binary64 *)

(** Strictly between 0 and infinity: neither zero, negative, infinite
    nor NaN. *)
Definition positive_finite (x : float) : Prop :=
  PrimFloat.ltb 0 x = true ∧ PrimFloat.ltb x infinity = true.

#[export] Instance positive_finite_dec x : Decision (positive_finite x).
Proof. unfold positive_finite. apply _. Defined.

(** Within 1e-9 of 1, by the comparisons of binary64. *)
Definition close_to_one (x : float) : Prop :=
  PrimFloat.leb 0.999999999 x = true ∧ PrimFloat.leb x 1.000000001 = true.

#[export] Instance close_to_one_dec x : Decision (close_to_one x).
Proof. unfold close_to_one. apply _. Defined.

(** A probability that is not zero. *)
Definition unit_positive (x : Qc) : Prop := (0 < x)%Qc ∧ (x ≤ 1)%Qc.

#[export] Instance unit_positive_dec x : Decision (unit_positive x).
Proof.
  unfold unit_positive.
  destruct (Qclt_le_dec 0 x); [|right; intros [H _]; by apply Qclt_not_le in H].
  destruct (Qclt_le_dec 1 x); [right; intros [_ H]; by apply Qclt_not_le in H|].
  by left.
Defined.



(** ** Example populations *)

(** The family of the course's worked example. *)
Definition family : population :=
  [("Harry", Person "Harry" (Some "Lily") (Some "James") None);
   ("James", Person "James" None None (Some true));
   ("Lily", Person "Lily" None None (Some false))].

(** The same family with other observations. *)
Definition family_unobserved : population :=
  [("Harry", Person "Harry" (Some "Lily") (Some "James") (Some true));
   ("James", Person "James" None None None);
   ("Lily", Person "Lily" None None None)].

(** One child, [c], and its two founder parents, [m] and [f]; no trait
    observed. *)
Definition trio (m f c : string) : population :=
  [(m, Person m None None None);
   (f, Person f None None None);
   (c, Person c (Some m) (Some f) None)].

(** A single founder, observed with the trait. *)
Definition ann : population := [("Ann", Person "Ann" None None (Some true))].

(** The rows of the course's worked example. *)
Definition family_rows : list row :=
  [CsvRow "Harry" "Lily" "James" ""; CsvRow "James" "" "" "1"; CsvRow "Lily" "" "" "0"].

(** * Tic-tac-toe *)

(** The embedding of [tictactoe.py].  A board is a list of rows, a row a
    list of cells; the rows of a board are distinct objects, as they are
    in the boards that [initial_state] and [result] build.  An exception
    is a value of [exn]; the order in which Python lists the elements of a
    set of moves is the parameter [set_order]. *)
Module Tictactoe.

Inductive mark := X | O.

#[export] Instance mark_eq_dec : EqDecision mark.
Proof. solve_decision. Defined.

(** The content of a cell: [Some X], [Some O], or [EMPTY]. *)
Definition EMPTY : option mark := None.

(** A board: the list of its rows. *)
Abbreviation grid := (list (list (option mark))) (only parsing).

Inductive exn := ValueError | IndexError.

(** What a call does: it returns a value or raises. *)
Inductive res (T : Type) := Ret (v : T) | Raise (e : exn).
Arguments Ret {T} v.
Arguments Raise {T} e.

#[export] Instance res_ret : MRet res := @Ret.
#[export] Instance res_bind : MBind res := λ T U f r,
  match r with Ret v => f v | Raise e => Raise e end.

(** A [for] loop over [xs] with state [s] whose body may raise. *)
Definition for_each {S V} (body : S → V → res S) (s : S) (xs : list V) : res S :=
  foldl (λ acc x, acc ≫= λ s, body s x) (Ret s) xs.

(** [l[i]] for a Python int [i]: a negative index counts from the end. *)
Definition position {V} (l : list V) (i : Z) : res nat :=
  let n := Z.of_nat (length l) in
  let k := if decide (i < 0)%Z then (i + n)%Z else i in
  if decide (k < 0 ∨ n ≤ k)%Z then Raise IndexError else Ret (Z.to_nat k).

Definition getitem {V} (l : list V) (i : Z) : res V :=
  k ← position l i;
  match l !! k with Some v => Ret v | None => Raise IndexError end.

(** [l[i] = v] *)
Definition setitem {V} (l : list V) (i : Z) (v : V) : res (list V) :=
  k ← position l i; Ret (<[k := v]> l).

(** [board[i][j]] *)
Definition at2 (board : grid) (i j : Z) : res (option mark) :=
  row ← getitem board i; getitem row j.

(** [enumerate(l)] *)
Definition indexed {V} (l : list V) : list (Z * V) :=
  imap (λ i v, (Z.of_nat i, v)) l.

Definition initial_state : grid :=
  [[EMPTY; EMPTY; EMPTY];
   [EMPTY; EMPTY; EMPTY];
   [EMPTY; EMPTY; EMPTY]].

(** The two counters of [player] after the loops. *)
Definition count_marks (board : grid) : nat * nat :=
  foldl (λ acc row,
    foldl (λ '(num_X, num_O) el,
      let num_X := if decide (el = Some X) then S num_X else num_X in
      let num_O := if decide (el = Some O) then S num_O else num_O in
      (num_X, num_O)) acc row) (0, 0) board.

Definition player (board : grid) : mark :=
  let '(num_X, num_O) := count_marks board in
  if decide (num_O < num_X) then O else X.

Definition actions (board : grid) : gset (Z * Z) :=
  list_to_set (
    '(i, row) ← indexed board;
    '(j, el) ← indexed row;
    if decide (el = EMPTY) then [(i, j)] else []).

Definition result (board : grid) (action : Z * Z) : res grid :=
  el ← at2 board action.1 action.2;
  if decide (el ≠ EMPTY ∨ 2 < action.1 ∨ 2 < action.2)%Z then Raise ValueError else
  let new_board := board in
  let p := player new_board in
  row ← getitem new_board action.1;
  row ← setitem row action.2 (Some p);
  setitem new_board action.1 row.

(** [a == b and a == c and a != EMPTY], for the cells at three positions,
    read in the order Python reads them. *)
Definition row_check (board : grid) (ind : Z) : res bool :=
  a ← at2 board ind 0; b ← at2 board ind 1;
  if decide (a = b) then
    a ← at2 board ind 0; c ← at2 board ind 2;
    if decide (a = c) then
      a ← at2 board ind 0; Ret (bool_decide (a ≠ EMPTY))
    else Ret false
  else Ret false.

Definition column_check (board : grid) (ind : Z) : res bool :=
  a ← at2 board 0 ind; b ← at2 board 1 ind;
  if decide (a = b) then
    c ← at2 board 2 ind; a ← at2 board 0 ind;
    if decide (c = a) then
      a ← at2 board 0 ind; Ret (bool_decide (a ≠ EMPTY))
    else Ret false
  else Ret false.

(** [x == y == z]: [y] is read once. *)
Definition chain_check (board : grid) (p q r : Z * Z) : res bool :=
  x ← at2 board p.1 p.2; y ← at2 board q.1 q.2;
  if decide (x = y) then
    z ← at2 board r.1 r.2; Ret (bool_decide (y = z))
  else Ret false.

Definition diagonal_check (board : grid) : res bool :=
  chain_check board (0, 0)%Z (1, 1)%Z (2, 2)%Z ≫= λ d : bool,
  (if d then Ret true else chain_check board (0, 2)%Z (1, 1)%Z (2, 0)%Z) ≫= λ d : bool,
  if d then
    m ← at2 board 1 1; Ret (bool_decide (m ≠ EMPTY))
  else Ret false.

(** The [for] loop of [winner]: [Some w] when it returns [w] from inside
    the loop, [None] when the loop ends. *)
Fixpoint winner_loop (board : grid) (inds : list Z) : res (option (option mark)) :=
  match inds with
  | [] => Ret None
  | ind :: inds =>
      row_check board ind ≫= λ r : bool,
      if r then w ← at2 board ind 0; Ret (Some w) else
      column_check board ind ≫= λ c : bool,
      if c then w ← at2 board 0 ind; Ret (Some w) else
      winner_loop board inds
  end.

Definition winner (board : grid) : res (option mark) :=
  winner_loop board (Z.of_nat <$> seq 0 (length board)) ≫= λ returned,
  match returned with
  | Some w => Ret w
  | None =>
      diagonal_check board ≫= λ d : bool,
      if d then at2 board 1 1 else Ret None
  end.

Definition terminal (board : grid) : res bool :=
  if forallb (λ el, bool_decide (el ≠ EMPTY)) (concat board) then Ret true else
  w ← winner board;
  if decide (w ≠ None) then Ret true else Ret false.

Definition utility (board : grid) : res Z :=
  w ← winner board;
  if decide (w = Some X) then Ret 1%Z else
  w ← winner board;
  if decide (w = Some O) then Ret (-1)%Z else
  Ret 0%Z.

(** [max(scores)] and [min(scores)]: a [ValueError] on the empty list. *)
Definition py_max (scores : list Z) : res Z :=
  match scores with
  | [] => Raise ValueError
  | s :: scores => Ret (foldl Z.max s scores)
  end.

Definition py_min (scores : list Z) : res Z :=
  match scores with
  | [] => Raise ValueError
  | s :: scores => Ret (foldl Z.min s scores)
  end.

(** A score of [minimax]: an int, or the float [-inf] or [inf]. *)
Inductive score := NegInf | Fin (z : Z) | PosInf.

Definition score_lt (a b : score) : bool :=
  match a, b with
  | NegInf, NegInf => false
  | NegInf, _ => true
  | Fin x, Fin y => bool_decide (x < y)%Z
  | Fin _, PosInf => true
  | _, _ => false
  end.

Section Search.
(** [list(s)] for a set of moves. *)
Variable set_order : gset (Z * Z) → list (Z * Z).

(** [find_score], with the depth of the recursion bounded by [fuel];
    the call at depth 0 is not reached when [fuel] is the number of
    empty cells. *)
Fixpoint find_score_upto (fuel : nat) (board : grid) : res Z :=
  terminal board ≫= λ t : bool,
  if t then utility board else
  let possible_moves := actions board in
  scores ← for_each (λ scores move,
              new_board ← result board move;
              s ← match fuel with
                  | 0 => Ret 0%Z
                  | S fuel => find_score_upto fuel new_board
                  end;
              Ret (scores ++ [s]))
            [] (set_order possible_moves);
  match player board with
  | X => py_max scores
  | O => py_min scores
  end.

Definition find_score (board : grid) : res Z :=
  find_score_upto (size (actions board)) board.

Definition minimax (board : grid) : res (option (Z * Z)) :=
  terminal board ≫= λ t : bool,
  if t then Ret None else
  let best_score := NegInf in
  let best_move := None in
  let '(best_score, best_move) :=
    if decide (player board = O) then (PosInf, None) else (best_score, best_move) in
  let possible_moves := actions board in
  best ← for_each (λ '(best_score, best_move) move,
            new_board ← result board move;
            s ← find_score new_board;
            if decide ((score_lt best_score (Fin s) = true ∧ player board = X) ∨
                       (score_lt (Fin s) best_score = true ∧ player board = O))
            then Ret (Fin s, Some move)
            else Ret (best_score, best_move))
          (best_score, best_move) (set_order possible_moves);
  Ret best.2.

End Search.

(** ** Boards of the game: the vocabulary of the properties *)

(** Three rows of three cells. *)
Definition three_by_three (board : list (list (option mark))) : Prop :=
  length board = 3 ∧ Forall (λ row, length row = 3) board.

#[export] Instance three_by_three_dec board : Decision (three_by_three board).
Proof. unfold three_by_three. apply _. Defined.

(** The cell in row [r] and column [c], if the board has one. *)
Definition cell_at (board : list (list (option mark))) (r c : nat) :
    option (option mark) :=
  row ← board !! r; row !! c.

(** The number of cells that hold [v]. *)
Definition count_cells (v : option mark)
    (board : list (list (option mark))) : nat :=
  length (filter (λ el, el = v) (concat board)).

(** The eight lines of the board: rows, columns, diagonals. *)
Definition lines : list (list (nat * nat)) :=
  [[(0, 0); (0, 1); (0, 2)]; [(1, 0); (1, 1); (1, 2)]; [(2, 0); (2, 1); (2, 2)];
   [(0, 0); (1, 0); (2, 0)]; [(0, 1); (1, 1); (2, 1)]; [(0, 2); (1, 2); (2, 2)];
   [(0, 0); (1, 1); (2, 2)]; [(0, 2); (1, 1); (2, 0)]].

(** Every cell of the line holds the mark [m]. *)
Definition line_of (m : mark) (board : list (list (option mark)))
    (line : list (nat * nat)) : Prop :=
  Forall (λ rc, cell_at board rc.1 rc.2 = Some (Some m)) line.

#[export] Instance line_of_dec m board line : Decision (line_of m board line).
Proof. unfold line_of. apply _. Defined.

(** For the player [p], the score [b] is strictly better than [a]: [X]
    wants the larger score, [O] the smaller one. *)
Definition better (p : mark) (a b : Z) : Prop :=
  match p with X => (a < b)%Z | O => (b < a)%Z end.

#[export] Instance better_dec p a b : Decision (better p a b).
Proof. destruct p; simpl; apply _. Defined.

(** ** Example boards *)

(** [X] to move, with a win at hand on the diagonal. *)
Definition x_to_win : list (list (option mark)) :=
  [[Some X; Some O; Some X];
   [Some O; Some X; EMPTY];
   [EMPTY; EMPTY; Some O]].

(** [X] has filled the diagonal. *)
Definition x_has_won : list (list (option mark)) :=
  [[Some X; Some O; EMPTY];
   [Some O; Some X; EMPTY];
   [EMPTY; EMPTY; Some X]].

End Tictactoe.


(** ** Tactics *)

(** Closing an equation between two different float or rational
    constants. *)
Ltac float_discriminate H :=
  match type of H with
  | Some ?x = Some ?y =>
      apply (f_equal (λ o, match o with
                           | Some z => PrimFloat.eqb z y
                           | None => false
                           end)) in H;
      vm_compute in H; discriminate H
  end.

Ltac Qc_discriminate H :=
  match type of H with
  | Some ?x = Some ?y =>
      apply (f_equal (λ o, match o with
                           | Some z => Qeq_bool (this z) (this y)
                           | None => false
                           end)) in H;
      vm_compute in H; discriminate H
  end.

(** The integer operations of the float specification are those of [Z]. *)
Ltac Zops :=
  change IntDef.Z.max with Z.max in *; change IntDef.Z.min with Z.min in *;
  change IntDef.Z.sub with Z.sub in *; change IntDef.Z.add with Z.add in *;
  change IntDef.Z.eqb with Z.eqb in *; change IntDef.Z.leb with Z.leb in *;
  change IntDef.Z.div_eucl with Z.div_eucl in *;
  change IntDef.Z.shiftl with Z.shiftl in *; change IntDef.Z.even with Z.even in *;
  change IntDef.Z.mul with Z.mul in *; change IntDef.Z.compare with Z.compare in *.

(** * Properties *)

(** ** Gene counts *)

Lemma omem_disjoint x (one_gene two_genes : gset string) :
  one_gene ## two_genes → omem x one_gene = true → omem x two_genes = false.
Proof.
  intros Hd. destruct x as [y|]; simpl; [|done].
  unfold mem. rewrite bool_decide_eq_true, bool_decide_eq_false. set_solver.
Qed.

Lemma gene_count_disjoint x (one_gene two_genes : gset string) :
  one_gene ## two_genes →
  gene_count x one_gene two_genes = hypothesized_count x one_gene two_genes.
Proof.
  intros Hd. unfold gene_count, hypothesized_count.
  destruct (omem x one_gene) eqn:H1.
  - by rewrite (omem_disjoint _ _ _ Hd H1).
  - by destruct (omem x two_genes).
Qed.

Lemma hypothesized_count_lt x (one_gene two_genes : gset string) :
  hypothesized_count x one_gene two_genes < 3.
Proof. unfold hypothesized_count. repeat case_match; lia. Qed.

Lemma gene_count_lt x (one_gene two_genes : gset string) :
  one_gene ## two_genes → gene_count x one_gene two_genes < 3.
Proof. intros Hd. rewrite gene_count_disjoint by done. apply hypothesized_count_lt. Qed.

Lemma gene_count_both x (one_gene two_genes : gset string) :
  x ∈ one_gene → x ∈ two_genes → gene_count (Some x) one_gene two_genes = 3.
Proof.
  intros H1 H2. unfold gene_count; simpl. unfold mem.
  by rewrite !bool_decide_true.
Qed.

(** ** Loops that may raise *)

Section Loop.
Context {S X : Type} (body : S → X → option S).

Lemma loop_nil s : loop body s [] = Some s.
Proof. done. Qed.

Lemma foldl_bind_None (xs : list X) :
  foldl (λ acc x, acc ≫= λ s, body s x) None xs = None.
Proof. by induction xs. Qed.

Lemma loop_cons s x xs :
  loop body s (x :: xs) = body s x ≫= λ s', loop body s' xs.
Proof.
  unfold loop; simpl. destruct (body s x); simpl; [done|].
  apply foldl_bind_None.
Qed.

Lemma loop_total (P : X → Prop) s xs :
  (∀ s x, P x → is_Some (body s x)) → Forall P xs → is_Some (loop body s xs).
Proof.
  intros Hb Hxs. revert s. induction Hxs as [|x xs Hx _ IH]; intros s.
  - by eexists.
  - rewrite loop_cons. destruct (Hb s x Hx) as [s' ->]. apply IH.
Qed.

End Loop.

Lemma loop_ext {S X} (f g : S → X → option S) s xs :
  (∀ s x, x ∈ xs → f s x = g s x) → loop f s xs = loop g s xs.
Proof.
  revert s. induction xs as [|x xs IH]; intros s Hfg; [done|].
  rewrite !loop_cons, Hfg by left. destruct (g s x); simpl; [|done].
  apply IH. intros. apply Hfg. by right.
Qed.

(** A loop that never raises is a plain fold. *)
Lemma loop_pure {S X} (f : S → X → S) s xs :
  loop (λ s x, Some (f s x)) s xs = Some (foldl f s xs).
Proof.
  revert s. induction xs as [|x xs IH]; intros s; [done|].
  rewrite loop_cons. simpl. apply IH.
Qed.

Section EngineFacts.
Context {A : Type} {N : Num A}.
Local Open Scope num_scope.

Lemma PROBS_gene_total n : n < 3 → is_Some (PROBS_gene (A:=A) n).
Proof. intros. destruct n as [|[|[|]]]; [by eexists..|lia]. Qed.

Lemma PROBS_trait_total n t : n < 3 → is_Some (PROBS_trait (A:=A) n t).
Proof. intros. destruct n as [|[|[|]]]; [by eexists..|lia]. Qed.

Lemma PROBS_gene_3 : PROBS_gene (A:=A) 3 = None.
Proof. done. Qed.

Lemma PROBS_trait_3 t : PROBS_trait (A:=A) 3 t = None.
Proof. done. Qed.

Lemma gene_add_total (d : dist A) n p : n < 3 → is_Some (gene_add d n p).
Proof. intros. destruct n as [|[|[|]]]; [by eexists..|lia]. Qed.

Lemma parent_step_total og tg ht (pj : A) parent :
  og ## tg → is_Some (parent_step og tg ht pj parent).
Proof.
  intros Hd. unfold parent_step.
  pose proof (gene_count_lt (Some parent) og tg Hd) as Hn.
  destruct (PROBS_gene_total _ Hn) as [g ->].
  destruct (PROBS_trait_total _ (mem parent ht) Hn) as [t ->].
  by eexists.
Qed.

Lemma child_step_total og tg ht (cj : A) child :
  og ## tg → is_Some (child_step og tg ht cj child).
Proof.
  intros Hd. unfold child_step.
  pose proof (gene_count_lt (Some child.1) og tg Hd) as Hn.
  destruct (PROBS_trait_total _ (mem child.1 ht) Hn) as [t ->].
  by eexists.
Qed.

Lemma joint_probability_total people og tg ht :
  og ## tg → is_Some (joint_probability (A:=A) people og tg ht).
Proof.
  intros Hd. unfold joint_probability.
  destruct (loop_total (λ pj hp, parent_step og tg ht pj hp.1) (λ _, True)
              num1 (parents people)) as [pj ->].
  { intros. by apply parent_step_total. }
  { by apply Forall_forall. }
  destruct (loop_total (child_step og tg ht) (λ _, True)
              num1 (children people)) as [cj ->].
  { intros. by apply child_step_total. }
  { by apply Forall_forall. }
  by eexists.
Qed.

Lemma update_person_total og tg ht (p : A) human d :
  og ## tg → is_Some (update_person og tg ht p human d).
Proof.
  intros Hd. unfold update_person.
  destruct (gene_add_total d _ p (gene_count_lt (Some human) og tg Hd)) as [d' ->].
  by eexists.
Qed.

Lemma update_total (probabilities : table A) og tg ht p :
  og ## tg → is_Some (update probabilities og tg ht p).
Proof.
  intros Hd. unfold update.
  induction probabilities as [|hd tbl [tbl' IH]]; [by eexists|].
  fold (update tbl og tg ht p) in IH. cbn.
  destruct (update_person_total og tg ht p hd.1 hd.2 Hd) as [d' ->]. cbn.
  fold (update tbl og tg ht p). rewrite IH. by eexists.
Qed.

End EngineFacts.

(** ** [update] *)

Section UpdateFacts.
Context {A : Type} {N : Num A}.
Local Open Scope num_scope.

Lemma update_cons (hd : string * dist A) (tbl : table A) og tg ht p :
  update (hd :: tbl) og tg ht p =
  d' ← update_person og tg ht p hd.1 hd.2;
  tbl' ← update tbl og tg ht p;
  Some ((hd.1, d') :: tbl').
Proof.
  unfold update. cbn. by destruct (update_person og tg ht p hd.1 hd.2).
Qed.

Lemma update_person_bumps og tg ht (p : A) human d d' :
  og ## tg →
  update_person og tg ht p human d = Some d' →
  gene_bumped d d' (hypothesized_count (Some human) og tg) p ∧
  trait_bumped d d' (mem human ht) p.
Proof.
  intros Hd. unfold update_person. rewrite gene_count_disjoint by done.
  pose proof (hypothesized_count_lt (Some human) og tg) as Hn.
  destruct (hypothesized_count (Some human) og tg) as [|[|[|n]]]; [| | |lia];
    simpl; intros [= <-]; (split; [intros [|[|[|i]]] Hi; [| | |lia] | intros []]);
    by destruct (mem human ht).
Qed.

End UpdateFacts.

(** C8.  A call [update(probabilities, one_gene, two_genes, have_trait, p)]
    with [one_gene] and [two_genes] disjoint returns, and for every person
    of the table the gene bucket of their hypothesized gene count (2 if in
    [two_genes], 1 if in [one_gene], otherwise 0) and the trait bucket of
    their membership in [have_trait] each gained exactly [p], while every
    other bucket of every person kept its value. *)
Theorem update_adds_p_to_matching_buckets {A} {N : Num A}
    (probabilities : table A) (one_gene two_genes have_trait : gset string) (p : A) :
  one_gene ## two_genes →
  ∃ probabilities',
    update probabilities one_gene two_genes have_trait p = Some probabilities' ∧
    Forall2 (λ hd hd',
      hd'.1 = hd.1 ∧
      gene_bumped hd.2 hd'.2 (hypothesized_count (Some hd.1) one_gene two_genes) p ∧
      trait_bumped hd.2 hd'.2 (mem hd.1 have_trait) p)
      probabilities probabilities'.
Proof.
  intros Hd. induction probabilities as [|hd tbl (tbl' & IH & Hall)].
  - exists []. by split; [|constructor].
  - rewrite update_cons.
    destruct (update_person_total one_gene two_genes have_trait p hd.1 hd.2 Hd)
      as [d' Hd'].
    rewrite Hd', IH. simpl. eexists; split; [done|].
    constructor; [|done]. split; [done|].
    by apply (update_person_bumps one_gene two_genes have_trait p hd.1).
Qed.

Lemma update_adds_p_to_matching_buckets_witness :
  {["Lily"]} ## ({["James"]} : gset string) ∧
  ∃ probabilities',
    update (A:=float) [("Lily", Dist 0 0 0 0 0); ("James", Dist 0 0 0 0 0)]%float
      {["Lily"]} {["James"]} {["James"]} 0.5%float = Some probabilities' ∧
    Forall2 (λ hd hd',
      hd'.1 = hd.1 ∧
      gene_bumped hd.2 hd'.2 (hypothesized_count (Some hd.1) {["Lily"]} {["James"]}) 0.5%float ∧
      trait_bumped hd.2 hd'.2 (mem hd.1 {["James"]}) 0.5%float)
      [("Lily", Dist 0 0 0 0 0); ("James", Dist 0 0 0 0 0)]%float probabilities'.
Proof.
  assert (Hd : {["Lily"]} ## ({["James"]} : gset string))
    by (apply (bool_decide_unpack _); vm_compute; exact I).
  split; [exact Hd|].
  exact (update_adds_p_to_matching_buckets _ _ _ _ _ Hd).
Defined.

(** ** [joint_probability] does not read the observations *)

Section Observations.
Context {A : Type} {N : Num A}.

Lemma parents_same_family people1 people2 :
  Forall2 same_family people1 people2 →
  Forall2 same_family (parents people1) (parents people2).
Proof.
  unfold parents. induction 1 as [|a b l1 l2 (Hn & Hm & Hf) _ IH]; [constructor|].
  rewrite !filter_cons, Hm.
  destruct (decide (mother b.2 = None)); [constructor|]; done.
Qed.

Lemma children_same_family people1 people2 :
  Forall2 same_family people1 people2 →
  Forall2 same_family (children people1) (children people2).
Proof.
  unfold children. induction 1 as [|a b l1 l2 (Hn & Hm & Hf) _ IH]; [constructor|].
  rewrite !filter_cons, Hm.
  destruct (decide (mother b.2 ≠ None)); [constructor|]; done.
Qed.

Lemma loop_Forall2 {S X} (f g : S → X → option S) s xs ys (R : X → X → Prop) :
  (∀ s x y, R x y → f s x = g s y) →
  Forall2 R xs ys → loop f s xs = loop g s ys.
Proof.
  intros Hfg Hxs. revert s. induction Hxs as [|x y xs ys Hxy _ IH]; intros s; [done|].
  rewrite !loop_cons, (Hfg s x y Hxy). destruct (g s y); simpl; [apply IH|done].
Qed.

End Observations.

(** C10.  Two populations that list the same persons with the same
    mother and father references, and differ at most in the observed
    [trait] fields, get the same result from [joint_probability] on the
    same [one_gene], [two_genes] and [have_trait]. *)
Theorem joint_probability_ignores_observations {A} {N : Num A}
    (people1 people2 : population) (one_gene two_genes have_trait : gset string) :
  Forall2 same_family people1 people2 →
  joint_probability (A:=A) people1 one_gene two_genes have_trait =
  joint_probability people2 one_gene two_genes have_trait.
Proof.
  intros H. unfold joint_probability.
  rewrite (loop_Forall2 _ (λ pj hp, parent_step one_gene two_genes have_trait pj hp.1)
             num1 (parents people1) (parents people2) same_family).
  2:{ intros s x y (Hn & _). by rewrite Hn. }
  2:{ by apply parents_same_family. }
  rewrite (loop_Forall2 _ (child_step one_gene two_genes have_trait)
             num1 (children people1) (children people2) same_family).
  2:{ intros s x y (Hn & Hm & Hf). unfold child_step. by rewrite Hn, Hm, Hf. }
  2:{ by apply children_same_family. }
  done.
Qed.

(** ** [normalize] *)

Section NormalizeFacts.
Context {A : Type} {N : Num A}.
Local Open Scope num_scope.

Lemma normalize_cons (hd : string * dist A) (tbl : table A) :
  normalize (hd :: tbl) =
  d' ← normalize_person hd.2; tbl' ← normalize tbl; Some ((hd.1, d') :: tbl').
Proof. unfold normalize. cbn. by destruct (normalize_person hd.2). Qed.

Lemma nonzero_sums_not_zero_sum d : nonzero_sums d ↔ ¬ zero_sum d.
Proof.
  unfold nonzero_sums, zero_sum.
  destruct (is_zero (sum_genes_probs d)), (is_zero (sum_trait_probs d));
    intuition congruence.
Qed.

Lemma normalize_person_None d : normalize_person d = None ↔ zero_sum d.
Proof.
  unfold normalize_person, zero_sum.
  destruct (is_zero (sum_genes_probs d)), (is_zero (sum_trait_probs d));
    intuition congruence.
Qed.

Lemma normalize_person_Some d d' :
  normalize_person d = Some d' ↔ nonzero_sums d ∧ divided_by_sums d d'.
Proof.
  unfold normalize_person, nonzero_sums, divided_by_sums.
  destruct (is_zero (sum_genes_probs d)), (is_zero (sum_trait_probs d));
    try (intuition congruence).
  split.
  - intros [= <-]. done.
  - intros (_ & ? & ? & ? & ? & ?). destruct d'; simpl in *. by subst.
Qed.

Lemma normalize_None (tbl : table A) :
  normalize tbl = None ↔ Exists (λ hd, zero_sum hd.2) tbl.
Proof.
  induction tbl as [|hd tbl IH].
  - split; [done|]. by intros ?%Exists_nil.
  - rewrite normalize_cons, Exists_cons, <-IH, <-normalize_person_None.
    destruct (normalize_person hd.2), (normalize tbl); simpl; intuition congruence.
Qed.

Lemma normalize_Some (tbl tbl' : table A) :
  normalize tbl = Some tbl' ↔
  Forall2 (λ hd hd', hd'.1 = hd.1 ∧ nonzero_sums hd.2 ∧ divided_by_sums hd.2 hd'.2)
    tbl tbl'.
Proof.
  revert tbl'. induction tbl as [|hd tbl IH]; intros tbl'.
  - split; [by intros [= <-]; constructor|by intros ->%Forall2_nil_inv_l].
  - rewrite normalize_cons. split.
    + destruct (normalize_person hd.2) as [d'|] eqn:Hd; [|done]; simpl.
      destruct (normalize tbl) as [tbl''|]; [|done]; simpl.
      intros [= <-]. apply normalize_person_Some in Hd.
      constructor; [done|]. by apply IH.
    + intros (hd' & tbl'' & (Hn & Hd) & Hall & ->)%Forall2_cons_inv_l.
      apply normalize_person_Some in Hd. apply IH in Hall.
      rewrite Hd, Hall. simpl. destruct hd'; simpl in *. by subst.
Qed.

Lemma normalize_total (tbl : table A) :
  Forall (λ hd, nonzero_sums hd.2) tbl → is_Some (normalize tbl).
Proof.
  intros Hall. destruct (normalize tbl) eqn:H; [done|].
  apply normalize_None, Exists_exists in H as (hd & Hin & Hz).
  rewrite Forall_forall in Hall. by apply Hall, nonzero_sums_not_zero_sum in Hin.
Qed.

End NormalizeFacts.

(** The table before any call of [update] has only zero sums. *)
Lemma zero_dist_zero_sum_float : zero_sum (zero_dist (A:=float)).
Proof. by left. Qed.

Lemma zero_dist_zero_sum_Qc : zero_sum (zero_dist (A:=Qc)).
Proof. by left. Qed.

(** *** Exact arithmetic *)

Lemma is_zero_Qc (x : Qc) : is_zero x = false ↔ x ≠ 0%Qc.
Proof. simpl. apply bool_decide_eq_false. Qed.

Lemma normalize_person_sums_Qc (d d' : dist Qc) :
  normalize_person d = Some d' →
  sum_genes_probs d' = 1%Qc ∧ sum_trait_probs d' = 1%Qc.
Proof.
  intros ([Hg Ht] & Hg0 & Hg1 & Hg2 & Htt & Htf)%normalize_person_Some.
  apply is_zero_Qc in Hg, Ht.
  unfold sum_genes_probs, sum_trait_probs in *.
  rewrite Hg0, Hg1, Hg2, Htt, Htf. cbn [nadd ndiv num0 Qc_Num] in *.
  rewrite Qcplus_0_l in *. split; by field.
Qed.

Lemma normalize_person_fixed_Qc (d : dist Qc) :
  sum_genes_probs d = 1%Qc → sum_trait_probs d = 1%Qc →
  normalize_person d = Some d.
Proof.
  intros Hg Ht. apply normalize_person_Some. unfold nonzero_sums, divided_by_sums.
  rewrite Hg, Ht. cbn [ndiv is_zero Qc_Num].
  assert (Hdiv : ∀ x : Qc, (x / 1 = x)%Qc) by (intros; by field).
  by rewrite !Hdiv.
Qed.


(** The sums that [normalize] leaves in binary64 for the table [main]
    accumulates for a single founder observed with the trait: close to 1,
    not 1. *)
Example normalize_sums_ann_binary64 :
  ∃ d, normalize [("Ann", Dist (0 + 0.96 * 0.01) (0 + 0.03 * 0.56) (0 + 0.01 * 0.65)
                           (0 + 0.96 * 0.01 + 0.03 * 0.56 + 0.01 * 0.65) 0)]%float
       = Some [("Ann", d)] ∧
       sum_genes_probs d = 1.0000000000000002%float ∧ sum_trait_probs d = 1%float.
Proof. eexists. split; [vm_compute; reflexivity|]. split; vm_compute; reflexivity. Qed.



(** C7 (counterexample).  In binary64, on the table [main] accumulates
    for a single founder observed with the trait, whose sums are nonzero,
    a second [normalize] changes the gene distribution produced by the
    first. *)
Lemma normalize_twice_differs_binary64 :
  ¬ (∀ probabilities : table float,
       Forall (λ hd, nonzero_sums hd.2) probabilities →
       normalize probabilities ≫= normalize = normalize probabilities).
Proof.
  intros H.
  pose (acc := [("Ann", Dist (0 + 0.96 * 0.01) (0 + 0.03 * 0.56) (0 + 0.01 * 0.65)
                         (0 + 0.96 * 0.01 + 0.03 * 0.56 + 0.01 * 0.65) 0)]%float
               : table float).
  specialize (H acc).
  assert (Hnz : Forall (λ hd : string * dist float, nonzero_sums hd.2) acc)
    by (repeat constructor).
  apply H in Hnz.
  apply (f_equal (λ o : option (table float),
    match o with
    | Some [(_, d)] => PrimFloat.eqb (gene0 d) 0.29179331306990874%float
    | _ => false
    end)) in Hnz.
  vm_compute in Hnz. discriminate.
Qed.

(** *** Division by one in binary64 *)

Lemma valid_binary_cases s m e :
  valid_binary (S754_finite s m e) = true →
  (e ≤ 971)%Z ∧
  ((Z.pos (digits2_pos m) = 53 ∧ -1073 ≤ e)%Z ∨
   (e = -1074 ∧ Z.pos (digits2_pos m) ≤ 53)%Z).
Proof.
  unfold SpecFloat.valid_binary, bounded, canonical_mantissa, fexp, emin.
  change IntDef.Z.max with Z.max. change IntDef.Z.sub with Z.sub.
  change IntDef.Z.add with Z.add.
  change IntDef.Z.eqb with Z.eqb. change IntDef.Z.leb with Z.leb.
  intros [H1 H2]%andb_prop. apply Z.eqb_eq in H1. apply Z.leb_le in H2.
  unfold prec, emax in *. lia.
Qed.

(** A canonical mantissa is left as it is by the rounding. *)
Lemma binary_round_aux_canonical s m e :
  valid_binary (S754_finite s m e) = true →
  binary_round_aux prec emax s (Z.pos m) e loc_Exact = S754_finite s m e.
Proof.
  intros [Hmax Hcases]%valid_binary_cases.
  unfold binary_round_aux, shr_fexp.
  change (Zdigits2 (Z.pos m)) with (Z.pos (digits2_pos m)).
  assert (Hshift : (fexp prec emax (Z.pos (digits2_pos m) + e) - e = 0)%Z).
  { unfold fexp, emin, prec, emax. Zops. lia. }
  Zops. rewrite Hshift. cbn [shr shr_record_of_loc shr_m loc_of_shr_record round_nearest_even].
  change (Zdigits2 (Z.pos m)) with (Z.pos (digits2_pos m)).
  rewrite Hshift. cbn [shr shr_record_of_loc shr_m].
  unfold prec, emax. by rewrite (proj2 (Z.leb_le e (1024 - 53)%Z)) by lia.
Qed.

(** The same for twice a full mantissa, one exponent lower. *)
Lemma binary_round_aux_double s m e :
  Z.pos (digits2_pos m) = 53%Z → (-1073 ≤ e ≤ 971)%Z →
  binary_round_aux prec emax s (Z.pos m~0) (e - 1) loc_Exact = S754_finite s m e.
Proof.
  intros Hd He.
  unfold binary_round_aux, shr_fexp.
  change (Zdigits2 (Z.pos m~0)) with (Z.pos (Pos.succ (digits2_pos m))).
  rewrite Pos2Z.inj_succ, Hd.
  assert (Hshift : (fexp prec emax (Z.succ 53 + (e - 1)) - (e - 1) = 1)%Z).
  { unfold fexp, emin, prec, emax. Zops. lia. }
  Zops. rewrite Hshift.
  cbn [shr shr_record_of_loc].
  change (SpecFloat.iter_pos shr_1 1
            {| shr_m := Z.pos m~0; shr_r := false; shr_s := false |})
    with {| shr_m := Z.pos m; shr_r := false; shr_s := false |}.
  cbn [shr_m loc_of_shr_record round_nearest_even].
  change (Zdigits2 (Z.pos m)) with (Z.pos (digits2_pos m)). rewrite Hd.
  assert (Hshift' : (fexp prec emax (53 + (e - 1 + 1)) - (e - 1 + 1) = 0)%Z).
  { unfold fexp, emin, prec, emax. Zops. lia. }
  rewrite Hshift'. cbn [shr shr_record_of_loc shr_m].
  replace (e - 1 + 1)%Z with e by lia.
  unfold prec, emax. by rewrite (proj2 (Z.leb_le e (1024 - 53)%Z)) by lia.
Qed.

Lemma SF64div_one x :
  valid_binary x = true →
  SF64div x (S754_finite false 4503599627370496 (-52)) = x.
Proof.
  destruct x as [s|s| |s m e]; intros Hv.
  - by destruct s.
  - by destruct s.
  - done.
  - pose proof Hv as [Hmax Hcases]%valid_binary_cases.
    unfold SF64div, SFdiv, SFdiv_core_binary.
    change (Zdigits2 (Z.pos m)) with (Z.pos (digits2_pos m)).
    change (Zdigits2 4503599627370496) with 53%Z.
    rewrite xorb_false_r. Zops.
    destruct Hcases as [[Hd He]|[-> Hd]].
    + assert (He' : (fexp prec emax (Z.pos (digits2_pos m) + e - (53 + -52))
                     `min` (e - -52) = e - 1)%Z).
      { unfold fexp, emin, prec, emax. Zops. lia. }
      rewrite He'. replace (e - -52 - (e - 1))%Z with 53%Z by lia. cbv iota.
      assert (Hdiv : Z.div_eucl (Z.pos m ≪ 53) 4503599627370496 = (Z.pos m~0, 0%Z)).
      { rewrite Z.shiftl_mul_pow2 by lia.
        change (2 ^ 53)%Z with (2 * 4503599627370496)%Z. rewrite Z.mul_assoc.
        pose proof (Z.div_mul (Z.pos m * 2) 4503599627370496 ltac:(lia)) as Hq.
        pose proof (Z.mod_mul (Z.pos m * 2) 4503599627370496 ltac:(lia)) as Hr.
        unfold Z.div, Z.modulo in Hq, Hr.
        destruct (Z.div_eucl (Z.pos m * 2 * 4503599627370496) 4503599627370496) as [q r].
        subst. f_equal. lia. }
      rewrite Hdiv. change (new_location 4503599627370496 0) with loc_Exact.
      apply binary_round_aux_double; [done|lia].
    + assert (He' : (fexp prec emax (Z.pos (digits2_pos m) + -1074 - (53 + -52))
                     `min` (-1074 - -52) = -1074)%Z).
      { unfold fexp, emin, prec, emax. Zops. lia. }
      rewrite He'. change (-1074 - -52 - -1074)%Z with 52%Z. cbv iota.
      assert (Hdiv : Z.div_eucl (Z.pos m ≪ 52) 4503599627370496 = (Z.pos m, 0%Z)).
      { rewrite Z.shiftl_mul_pow2 by lia.
        change (2 ^ 52)%Z with 4503599627370496%Z.
        pose proof (Z.div_mul (Z.pos m) 4503599627370496 ltac:(lia)) as Hq.
        pose proof (Z.mod_mul (Z.pos m) 4503599627370496 ltac:(lia)) as Hr.
        unfold Z.div, Z.modulo in Hq, Hr.
        destruct (Z.div_eucl (Z.pos m * 4503599627370496) 4503599627370496) as [q r].
        by subst. }
      rewrite Hdiv. change (new_location 4503599627370496 0) with loc_Exact.
      by apply binary_round_aux_canonical.
Qed.

(** Division by 1 gives the number itself, for every binary64 value. *)
Lemma float_div_one (x : float) : (x / 1 = x)%float.
Proof.
  apply Prim2SF_inj. rewrite div_spec.
  change (Prim2SF 1) with (S754_finite false 4503599627370496 (-52)).
  apply SF64div_one, Prim2SF_valid.
Qed.

Lemma normalize_person_fixed_float (d : dist float) :
  sum_genes_probs d = 1%float → sum_trait_probs d = 1%float →
  normalize_person d = Some d.
Proof.
  intros Hg Ht. unfold normalize_person. rewrite Hg, Ht.
  cbn [is_zero ndiv float_Num].
  change (PrimFloat.eqb 1 0) with false. cbv iota.
  rewrite !float_div_one. by destruct d.
Qed.

Lemma normalize_fixed {A} {N : Num A} (one : A) (probabilities : table A) :
  (∀ d : dist A, sum_genes_probs d = one → sum_trait_probs d = one →
                 normalize_person d = Some d) →
  Forall (λ hd, sum_genes_probs hd.2 = one ∧ sum_trait_probs hd.2 = one) probabilities →
  normalize probabilities = Some probabilities.
Proof.
  intros Hfixed. induction 1 as [|[h d] tbl [Hg Ht] _ IH]; [done|].
  rewrite normalize_cons. cbn [fst snd] in *. by rewrite (Hfixed d Hg Ht), IH.
Qed.

(** C7 (amended).  A table in which every person's gene sum and trait
    sum, as the code computes them, are exactly 1 is returned unchanged
    by [normalize], in binary64 as in exact arithmetic.  In exact
    arithmetic the table [normalize] returns always has such sums, so
    that a second [normalize] returns that same table; in binary64 it
    need not, which is where the second application differs. *)
Theorem normalize_unchanged_when_sums_are_one :
  (∀ probabilities : table float,
     Forall (λ hd, sum_genes_probs hd.2 = 1%float ∧ sum_trait_probs hd.2 = 1%float)
       probabilities →
     normalize probabilities = Some probabilities) ∧
  (∀ probabilities : table Qc,
     Forall (λ hd, sum_genes_probs hd.2 = 1%Qc ∧ sum_trait_probs hd.2 = 1%Qc)
       probabilities →
     normalize probabilities = Some probabilities) ∧
  (∀ probabilities : table Qc,
     Forall (λ hd, sum_genes_probs hd.2 ≠ 0%Qc ∧ sum_trait_probs hd.2 ≠ 0%Qc)
       probabilities →
     ∃ probabilities', normalize probabilities = Some probabilities' ∧
       normalize probabilities' = Some probabilities').
Proof.
  split_and!.
  - intros tbl. apply normalize_fixed, normalize_person_fixed_float.
  - intros tbl. apply normalize_fixed, normalize_person_fixed_Qc.
  - intros tbl Hall. destruct (normalize_total tbl) as [tbl' H].
    { eapply Forall_impl; [exact Hall|]. intros hd [??]. split; by apply is_zero_Qc. }
    exists tbl'. split; [done|]. clear Hall. revert tbl' H.
    induction tbl as [|hd tbl IH]; intros tbl'.
    + by intros [= <-].
    + rewrite normalize_cons.
      destruct (normalize_person hd.2) as [d'|] eqn:Hd; [|done]; simpl.
      destruct (normalize tbl) as [tbl''|]; [|done]; simpl.
      intros [= <-]. rewrite normalize_cons. cbn [fst snd].
      apply normalize_person_sums_Qc in Hd as [Hg Ht].
      rewrite (normalize_person_fixed_Qc d' Hg Ht), (IH tbl'' eq_refl). done.
Qed.

Lemma normalize_unchanged_when_sums_are_one_witness :
  normalize [("Ann", Dist 0.25 0.5 0.25 0.75 0.25)]%float
  = Some [("Ann", Dist 0.25 0.5 0.25 0.75 0.25)]%float ∧
  normalize [("Ann", Dist (Q2Qc (1 # 4)) (Q2Qc (1 # 2)) (Q2Qc (1 # 4))
                          (Q2Qc (3 # 4)) (Q2Qc (1 # 4)))]
  = Some [("Ann", Dist (Q2Qc (1 # 4)) (Q2Qc (1 # 2)) (Q2Qc (1 # 4))
                       (Q2Qc (3 # 4)) (Q2Qc (1 # 4)))] ∧
  ∃ probabilities',
    normalize [("Ann", Dist (Q2Qc 1) (Q2Qc 2) (Q2Qc 1) (Q2Qc 3) (Q2Qc 1))]
      = Some probabilities' ∧
    normalize probabilities' = Some probabilities'.
Proof.
  split_and!.
  - apply (proj1 normalize_unchanged_when_sums_are_one).
    constructor; [|constructor]. split; vm_compute; reflexivity.
  - apply (proj1 (proj2 normalize_unchanged_when_sums_are_one)).
    constructor; [|constructor]. split; apply Qc_is_canon; vm_compute; reflexivity.
  - apply (proj2 (proj2 normalize_unchanged_when_sums_are_one)).
    repeat constructor; simpl; by apply (bool_decide_unpack _).
Defined.

(** On a table of finite entries whose sums overflow, the first
    [normalize] returns only zeros, and a second one raises. *)
Example normalize_twice_raises_binary64 :
  normalize [("Ann", Dist 1e308 1e308 1e308 1e308 1e308)]%float
  = Some [("Ann", Dist 0 0 0 0 0)]%float ∧
  normalize [("Ann", Dist 1e308 1e308 1e308 1e308 1e308)]%float ≫= normalize = None.
Proof. split; vm_compute; reflexivity. Qed.

(** ** [joint_probability] against the formula of the specification *)

Section JointSpec.
Context {A : Type} {N : Num A}.
Local Open Scope num_scope.

Lemma parents_founders people :
  well_formed people → parents people = filter founder people.
Proof.
  unfold parents, well_formed. induction 1 as [|hp people Hhp _ IH]; [done|].
  rewrite !filter_cons, IH. unfold founder.
  destruct (decide (mother hp.2 = None)), (decide (_ ∧ _)); tauto.
Qed.

Lemma children_non_founders people :
  well_formed people → children people = filter (λ hp, ¬ founder hp) people.
Proof.
  unfold children, well_formed. induction 1 as [|hp people Hhp _ IH]; [done|].
  rewrite !filter_cons, IH. unfold founder.
  destruct (decide (mother hp.2 ≠ None)), (decide (¬ _)); tauto.
Qed.

Lemma PROBS_gene_prior n : n < 3 → PROBS_gene n = Some (gene_prior n).
Proof. intros. by destruct n as [|[|[|]]]; [..|lia]. Qed.

Lemma PROBS_trait_given_gene n t : n < 3 → PROBS_trait n t = Some (trait_given_gene n t).
Proof. intros. by destruct n as [|[|[|]]]; [..|lia]. Qed.

Lemma inherit_copies n m f : n < 3 → inherit n m f = copies n m f.
Proof. intros. by destruct n as [|[|[|]]]; [..|lia]. Qed.

(** What the arithmetic has to provide: the sum of three products with
    0/1 flags by which the code selects is the selected entry. *)
Hypothesis parent_effect_transmission :
  ∀ n, n < 3 → parent_effect n = transmission n.

Lemma joint_probability_formula people og tg ht :
  well_formed people → og ## tg →
  joint_probability people og tg ht = Some (joint_formula people og tg ht).
Proof using parent_effect_transmission.
  intros Hwf Hd. unfold joint_probability, joint_formula.
  rewrite <-parents_founders, <-children_non_founders by done.
  rewrite (loop_ext (λ pj hp, parent_step og tg ht pj hp.1)
             (λ pj hp, Some (pj * founder_factor og tg ht hp))).
  2:{ intros pj hp _. unfold parent_step, founder_factor.
      rewrite gene_count_disjoint by done.
      pose proof (hypothesized_count_lt (Some hp.1) og tg).
      by rewrite PROBS_gene_prior, PROBS_trait_given_gene. }
  rewrite loop_pure. simpl.
  rewrite (loop_ext (child_step og tg ht)
             (λ cj hp, Some (cj * inheritance_factor og tg hp
             * trait_given_gene (hypothesized_count (Some hp.1) og tg) (mem hp.1 ht)))).
  2:{ intros cj hp _. unfold child_step, inheritance_factor.
      rewrite !gene_count_disjoint by done.
      pose proof (hypothesized_count_lt (Some hp.1) og tg).
      pose proof (hypothesized_count_lt (mother hp.2) og tg).
      pose proof (hypothesized_count_lt (father hp.2) og tg).
      by rewrite PROBS_trait_given_gene, inherit_copies,
        !parent_effect_transmission. }
  by rewrite loop_pure.
Qed.

End JointSpec.

Lemma parent_effect_transmission_float n :
  n < 3 → parent_effect (A:=float) n = transmission n.
Proof. intros. destruct n as [|[|[|]]]; [vm_compute; reflexivity..|lia]. Qed.

Lemma parent_effect_transmission_Qc n :
  n < 3 → parent_effect (A:=Qc) n = transmission n.
Proof.
  intros. destruct n as [|[|[|]]]; [..|lia];
    unfold parent_effect, transmission; simpl; ring.
Qed.

(** The literals of the Python source, as the code's arithmetic reads
    them. *)
Lemma cent_float_literals :
  (cent 96 = 0.96 ∧ cent 3 = 0.03 ∧ cent 1 = 0.01 ∧
   cent 65 = 0.65 ∧ cent 35 = 0.35 ∧ cent 56 = 0.56 ∧ cent 44 = 0.44 ∧
   cent 99 = 0.99 ∧ cent 50 = 0.5)%float.
Proof. repeat split; vm_compute; reflexivity. Qed.

(** C1.  For a population in which everyone has both parents recorded or
    neither, and a hypothesis with [one_gene] and [two_genes] disjoint,
    [joint_probability] returns the product over the founders of
    [gene_prior[n] * trait_given_gene[n][trait]] times the product over
    the others of the combination of the two parents' transmission
    probabilities (mu, 0.5, 1 - mu for a parent with 0, 1, 2 copies;
    (1-m)(1-f), (1-m)f + m(1-f), m f for a child with 0, 1, 2 copies)
    and [trait_given_gene[n][trait]]; both in binary64, multiplying in
    the order of the code, and in exact arithmetic. *)
Theorem joint_probability_is_formula
    (people : population) (one_gene two_genes have_trait : gset string) :
  well_formed people → one_gene ## two_genes →
  joint_probability (A:=float) people one_gene two_genes have_trait
    = Some (joint_formula people one_gene two_genes have_trait) ∧
  joint_probability (A:=Qc) people one_gene two_genes have_trait
    = Some (joint_formula people one_gene two_genes have_trait).
Proof.
  intros Hwf Hd. split.
  - apply joint_probability_formula; [apply parent_effect_transmission_float|done..].
  - apply joint_probability_formula; [apply parent_effect_transmission_Qc|done..].
Qed.

Example joint_probability_family :
  joint_probability (A:=float) family {["Harry"]} {["James"]} {["James"]}
  = Some 0.0026643247487999999%float.
Proof. vm_compute. reflexivity. Qed.

Lemma joint_probability_is_formula_witness :
  well_formed family ∧ {["Harry"]} ## ({["James"]} : gset string) ∧
  joint_probability (A:=float) family {["Harry"]} {["James"]} {["James"]}
    = Some (joint_formula family {["Harry"]} {["James"]} {["James"]}) ∧
  joint_probability (A:=Qc) family {["Harry"]} {["James"]} {["James"]}
    = Some (joint_formula family {["Harry"]} {["James"]} {["James"]}).
Proof.
  assert (Hwf : well_formed family) by (repeat constructor; simpl; congruence).
  assert (Hd : {["Harry"]} ## ({["James"]} : gset string))
    by (apply (bool_decide_unpack _); vm_compute; exact I).
  split; [exact Hwf|]. split; [exact Hd|].
  exact (joint_probability_is_formula family _ _ _ Hwf Hd).
Defined.

(** ** The two-generation scenario *)

Lemma mem_empty x : mem x ∅ = false.
Proof. unfold mem. by rewrite bool_decide_false by set_solver. Qed.

Lemma hypothesized_count_empty x : hypothesized_count x ∅ ∅ = 0.
Proof. unfold hypothesized_count. destruct x; simpl; by rewrite ?mem_empty. Qed.

Lemma trio_well_formed m f c : well_formed (trio m f c).
Proof. repeat constructor; simpl; congruence. Qed.

Lemma trio_founders m f c :
  filter founder (trio m f c) = [(m, Person m None None None); (f, Person f None None None)].
Proof. reflexivity. Qed.

Lemma trio_non_founders m f c :
  filter (λ hp, ¬ founder hp) (trio m f c) = [(c, Person c (Some m) (Some f) None)].
Proof. reflexivity. Qed.

(** C3 (counterexample).  For the trio Lily, James and their child Harry,
    with nobody carrying the gene, no choice of [have_trait] makes
    [joint_probability] return 0.96 * 0.96 * (1 - 0.01) * (1 - 0.01),
    in binary64 or in exact arithmetic: the trait factors are always
    part of the product. *)
Lemma joint_probability_trio_not_gene_part :
  ¬ (∃ have_trait : gset string,
       joint_probability (A:=float) (trio "Lily" "James" "Harry") ∅ ∅ have_trait
       = Some (0.96 * 0.96 * (1 - 0.01) * (1 - 0.01))%float) ∧
  ¬ (∃ have_trait : gset string,
       joint_probability (A:=Qc) (trio "Lily" "James" "Harry") ∅ ∅ have_trait
       = Some (cent 96 * cent 96 * (1 - cent 1) * (1 - cent 1))%Qc).
Proof.
  pose proof (trio_well_formed "Lily" "James" "Harry") as Hwf.
  assert (Hd : (∅ : gset string) ## ∅) by set_solver.
  split; intros [ht H].
  - rewrite (joint_probability_formula parent_effect_transmission_float) in H by done.
    unfold joint_formula, founder_factor, inheritance_factor in H.
    rewrite trio_founders, trio_non_founders in H.
    cbn [foldl fst snd mother father] in H.
    rewrite !hypothesized_count_empty in H.
    destruct (mem "Lily" ht), (mem "James" ht), (mem "Harry" ht);
      float_discriminate H.
  - rewrite (joint_probability_formula parent_effect_transmission_Qc) in H by done.
    unfold joint_formula, founder_factor, inheritance_factor in H.
    rewrite trio_founders, trio_non_founders in H.
    cbn [foldl fst snd mother father] in H.
    rewrite !hypothesized_count_empty in H.
    destruct (mem "Lily" ht), (mem "James" ht), (mem "Harry" ht);
      Qc_discriminate H.
Qed.

Lemma well_formed_Permutation people1 people2 :
  people1 ≡ₚ people2 → well_formed people1 → well_formed people2.
Proof. unfold well_formed. by intros ->. Qed.

(** C3 (amended).  For a population of one child and its two founder
    parents with no trait observed, in any insertion order, and the
    hypothesis in which nobody carries the gene and nobody shows the
    trait, [joint_probability] returns the gene part
    0.96 * 0.96 * (1 - mu) * (1 - mu) multiplied by the three trait
    factors 0.99: in binary64, in the order of the code,
    (0.96 * 0.99) * (0.96 * 0.99) * ((1 - 0.01) * (1 - 0.01) * 0.99),
    about 0.8764. *)
Theorem joint_probability_trio_includes_trait_factors
    (m f c : string) (people : population) :
  people ≡ₚ trio m f c →
  joint_probability (A:=float) people ∅ ∅ ∅
    = Some (0.96 * 0.99 * (0.96 * 0.99) * ((1 - 0.01) * (1 - 0.01) * 0.99))%float ∧
  joint_probability (A:=Qc) people ∅ ∅ ∅
    = Some (cent 96 * cent 96 * (1 - cent 1) * (1 - cent 1)
            * (cent 99 * cent 99 * cent 99))%Qc.
Proof.
  intros Hp.
  assert (Hwf : well_formed people).
  { eapply well_formed_Permutation; [symmetry; exact Hp|apply trio_well_formed]. }
  assert (Hd : (∅ : gset string) ## ∅) by set_solver.
  assert (Hfo : filter founder people ≡ₚ filter founder (trio m f c)) by by rewrite Hp.
  assert (Hch : filter (λ hp, ¬ founder hp) people
                ≡ₚ filter (λ hp, ¬ founder hp) (trio m f c)) by by rewrite Hp.
  rewrite trio_founders in Hfo. rewrite trio_non_founders in Hch.
  symmetry in Hfo, Hch.
  apply Permutation_length_1_inv in Hch.
  apply Permutation_length_2_inv in Hfo.
  split.
  - rewrite (joint_probability_formula parent_effect_transmission_float) by done.
    unfold joint_formula, founder_factor, inheritance_factor. rewrite Hch.
    destruct Hfo as [-> | ->]; cbn [foldl fst snd mother father];
      rewrite !hypothesized_count_empty, !mem_empty; vm_compute; reflexivity.
  - rewrite (joint_probability_formula parent_effect_transmission_Qc) by done.
    unfold joint_formula, founder_factor, inheritance_factor. rewrite Hch.
    destruct Hfo as [-> | ->]; cbn [foldl fst snd mother father];
      rewrite !hypothesized_count_empty, !mem_empty; f_equal;
      apply Qc_is_canon; vm_compute; reflexivity.
Qed.

Lemma joint_probability_trio_includes_trait_factors_witness :
  [("Harry", Person "Harry" (Some "Lily") (Some "James") None);
   ("Lily", Person "Lily" None None None);
   ("James", Person "James" None None None)] ≡ₚ trio "Lily" "James" "Harry" ∧
  joint_probability (A:=float)
    [("Harry", Person "Harry" (Some "Lily") (Some "James") None);
     ("Lily", Person "Lily" None None None);
     ("James", Person "James" None None None)] ∅ ∅ ∅
    = Some (0.96 * 0.99 * (0.96 * 0.99) * ((1 - 0.01) * (1 - 0.01) * 0.99))%float.
Proof.
  assert (Hp : [("Harry", Person "Harry" (Some "Lily") (Some "James") None);
                ("Lily", Person "Lily" None None None);
                ("James", Person "James" None None None)]
               ≡ₚ trio "Lily" "James" "Harry").
  { unfold trio. apply Permutation_cons_append with (l := [_; _]). }
  split; [exact Hp|].
  exact (proj1 (joint_probability_trio_includes_trait_factors _ _ _ _ Hp)).
Defined.

Example joint_probability_trio_value :
  (0.96 * 0.99 * (0.96 * 0.99) * ((1 - 0.01) * (1 - 0.01) * 0.99)
   = 0.87643242998783977)%float.
Proof. vm_compute. reflexivity. Qed.

(** ** The enumeration *)

(** *** [combinations] lists every sublist once *)

Section Combinations.
Context {X : Type}.
Implicit Types (l : list X) (r : nat).

Lemma combinations_0 l : combinations l 0 = [[]].
Proof. by destruct l. Qed.

Lemma combinations_gt l r : length l < r → combinations l r = [].
Proof.
  revert r. induction l as [|x l IH]; intros [|r] Hr; simpl in *; try lia; [done|].
  by rewrite !IH by lia.
Qed.

Lemma bind_app_Permutation {B C} (f g : B → list C) (rs : list B) :
  rs ≫= (λ b, f b ++ g b) ≡ₚ (rs ≫= f) ++ (rs ≫= g).
Proof.
  induction rs as [|b rs IH]; [done|].
  rewrite !bind_cons, IH.
  rewrite <-!(assoc_L (++)). f_equiv.
  rewrite !(assoc_L (++)). f_equiv. apply Permutation_app_comm.
Qed.

Lemma bind_fmap_inner {B C D} (h : C → D) (f : B → list C) (rs : list B) :
  rs ≫= (λ b, h <$> f b) = h <$> (rs ≫= f).
Proof.
  induction rs as [|b rs IH]; [done|].
  by rewrite !bind_cons, fmap_app, IH.
Qed.

(** The sizes 1 .. n+1 of [l], a list of length n, give what the sizes
    0 .. n give without the empty sublist. *)
Lemma combinations_shift l :
  [] :: (seq 0 (S (length l)) ≫= λ r, combinations l (S r)) = all_combinations l.
Proof.
  unfold all_combinations.
  assert (seq 0 (S (length l)) ≫= (λ r, combinations l (S r))
          = seq 0 (length l) ≫= (λ r, combinations l (S r))) as ->.
  { rewrite seq_S, bind_app. simpl.
    rewrite (combinations_gt l (S (length l))) by lia. by rewrite !app_nil_r. }
  change (seq 0 (S (length l))) with (0 :: seq 1 (length l)).
  rewrite bind_cons, combinations_0. simpl. f_equal.
  by rewrite <-fmap_S_seq, list_fmap_bind.
Qed.

Lemma all_combinations_cons x l :
  all_combinations (x :: l) ≡ₚ (cons x <$> all_combinations l) ++ all_combinations l.
Proof.
  assert (all_combinations (x :: l)
          = [] :: (seq 0 (S (length l))
                     ≫= λ r, (cons x <$> combinations l r) ++ combinations l (S r)))
    as ->.
  { unfold all_combinations.
    change (seq 0 (S (length (x :: l)))) with (0 :: seq 1 (S (length l))).
    rewrite bind_cons, <-fmap_S_seq, list_fmap_bind. done. }
  rewrite bind_app_Permutation, bind_fmap_inner, Permutation_middle.
  by rewrite combinations_shift.
Qed.

Lemma all_combinations_sublists l : all_combinations l ≡ₚ sublists l.
Proof.
  induction l as [|x l IH]; [done|].
  rewrite all_combinations_cons. simpl. by rewrite IH.
Qed.

End Combinations.

(** *** The subsets of a set of names *)

Lemma psets_cons x l :
  psets (x :: l) = (({[x]} ∪.) <$> psets l) ++ psets l.
Proof.
  unfold psets. simpl. rewrite fmap_app, <-!list_fmap_compose. done.
Qed.

Lemma elem_of_psets l (X : gset string) : X ∈ psets l ↔ X ⊆ list_to_set l.
Proof.
  revert X. induction l as [|x l IH]; intros X.
  - unfold psets. simpl. rewrite list_elem_of_singleton. set_solver.
  - rewrite psets_cons, elem_of_app, list_elem_of_fmap. simpl. split.
    + intros [(Y & -> & HY%IH)|HX%IH]; set_solver.
    + intros HX. destruct (decide (x ∈ X)) as [Hx|Hx].
      * left. exists (X ∖ {[x]}). split.
        -- apply set_eq. intros y. destruct (decide (y = x)); set_solver.
        -- apply IH. set_solver.
      * right. apply IH. set_solver.
Qed.

Lemma psets_NoDup l : NoDup l → NoDup (psets l).
Proof.
  induction 1 as [|x l Hx Hl IH]; [apply NoDup_singleton|].
  rewrite psets_cons. apply NoDup_app. split_and!; [|..|done].
  - apply NoDup_fmap_2_strong; [|done].
    intros X Y HX%elem_of_psets HY%elem_of_psets Heq.
    assert (x ∉ (list_to_set l : gset string)) by by rewrite elem_of_list_to_set.
    apply set_eq. intros y. destruct (decide (y = x)); set_solver.
  - intros X (Y & -> & HY)%list_elem_of_fmap HX%elem_of_psets.
    assert (x ∉ (list_to_set l : gset string)) by by rewrite elem_of_list_to_set.
    set_solver.
Qed.

Lemma length_sublists {X} (l : list X) : length (sublists l) = 2 ^ length l.
Proof.
  induction l as [|x l IH]; [done|].
  simpl. rewrite length_app, length_fmap, IH. lia.
Qed.

Lemma length_psets l : length (psets l) = 2 ^ length l.
Proof. unfold psets. by rewrite length_fmap, length_sublists. Qed.

(** *** Folding over nested loops *)

Lemma foldl_bind_list {S X Y} (f : S → Y → S) (g : X → list Y) (s : S) (l : list X) :
  foldl f s (l ≫= g) = foldl (λ s x, foldl f s (g x)) s l.
Proof.
  revert s. induction l as [|x l IH]; intros s; [done|].
  by rewrite bind_cons, foldl_app, IH.
Qed.

Lemma foldl_skip {S X} (f : S → X → S) (skip : X → bool) (s : S) (l : list X) :
  foldl (λ s x, if skip x then s else f s x) s l
  = foldl f s (filter (λ x, skip x = false) l).
Proof.
  revert s. induction l as [|x l IH]; intros s; [done|].
  simpl. destruct (skip x) eqn:Hx.
  - rewrite filter_cons_False by (by rewrite Hx). apply IH.
  - rewrite filter_cons_True by done. apply IH.
Qed.

Lemma foldl_ext_in {S X} (f g : S → X → S) (s : S) (l : list X) :
  (∀ s x, x ∈ l → f s x = g s x) → foldl f s l = foldl g s l.
Proof.
  revert s. induction l as [|x l IH]; intros s Hfg; [done|].
  simpl. rewrite Hfg by left. apply IH. intros. apply Hfg. by right.
Qed.

(** *** Counting *)

Lemma length_bind_list {X Y} (f : X → list Y) (l : list X) :
  length (l ≫= f) = sum_list_with (λ x, length (f x)) l.
Proof.
  induction l as [|x l IH]; [done|].
  by rewrite bind_cons, length_app, IH.
Qed.

Lemma sum_list_with_fmap {X Y} (f : Y → nat) (g : X → Y) (l : list X) :
  sum_list_with f (g <$> l) = sum_list_with (f ∘ g) l.
Proof. induction l as [|x l IH]; [done|]. simpl. f_equal. exact IH. Qed.

Lemma sum_list_with_ext_in {X} (f g : X → nat) (l : list X) :
  (∀ x, x ∈ l → f x = g x) → sum_list_with f l = sum_list_with g l.
Proof.
  induction l as [|x l IH]; intros Hfg; [done|].
  simpl. rewrite Hfg by left. rewrite IH; [done|]. intros. apply Hfg. by right.
Qed.

Lemma sum_list_with_const {X} (n : nat) (l : list X) :
  sum_list_with (λ _, n) l = length l * n.
Proof. induction l as [|x l IH]; [done|]. simpl. rewrite IH. lia. Qed.

Lemma sum_list_with_triple {X} (f g h : X → nat) (l : list X) :
  (∀ x, x ∈ l → f x + g x = 3 * h x) →
  sum_list_with f l + sum_list_with g l = 3 * sum_list_with h l.
Proof.
  induction l as [|x l IH]; intros Hfg; [done|].
  simpl. pose proof (Hfg x ltac:(left)).
  assert (sum_list_with f l + sum_list_with g l = 3 * sum_list_with h l).
  { apply IH. intros. apply Hfg. by right. }
  lia.
Qed.

(** Choosing [one_gene] among the names and then [two_genes] among the
    rest: 3 ^ n ways. *)
Lemma psets_sum l :
  NoDup l →
  sum_list_with (λ X, 2 ^ size (list_to_set l ∖ X)) (psets l) = 3 ^ length l.
Proof.
  induction 1 as [|x l Hx Hl IH]; [done|].
  rewrite psets_cons, sum_list_with_app, sum_list_with_fmap.
  change (length (x :: l)) with (S (length l)).
  rewrite Nat.pow_succ_r', <-IH.
  apply sum_list_with_triple. intros X HX%elem_of_psets.
  assert (x ∉ (list_to_set l : gset string)) by by rewrite elem_of_list_to_set.
  simpl.
  assert (({[x]} ∪ list_to_set l) ∖ ({[x]} ∪ X) = list_to_set l ∖ X) as ->
    by set_solver.
  assert (({[x]} ∪ list_to_set l) ∖ X = {[x]} ∪ (list_to_set l ∖ X)) as ->
    by set_solver.
  rewrite (size_union (C:=gset string) {[x]} (list_to_set l ∖ X)) by set_solver.
  rewrite size_singleton, Nat.pow_succ_r'. lia.
Qed.

Lemma length_filter_fmap_iff {X Y} (P : Y → Prop) (Q : X → Prop)
    `{!∀ y, Decision (P y), !∀ x, Decision (Q x)} (f : X → Y) (l : list X) :
  (∀ x, x ∈ l → P (f x) ↔ Q x) →
  length (filter P (f <$> l)) = length (filter Q l).
Proof.
  induction l as [|x l IH]; intros HPQ; [done|].
  rewrite fmap_cons, !filter_cons.
  pose proof (HPQ x ltac:(left)).
  assert (length (filter P (f <$> l)) = length (filter Q l)).
  { apply IH. intros. apply HPQ. by right. }
  destruct (decide (P (f x))), (decide (Q x)); simpl; tauto || lia.
Qed.

Lemma length_filter_iff {X} (P Q : X → Prop)
    `{!∀ x, Decision (P x), !∀ x, Decision (Q x)} (l : list X) :
  (∀ x, x ∈ l → P x ↔ Q x) →
  length (filter P l) = length (filter Q l).
Proof.
  intros. rewrite <-(list_fmap_id l) at 1. by apply length_filter_fmap_iff.
Qed.

Lemma length_filter_False {X} (P : X → Prop) `{!∀ x, Decision (P x)} (l : list X) :
  (∀ x, x ∈ l → ¬ P x) → length (filter P l) = 0.
Proof.
  intros HP. rewrite (length_filter_iff P (λ _, False)) by naive_solver.
  clear HP. induction l as [|x l IH]; [done|].
  by rewrite filter_cons_False by tauto.
Qed.


Lemma mem_union_singleton_eq x (X : gset string) : mem x ({[x]} ∪ X) = true.
Proof. unfold mem. apply bool_decide_eq_true. set_solver. Qed.

Lemma mem_union_singleton_ne x p (X : gset string) :
  p ≠ x → mem p ({[x]} ∪ X) = mem p X.
Proof. intros. unfold mem. apply bool_decide_ext. set_solver. Qed.

Lemma mem_false x (X : gset string) : x ∉ X → mem x X = false.
Proof. intros. unfold mem. by apply bool_decide_eq_false. Qed.

Lemma forallb_agrees_union tr x l (X : gset string) :
  x ∉ l →
  forallb (agrees tr ({[x]} ∪ X)) l = forallb (agrees tr X) l.
Proof.
  induction l as [|p l IH]; intros Hx; [done|].
  apply not_elem_of_cons in Hx as [Hpx Hx]. simpl.
  rewrite IH by done. unfold agrees at 1 3.
  by rewrite mem_union_singleton_ne.
Qed.

(** The candidates that agree with everyone: one binary choice per
    person without an observation. *)
Lemma psets_agreeing tr l :
  NoDup l →
  length (filter (λ X, forallb (agrees tr X) l = true) (psets l))
  = 2 ^ length (filter (λ p, tr p = None) l).
Proof.
  induction 1 as [|x l Hx Hl IH]; [done|].
  rewrite psets_cons, filter_app, length_app, filter_cons.
  assert (HA : ∀ X, X ∈ psets l →
    forallb (agrees tr ({[x]} ∪ X)) (x :: l) = true
    ↔ tr x ≠ Some false ∧ forallb (agrees tr X) l = true).
  { intros X _. simpl. rewrite forallb_agrees_union by done.
    unfold agrees at 1. rewrite mem_union_singleton_eq, andb_true_iff.
    destruct (tr x) as [[]|]; simpl; naive_solver. }
  assert (HB : ∀ X, X ∈ psets l →
    forallb (agrees tr X) (x :: l) = true
    ↔ tr x ≠ Some true ∧ forallb (agrees tr X) l = true).
  { intros X HX%elem_of_psets. simpl.
    unfold agrees at 1. rewrite mem_false, andb_true_iff.
    - destruct (tr x) as [[]|]; simpl; naive_solver.
    - intros Hin. apply HX, elem_of_list_to_set in Hin. done. }
  rewrite (length_filter_fmap_iff _ _ _ _ HA), (length_filter_iff _ _ _ HB).
  destruct (tr x) as [[]|] eqn:Htr.
  - rewrite (length_filter_iff _ (λ X, forallb (agrees tr X) l = true))
      by naive_solver.
    rewrite (length_filter_False (λ X, Some true ≠ Some true ∧ _)) by naive_solver.
    rewrite decide_False by done. rewrite IH. lia.
  - rewrite (length_filter_False (λ X, Some false ≠ Some false ∧ _)) by naive_solver.
    rewrite (length_filter_iff _ (λ X, forallb (agrees tr X) l = true))
      by naive_solver.
    rewrite decide_False by done. rewrite IH. lia.
  - rewrite !(length_filter_iff (λ X, _ ∧ _) (λ X, forallb (agrees tr X) l = true))
      by naive_solver.
    rewrite decide_True by done. rewrite IH. simpl. lia.
Qed.

(** *** [powerset] and the list of calls *)

Section EnumerationFacts.
Variable set_order : gset string → list string.
Hypothesis set_order_NoDup : ∀ s, NoDup (set_order s).
Hypothesis elem_of_set_order : ∀ s x, x ∈ set_order s ↔ x ∈ s.

Lemma list_to_set_set_order s : list_to_set (set_order s) = s.
Proof.
  apply set_eq. intros x. by rewrite elem_of_list_to_set, elem_of_set_order.
Qed.

Lemma length_set_order s : length (set_order s) = size s.
Proof.
  rewrite <-(list_to_set_set_order s) at 2.
  by rewrite size_list_to_set.
Qed.

Lemma powerset_psets s : powerset set_order s ≡ₚ psets (set_order s).
Proof. unfold powerset, psets. by rewrite all_combinations_sublists. Qed.

Lemma elem_of_powerset s X : X ∈ powerset set_order s ↔ X ⊆ s.
Proof.
  by rewrite powerset_psets, elem_of_psets, list_to_set_set_order.
Qed.

Lemma NoDup_powerset s : NoDup (powerset set_order s).
Proof.
  rewrite powerset_psets. by apply psets_NoDup.
Qed.

Lemma length_powerset s : length (powerset set_order s) = 2 ^ size s.
Proof.
  by rewrite powerset_psets, length_psets, length_set_order.
Qed.

Lemma elem_of_hypotheses people og tg ht :
  (og, tg, ht) ∈ hypotheses set_order people ↔
  ht ⊆ names_of people ∧
  fails_evidence set_order people (names_of people) ht = false ∧
  og ⊆ names_of people ∧ tg ⊆ names_of people ∖ og.
Proof.
  unfold hypotheses. rewrite list_elem_of_bind. split.
  - intros (ht' & (og' & Hin & Hog)%list_elem_of_bind & Hht).
    apply list_elem_of_bind in Hin as (tg' & Hin & Htg).
    apply list_elem_of_singleton in Hin as [= -> -> ->].
    apply list_elem_of_filter in Hht as [Hev Hht].
    apply elem_of_powerset in Hht, Hog, Htg. done.
  - intros (Hht & Hev & Hog & Htg). exists ht. split.
    + apply list_elem_of_bind. exists og. split; [|by apply elem_of_powerset].
      apply list_elem_of_bind. exists tg. split; [|by apply elem_of_powerset].
      by apply list_elem_of_singleton.
    + apply list_elem_of_filter. split; [done|]. by apply elem_of_powerset.
Qed.

Lemma hypotheses_disjoint people og tg ht :
  (og, tg, ht) ∈ hypotheses set_order people → og ## tg.
Proof.
  intros (_ & _ & _ & Htg)%elem_of_hypotheses. set_solver.
Qed.


(** *** The evidence filter *)

Lemma trait_of_elem_of (people : population) h p :
  NoDup (keys people) → (h, p) ∈ people → trait_of people h = trait p.
Proof.
  unfold trait_of, keys.
  induction people as [|[h' p'] people IH]; intros Hnd Hin.
  - by apply elem_of_nil in Hin.
  - rewrite fmap_cons in Hnd. apply NoDup_cons in Hnd as [Hh' Hnd]. simpl in *.
    destruct (decide (h' = h)) as [->|Hne]; simpl.
    + apply elem_of_cons in Hin as [[= <-]|Hin]; [done|].
      destruct Hh'. apply list_elem_of_fmap. by exists (h, p).
    + apply elem_of_cons in Hin as [[= -> ->]|Hin]; [done|].
      specialize (IH Hnd Hin).
      destruct (list_find (λ hp, hp.1 = h) people) as [[i hp]|]; simpl in *; done.
Qed.

Lemma fails_evidence_agrees people names ht :
  fails_evidence set_order people names ht
  = negb (forallb (agrees (trait_of people) ht) (set_order names)).
Proof.
  unfold fails_evidence. induction (set_order names) as [|p l IH]; [done|].
  simpl. rewrite IH. unfold agrees at 2.
  destruct (trait_of people p) as [t|]; simpl; [|done].
  by destruct (eqb t (mem p ht)).
Qed.

(** [have_trait] passes the filter exactly when it matches every
    recorded observation. *)
Lemma fails_evidence_false people ht :
  NoDup (keys people) →
  fails_evidence set_order people (names_of people) ht = false ↔
  ∀ h p, (h, p) ∈ people → ∀ t, trait p = Some t → t = mem h ht.
Proof.
  intros Hnd. rewrite fails_evidence_agrees, negb_false_iff, forallb_forall.
  split.
  - intros Hall h p Hin t Ht.
    assert (In h (set_order (names_of people))) as Hh.
    { apply list_elem_of_In, elem_of_set_order, elem_of_list_to_set.
      apply list_elem_of_fmap. by exists (h, p). }
    apply Hall in Hh. unfold agrees in Hh.
    rewrite (trait_of_elem_of people h p), Ht in Hh by done.
    by apply eqb_prop in Hh.
  - intros Hall h Hh.
    apply list_elem_of_In, elem_of_set_order, elem_of_list_to_set in Hh.
    apply list_elem_of_fmap in Hh as ([h' p] & -> & Hin). simpl.
    unfold agrees. rewrite (trait_of_elem_of people h' p) by done.
    destruct (trait p) as [t|] eqn:Ht; [|done].
    rewrite <-(Hall h' p Hin t Ht). by destruct t.
Qed.

Lemma set_order_keys people :
  NoDup (keys people) → set_order (names_of people) ≡ₚ keys people.
Proof.
  intros Hnd. apply NoDup_Permutation; [done..|].
  intros h. unfold names_of. by rewrite elem_of_set_order, elem_of_list_to_set.
Qed.

Lemma size_names_of people :
  NoDup (keys people) → size (names_of people) = length people.
Proof.
  intros Hnd. unfold names_of. rewrite size_list_to_set by done.
  unfold keys. by rewrite length_fmap.
Qed.

Lemma length_unobserved people :
  NoDup (keys people) →
  length (filter (λ h, trait_of people h = None) (set_order (names_of people)))
  = length (unobserved people).
Proof.
  intros Hnd. rewrite set_order_keys by done. unfold keys, unobserved.
  apply length_filter_fmap_iff. intros [h p] Hin. simpl.
  by rewrite (trait_of_elem_of people h p).
Qed.

Lemma length_passing people :
  NoDup (keys people) →
  length (filter (λ ht, fails_evidence set_order people (names_of people) ht = false)
                 (powerset set_order (names_of people)))
  = 2 ^ length (unobserved people).
Proof.
  intros Hnd. rewrite powerset_psets.
  rewrite <-length_unobserved by done.
  rewrite <-(psets_agreeing (trait_of people)) by done.
  apply length_filter_iff. intros ht _.
  by rewrite fails_evidence_agrees, negb_false_iff.
Qed.

Lemma length_gene_choices s :
  sum_list_with (λ og, length (powerset set_order (s ∖ og))) (powerset set_order s)
  = 3 ^ size s.
Proof.
  rewrite powerset_psets.
  rewrite <-length_set_order, <-psets_sum by done.
  apply sum_list_with_ext_in. intros og _.
  by rewrite length_powerset, list_to_set_set_order.
Qed.

Lemma length_hypotheses people :
  NoDup (keys people) →
  length (hypotheses set_order people) = 2 ^ length (unobserved people) * 3 ^ length people.
Proof.
  intros Hnd. unfold hypotheses. rewrite length_bind_list.
  rewrite (sum_list_with_ext_in _ (λ _, 3 ^ length people)).
  - by rewrite sum_list_with_const, length_passing.
  - intros ht _. rewrite length_bind_list.
    rewrite <-size_names_of, <-length_gene_choices by done.
    apply sum_list_with_ext_in. intros og _.
    rewrite length_bind_list.
    change (λ tg : gset string, length [(og, tg, ht)]) with (λ _ : gset string, 1).
    rewrite sum_list_with_const. lia.
Qed.

(** *** The loops of [main] visit exactly these hypotheses *)

Section Run.
Context {A : Type} {N : Num A}.

Lemma enumerate_hypotheses people :
  enumerate set_order people
  = foldl (call people) (Some (init_table people, [])) (hypotheses set_order people).
Proof.
  unfold enumerate, hypotheses. fold (names_of people).
  rewrite foldl_skip, foldl_bind_list.
  apply foldl_ext_in. intros st ht _.
  rewrite foldl_bind_list. apply foldl_ext_in. intros st' og _.
  rewrite foldl_bind_list. apply foldl_ext_in. intros st'' tg _. done.
Qed.

Lemma foldl_call people (hs : list hypothesis) (probabilities : table A) calls :
  Forall (λ h : hypothesis, h.1.1 ## h.1.2) hs →
  ∃ probabilities',
    foldl (call people) (Some (probabilities, calls)) hs
    = Some (probabilities', reverse hs ++ calls).
Proof.
  intros Hhs. revert probabilities calls.
  induction Hhs as [|[[og tg] ht] hs Hd _ IH]; intros tbl calls.
  - by exists tbl.
  - simpl in Hd. cbn [foldl]. unfold call at 2. unfold visit. cbn [fst snd mbind option_bind].
    destruct (joint_probability_total (A:=A) people og tg ht Hd) as [p ->]. simpl.
    destruct (update_total tbl og tg ht p Hd) as [tbl' ->]. simpl.
    destruct (IH tbl' ((og, tg, ht) :: calls)) as [tbl'' Htbl].
    exists tbl''. rewrite reverse_cons, <-(assoc_L (++)). exact Htbl.
Qed.

(** The loops never raise, and call [joint_probability] and [update]
    once for every element of [hypotheses], in that order. *)
Lemma enumerate_calls people :
  ∃ probabilities,
    enumerate (A:=A) set_order people
    = Some (probabilities, reverse (hypotheses set_order people)).
Proof.
  rewrite enumerate_hypotheses.
  destruct (foldl_call people (hypotheses set_order people) (init_table people) [])
    as [tbl Htbl].
  { apply Forall_forall. intros [[og tg] ht] Hin. simpl.
    by eapply hypotheses_disjoint. }
  exists tbl. rewrite app_nil_r in Htbl. exact Htbl.
Qed.

(** *** What the loops leave untouched *)

Lemma call_None people h : call people None h = None.
Proof. done. Qed.

Lemma foldl_call_None people hs : foldl (call people) None hs = None.
Proof. by induction hs. Qed.

Lemma update_trait (probabilities probabilities' : table A) og tg ht p :
  update probabilities og tg ht p = Some probabilities' →
  Forall2 (λ hd hd', hd'.1 = hd.1 ∧ trait_bumped hd.2 hd'.2 (mem hd.1 ht) p)
    probabilities probabilities'.
Proof.
  revert probabilities'. induction probabilities as [|hd tbl IH]; intros tbl'.
  - intros [= <-]. constructor.
  - rewrite update_cons.
    destruct (update_person og tg ht p hd.1 hd.2) as [d'|] eqn:Hd; [|done]; simpl.
    destruct (update tbl og tg ht p) as [tbl''|]; [|done]; simpl.
    intros [= <-]. constructor; [|by apply IH]. split; [done|]. simpl.
    unfold update_person in Hd.
    destruct (gene_add hd.2 _ p) as [d1|] eqn:Hd1; [|done]. simpl in Hd.
    injection Hd as <-. intros b.
    assert (∀ b', trait_get d1 b' = trait_get hd.2 b') as Hsame.
    { intros b'. unfold gene_add in Hd1.
      by repeat (case_match; try done); injection Hd1 as <-; destruct b'. }
    pose proof (Hsame true) as Ht. pose proof (Hsame false) as Hf. simpl in Ht, Hf.
    destruct (mem hd.1 ht), b; simpl; congruence.
Qed.

(** A person whose membership in [have_trait] is [t] throughout keeps
    the other trait bucket as it was. *)
Lemma foldl_call_other_bucket people hs (probabilities probabilities' : table A)
    calls calls' (h : string) (t : bool) :
  Forall (λ hyp : hypothesis, mem h hyp.2 = t) hs →
  foldl (call people) (Some (probabilities, calls)) hs = Some (probabilities', calls') →
  Forall2 (λ hd hd', hd'.1 = hd.1 ∧
             (hd.1 = h → trait_get hd'.2 (negb t) = trait_get hd.2 (negb t)))
    probabilities probabilities'.
Proof.
  intros Hhs. revert probabilities calls.
  induction Hhs as [|[[og tg] ht] hs Hmem _ IH]; intros tbl calls.
  - intros [= <- <-]. apply Forall_Forall2_diag, Forall_forall. done.
  - cbn [foldl]. unfold call at 2. unfold visit. cbn [fst snd mbind option_bind].
    destruct (joint_probability people og tg ht) as [p|];
      [|by rewrite foldl_call_None].
    cbn [mbind option_bind].
    destruct (update tbl og tg ht p) as [tbl1|] eqn:Hup;
      [|by rewrite foldl_call_None].
    cbn [mbind option_bind]. intros Hrest. apply IH in Hrest.
    apply update_trait in Hup. simpl in Hmem.
    eapply Forall2_trans; [|exact Hup|exact Hrest].
    intros hd1 hd2 hd3 (Hn1 & Hb) (Hn2 & Hk). split; [congruence|].
    intros <-. rewrite Hk by done. rewrite (Hb (negb t)), Hmem.
    by destruct t.
Qed.

Lemma hypotheses_passing people og tg ht h p t :
  NoDup (keys people) → (og, tg, ht) ∈ hypotheses set_order people →
  (h, p) ∈ people → trait p = Some t → mem h ht = t.
Proof.
  intros Hnd (_ & Hev & _)%elem_of_hypotheses Hin Ht.
  rewrite fails_evidence_false in Hev by done. symmetry. by eapply Hev.
Qed.

(** After the loops, the trait bucket contradicting a person's
    observation is still the initial zero. *)
Lemma enumerate_other_bucket people (probabilities : table A) calls h p t :
  NoDup (keys people) →
  enumerate set_order people = Some (probabilities, calls) →
  (h, p) ∈ people → trait p = Some t →
  ∃ d, (h, d) ∈ probabilities ∧ trait_get d (negb t) = num0.
Proof.
  intros Hnd Hen Hin Ht. rewrite enumerate_hypotheses in Hen.
  apply (foldl_call_other_bucket _ _ _ _ _ _ h t) in Hen.
  2:{ apply Forall_forall. intros [[og tg] ht] Hhyp. simpl.
      by eapply hypotheses_passing. }
  assert ((h, zero_dist) ∈ init_table (A:=A) people) as Hinit.
  { unfold init_table. apply list_elem_of_fmap. by exists (h, p). }
  apply list_elem_of_lookup in Hinit as [i Hi].
  destruct (Forall2_lookup_l _ _ _ _ _ Hen Hi) as ([h' d] & Hi' & Hn & Hb).
  simpl in *. subst h'. exists d. split.
  - apply list_elem_of_lookup. by exists i.
  - rewrite Hb by done. by destruct t.
Qed.

End Run.

End EnumerationFacts.

(** * The enumeration of [main] *)




Example family_calls :
  2 ^ (length family - length (observed family)) * 3 ^ length family = 54.
Proof. reflexivity. Qed.

(** C9.  With [one_gene] and [two_genes] disjoint, the gene count
    computed for any person or parent reference is 0, 1 or 2, the lookups
    in [PROBS] and in the gene distribution are in range, and
    [joint_probability] and [update] return; the count 3 of a person in
    both sets, which no table has, does not arise, since every call that
    [main] makes has [one_gene] and [two_genes] disjoint. *)
Theorem gene_count_in_range {A} {N : Num A} :
  (∀ x one_gene two_genes, one_gene ## two_genes →
     gene_count x one_gene two_genes < 3 ∧
     is_Some (PROBS_gene (A:=A) (gene_count x one_gene two_genes)) ∧
     (∀ t, is_Some (PROBS_trait (A:=A) (gene_count x one_gene two_genes) t)) ∧
     (∀ (d : dist A) p, is_Some (gene_add d (gene_count x one_gene two_genes) p))) ∧
  (∀ people one_gene two_genes have_trait, one_gene ## two_genes →
     is_Some (joint_probability (A:=A) people one_gene two_genes have_trait)) ∧
  (∀ (probabilities : table A) one_gene two_genes have_trait p,
     one_gene ## two_genes →
     is_Some (update probabilities one_gene two_genes have_trait p)) ∧
  (∀ x (one_gene two_genes : gset string), x ∈ one_gene → x ∈ two_genes →
     gene_count (Some x) one_gene two_genes = 3 ∧
     PROBS_gene (A:=A) 3 = None ∧ (∀ t, PROBS_trait (A:=A) 3 t = None) ∧
     (∀ (d : dist A) p, gene_add d 3 p = None)) ∧
  (∀ set_order people probabilities calls,
     (∀ s, NoDup (set_order s)) → (∀ s x, x ∈ set_order s ↔ x ∈ s) →
     enumerate (A:=A) set_order people = Some (probabilities, calls) →
     ∀ h, h ∈ calls → h.1.1 ## h.1.2).
Proof.
  split_and!.
  - intros x og tg Hd. pose proof (gene_count_lt x og tg Hd). split_and!; [done|..].
    + by apply PROBS_gene_total.
    + intros. by apply PROBS_trait_total.
    + intros. by apply gene_add_total.
  - intros. by apply joint_probability_total.
  - intros. by apply update_total.
  - intros x og tg H1 H2. rewrite gene_count_both by done. by split_and!.
  - intros set_order people tbl calls Hnd Hel Hen [[og tg] ht] Hin.
    destruct (enumerate_calls (A:=A) set_order Hnd Hel people) as [tbl' Htbl].
    rewrite Htbl in Hen. injection Hen as _ <-.
    rewrite elem_of_reverse in Hin. simpl.
    exact (hypotheses_disjoint set_order Hnd Hel people og tg ht Hin).
Qed.

Lemma gene_count_in_range_witness :
  {["Harry"]} ## ({["James"]} : gset string) ∧
  gene_count (Some "James") {["Harry"]} {["James"]} < 3 ∧
  is_Some (joint_probability (A:=float) family {["Harry"]} {["James"]} {["James"]}) ∧
  is_Some (update (A:=float) (init_table family) {["Harry"]} {["James"]} {["James"]} 0.5%float).
Proof.
  assert (Hd : {["Harry"]} ## ({["James"]} : gset string))
    by (apply (bool_decide_unpack _); vm_compute; exact I).
  destruct (gene_count_in_range (A:=float)) as (H1 & H2 & H3 & _).
  split; [exact Hd|]. split; [exact (proj1 (H1 _ _ _ Hd))|].
  split; [exact (H2 _ _ _ _ Hd)|exact (H3 _ _ _ _ _ Hd)].
Defined.

Lemma joint_probability_ignores_observations_witness :
  Forall2 same_family family family_unobserved ∧
  joint_probability (A:=float) family {["Harry"]} {["James"]} {["James"]}
  = joint_probability family_unobserved {["Harry"]} {["James"]} {["James"]}.
Proof.
  assert (H : Forall2 same_family family family_unobserved)
    by (repeat constructor).
  split; [exact H|].
  exact (joint_probability_ignores_observations family family_unobserved _ _ _ H).
Defined.

(** * The posterior of an observed trait *)

(** After [main], for a person with an observation: the entry the loops
    accumulated has the contradicting bucket still at the initial zero,
    and the returned entry is that one divided by its sums. *)
Lemma main_observed_bucket {A} {N : Num A}
    (set_order : gset string → list string) (people : population)
    (accumulated : table A) (calls : list hypothesis) :
  (∀ s x, x ∈ set_order s ↔ x ∈ s) →
  NoDup (keys people) →
  enumerate set_order people = Some (accumulated, calls) →
  Forall (λ hd, nonzero_sums hd.2) accumulated →
  ∃ probabilities,
    main set_order people = Some probabilities ∧
    ∀ h p t, (h, p) ∈ people → trait p = Some t →
      ∃ d0 d, (h, d0) ∈ accumulated ∧ (h, d) ∈ probabilities ∧
              trait_get d0 (negb t) = num0 ∧
              nonzero_sums d0 ∧ divided_by_sums d0 d.
Proof.
  intros Hel Hkeys Hen Hnz.
  destruct (normalize_total accumulated Hnz) as [tbl Htbl].
  exists tbl. split.
  { unfold main. rewrite Hen. exact Htbl. }
  intros h p t Hin Ht.
  destruct (enumerate_other_bucket set_order Hel people accumulated calls
              h p t Hkeys Hen Hin Ht) as (d0 & Hd0 & Hzero).
  apply normalize_Some in Htbl.
  pose proof Hd0 as Hd0'. apply list_elem_of_lookup in Hd0' as [i Hi].
  destruct (Forall2_lookup_l _ _ _ _ _ Htbl Hi) as ([h' d] & Hi' & Hn & Hnz0 & Hdiv).
  simpl in *. subst h'. exists d0, d. split_and!; [done| |done..].
  apply list_elem_of_lookup. by exists i.
Qed.

(** *** Exact arithmetic *)

Lemma certain_Qc (x : Qc) :
  (x + 0 ≠ 0 → x / (x + 0) = 1 ∧ 0 / (x + 0) = 0)%Qc ∧
  (0 + x ≠ 0 → x / (0 + x) = 1 ∧ 0 / (0 + x) = 0)%Qc.
Proof.
  rewrite Qcplus_0_r, Qcplus_0_l. split; intros Hx; split; by field.
Qed.

(** *** Binary64 *)

(** Correctly rounded division of a finite nonzero number by itself. *)
Lemma SF64div_self s m e :
  SF64div (S754_finite s m e) (S754_finite s m e) = Prim2SF 1.
Proof.
  unfold SF64div, SFdiv, SFdiv_core_binary.
  replace (Zdigits2 (Z.pos m) + e - (Zdigits2 (Z.pos m) + e))%Z with 0%Z by lia.
  replace (e - e)%Z with 0%Z by lia.
  change (IntDef.Z.min (fexp prec emax 0) 0) with (-53)%Z.
  change (0 - -53)%Z with 53%Z. cbv iota beta zeta.
  assert (H : IntDef.Z.div_eucl (IntDef.Z.shiftl (Z.pos m) 53) (Z.pos m)
              = (2 ^ 53, 0)%Z).
  { change IntDef.Z.div_eucl with Z.div_eucl. change IntDef.Z.shiftl with Z.shiftl.
    rewrite Z.shiftl_mul_pow2 by lia. rewrite Z.mul_comm.
    pose proof (Z.div_mul (2 ^ 53) (Z.pos m) ltac:(lia)) as Hq.
    pose proof (Z.mod_mul (2 ^ 53) (Z.pos m) ltac:(lia)) as Hr.
    unfold Z.div, Z.modulo in Hq, Hr.
    destruct (Z.div_eucl (2 ^ 53 * Z.pos m) (Z.pos m)) as [q r].
    subst; reflexivity. }
  rewrite H.
  assert (Hl : new_location (Z.pos m) 0 = loc_Exact).
  { unfold new_location, new_location_even, new_location_odd.
    destruct (IntDef.Z.even (Z.pos m)); reflexivity. }
  rewrite Hl. destruct s; vm_compute; reflexivity.
Qed.

Lemma positive_finite_spec x :
  positive_finite x → ∃ m e, Prim2SF x = S754_finite false m e.
Proof.
  unfold positive_finite. rewrite !ltb_spec. intros [H0 Hinf].
  destruct (Prim2SF x) as [s|s| |s m e]; try discriminate.
  - destruct s; discriminate.
  - destruct s; [discriminate|]. by exists m, e.
Qed.

Lemma float_add_zero_r x : positive_finite (x + 0)%float → (x + 0 = x)%float.
Proof.
  unfold positive_finite. rewrite !ltb_spec, !add_spec. intros [H0 Hinf].
  apply Prim2SF_inj. rewrite add_spec.
  destruct (Prim2SF x) as [s|s| |s m e]; try discriminate; try reflexivity.
  - destruct s; discriminate.
Qed.

Lemma float_add_zero_l x : positive_finite (0 + x)%float → (0 + x = x)%float.
Proof.
  unfold positive_finite. rewrite !ltb_spec, !add_spec. intros [H0 Hinf].
  apply Prim2SF_inj. rewrite add_spec.
  destruct (Prim2SF x) as [s|s| |s m e]; try discriminate; try reflexivity.
  - destruct s; discriminate.
Qed.

Lemma float_div_self x : positive_finite x → (x / x = 1)%float.
Proof.
  intros (m & e & Hx)%positive_finite_spec.
  apply Prim2SF_inj. rewrite div_spec, Hx. apply SF64div_self.
Qed.

Lemma float_zero_div x : positive_finite x → (0 / x = 0)%float.
Proof.
  intros (m & e & Hx)%positive_finite_spec.
  apply Prim2SF_inj. by rewrite div_spec, Hx.
Qed.

Lemma certain_float (x : float) :
  (positive_finite (x + 0) → x / (x + 0) = 1 ∧ 0 / (x + 0) = 0)%float ∧
  (positive_finite (0 + x) → x / (0 + x) = 1 ∧ 0 / (0 + x) = 0)%float.
Proof.
  split; intros Hx.
  - pose proof Hx as Heq%float_add_zero_r. rewrite Heq in *.
    split; [by apply float_div_self|by apply float_zero_div].
  - pose proof Hx as Heq%float_add_zero_l. rewrite Heq in *.
    split; [by apply float_div_self|by apply float_zero_div].
Qed.

(** C4.  Whatever order Python lists sets in: when the table accumulated
    by the loops of [main] has only nonzero sums, [main] returns, and a
    person observed with the trait ends with trait distribution 1 for
    [True] and 0 for [False], a person observed without it with 0 for
    [True] and 1 for [False]; in exact arithmetic, and in binary64 as
    long as the accumulated trait sums are positive and finite. *)
Theorem observed_trait_posterior_is_certain
    (set_order : gset string → list string) (people : population) :
  (∀ s, NoDup (set_order s)) →
  (∀ s x, x ∈ set_order s ↔ x ∈ s) →
  NoDup (keys people) →
  (∀ (accumulated : table Qc) calls,
     enumerate set_order people = Some (accumulated, calls) →
     Forall (λ hd, nonzero_sums hd.2) accumulated →
     ∃ probabilities,
       main set_order people = Some probabilities ∧
       ∀ h p t, (h, p) ∈ people → trait p = Some t →
         ∃ d, (h, d) ∈ probabilities ∧
              trait_get d t = 1%Qc ∧ trait_get d (negb t) = 0%Qc) ∧
  (∀ (accumulated : table float) calls,
     enumerate set_order people = Some (accumulated, calls) →
     Forall (λ hd, nonzero_sums hd.2 ∧ positive_finite (sum_trait_probs hd.2))
       accumulated →
     ∃ probabilities,
       main set_order people = Some probabilities ∧
       ∀ h p t, (h, p) ∈ people → trait p = Some t →
         ∃ d, (h, d) ∈ probabilities ∧
              trait_get d t = 1%float ∧ trait_get d (negb t) = 0%float).
Proof.
  intros _ Hel Hkeys. split.
  - intros acc calls Hen Hnz.
    destruct (main_observed_bucket set_order people acc calls Hel Hkeys Hen Hnz)
      as (tbl & Hmain & Hobs).
    exists tbl. split; [done|]. intros h p t Hin Ht.
    destruct (Hobs h p t Hin Ht)
      as (d0 & d & _ & Hd & Hzero & [_ Hst] & _ & _ & _ & Htt & Htf).
    exists d. split; [done|].
    apply is_zero_Qc in Hst. unfold sum_trait_probs in *.
    cbn [nadd ndiv num0 Qc_Num] in *.
    destruct t; simpl in *; rewrite Htt, Htf, Hzero in *.
    + by apply certain_Qc.
    + split; by apply certain_Qc.
  - intros acc calls Hen Hall.
    assert (Hnz : Forall (λ hd : string * dist float, nonzero_sums hd.2) acc).
    { eapply Forall_impl; [exact Hall|]. by intros hd [? _]. }
    destruct (main_observed_bucket set_order people acc calls Hel Hkeys Hen Hnz)
      as (tbl & Hmain & Hobs).
    exists tbl. split; [done|]. intros h p t Hin Ht.
    destruct (Hobs h p t Hin Ht)
      as (d0 & d & Hd0 & Hd & Hzero & _ & _ & _ & _ & Htt & Htf).
    exists d. split; [done|].
    rewrite Forall_forall in Hall. destruct (Hall _ Hd0) as [_ Hpos].
    unfold sum_trait_probs in *. cbn [nadd ndiv num0 float_Num fst snd] in *.
    destruct t; simpl in *; rewrite Htt, Htf, Hzero in *.
    + by apply certain_float.
    + split; by apply certain_float.
Qed.

Lemma observed_trait_posterior_is_certain_witness :
  (∃ probabilities,
     main (A:=Qc) elements ann = Some probabilities ∧
     ∀ h p t, (h, p) ∈ ann → trait p = Some t →
       ∃ d, (h, d) ∈ probabilities ∧
            trait_get d t = 1%Qc ∧ trait_get d (negb t) = 0%Qc) ∧
  (∃ probabilities,
     main (A:=float) elements ann = Some probabilities ∧
     ∀ h p t, (h, p) ∈ ann → trait p = Some t →
       ∃ d, (h, d) ∈ probabilities ∧
            trait_get d t = 1%float ∧ trait_get d (negb t) = 0%float).
Proof.
  assert (Hkeys : NoDup (keys ann))
    by (apply (bool_decide_unpack _); vm_compute; exact I).
  destruct (observed_trait_posterior_is_certain elements ann
              NoDup_elements (λ s x, elem_of_elements s x) Hkeys) as [HQ HF].
  split.
  - pose (s := default ([], []) (enumerate (A:=Qc) elements ann)).
    apply (HQ s.1 s.2).
    + vm_compute. reflexivity.
    + apply (bool_decide_unpack _). vm_compute. exact I.
  - pose (s := default ([], []) (enumerate (A:=float) elements ann)).
    apply (HF s.1 s.2).
    + vm_compute. reflexivity.
    + apply (bool_decide_unpack _). vm_compute. exact I.
Defined.

(** The same on the binary64 run of the course's family: James, observed
    with the trait, and Lily, observed without. *)
Example family_posterior_binary64 :
  ∃ harry james lily,
    main (A:=float) elements family
    = Some [("Harry", harry); ("James", james); ("Lily", lily)] ∧
    (trait_true james, trait_false james) = (1, 0)%float ∧
    (trait_true lily, trait_false lily) = (0, 1)%float.
Proof. vm_compute. do 3 eexists. split; [reflexivity|]. split; reflexivity. Qed.

(** * When [normalize] raises *)

(** C6.  [normalize] raises (a division by zero) exactly when some person
    of the table has a gene sum or a trait sum that is zero, and so returns
    when every person's two sums are nonzero; on the table as [main]
    creates it, with every total still zero, it raises as soon as there is
    a person. *)
Theorem normalize_raises_iff_zero_sum :
  (∀ A (N : Num A) (probabilities : table A),
     (normalize probabilities = None ↔ Exists (λ hd, zero_sum hd.2) probabilities) ∧
     (is_Some (normalize probabilities) ↔ Forall (λ hd, nonzero_sums hd.2) probabilities)) ∧
  (∀ people : population, people ≠ [] →
     normalize (A:=float) (init_table people) = None ∧
     normalize (A:=Qc) (init_table people) = None).
Proof.
  split.
  - intros A N tbl. split; [apply normalize_None|].
    split; [|apply normalize_total].
    intros [tbl' H]. apply Forall_forall. intros hd Hin.
    apply nonzero_sums_not_zero_sum. intros Hz.
    assert (normalize tbl = None); [|congruence].
    apply normalize_None, Exists_exists. eauto.
  - intros [|hp people] ?; [done|]. split; apply normalize_None; left.
    + apply zero_dist_zero_sum_float.
    + apply zero_dist_zero_sum_Qc.
Qed.

Lemma normalize_raises_iff_zero_sum_witness :
  [("Ann", Person "Ann" None None None)] ≠ [] ∧
  normalize (A:=float) (init_table [("Ann", Person "Ann" None None None)]) = None ∧
  normalize (A:=Qc) (init_table [("Ann", Person "Ann" None None None)]) = None.
Proof.
  split; [discriminate|].
  apply (proj2 normalize_raises_iff_zero_sum); discriminate.
Defined.

(** The table of the counterexample to idempotence is the one the loops
    of [main] accumulate, in binary64, for a single founder observed with
    the trait. *)
Example ann_accumulated :
  fst <$> enumerate (A:=float) elements ann
  = Some [("Ann", Dist (0 + 0.96 * 0.01) (0 + 0.03 * 0.56) (0 + 0.01 * 0.65)
                       (0 + 0.96 * 0.01 + 0.03 * 0.56 + 0.01 * 0.65) 0)]%float.
Proof. vm_compute. reflexivity. Qed.

(** Three persons, one of them observed: 2^2 * 3^3 = 108 calls. *)
Example family_unobserved_calls :
  2 ^ (length family_unobserved - length (observed family_unobserved))
  * 3 ^ length family_unobserved = 108.
Proof. reflexivity. Qed.

Section DictSet.
Context {V : Type}.
Implicit Types (d : list (string * V)) (k : string) (v : V).

Lemma keys_dict_set d k v :
  keys (dict_set d k v) = if decide (k ∈ keys d) then keys d else keys d ++ [k].
Proof.
  unfold keys. induction d as [|[k' v'] d IH]; [done|].
  cbn [dict_set]. destruct (decide (k' = k)) as [->|Hne]; rewrite !fmap_cons; cbn [fst].
  - by rewrite decide_True by left.
  - rewrite IH. destruct (decide (k ∈ d.*1)).
    + by rewrite decide_True by by right.
    + rewrite decide_False; [done|]. intros [?|?]%elem_of_cons; congruence.
Qed.

Lemma NoDup_dict_set d k v : NoDup (keys d) → NoDup (keys (dict_set d k v)).
Proof.
  intros Hd. rewrite keys_dict_set. destruct (decide (k ∈ keys d)); [done|].
  apply NoDup_app. split_and!; [done| |apply NoDup_singleton].
  intros x Hx ->%list_elem_of_singleton. done.
Qed.

Lemma elem_of_dict_set d k v k' v' :
  NoDup (keys d) →
  (k', v') ∈ dict_set d k v ↔ (k' = k ∧ v' = v) ∨ (k' ≠ k ∧ (k', v') ∈ d).
Proof.
  unfold keys. induction d as [|[k0 v0] d IH]; intros Hnd.
  - simpl. rewrite list_elem_of_singleton, elem_of_nil. naive_solver.
  - rewrite fmap_cons in Hnd. apply NoDup_cons in Hnd as [Hk0 Hnd].
    cbn [dict_set fst] in *.
    destruct (decide (k0 = k)) as [->|Hne].
    + rewrite !elem_of_cons. split.
      * intros [[= -> ->]|Hin]; [by left|].
        right. split; [|by right]. intros ->. apply Hk0.
        apply list_elem_of_fmap. by exists (k, v').
      * intros [[-> ->]|[Hne [[= -> ->]|Hin]]]; [by left|done|by right].
    + rewrite !elem_of_cons, IH by done. naive_solver.
Qed.

End DictSet.

(** ** [load_data] *)

Lemma load_data_snoc rows r :
  load_data (rows ++ [r]) = dict_set (load_data rows) (row_name r) (person_of_row r).
Proof. unfold load_data. by rewrite foldl_app. Qed.

Lemma NoDup_load_data rows : NoDup (keys (load_data rows)).
Proof.
  induction rows as [|r rows IH] using rev_ind; [constructor|].
  rewrite load_data_snoc. by apply NoDup_dict_set.
Qed.

Lemma keys_load_data rows k : k ∈ keys (load_data rows) ↔ k ∈ row_name <$> rows.
Proof.
  induction rows as [|r rows IH] using rev_ind.
  - done.
  - rewrite load_data_snoc, keys_dict_set, fmap_app, elem_of_app.
    simpl. rewrite list_elem_of_singleton, <-IH.
    destruct (decide (row_name r ∈ keys (load_data rows))).
    + split; [by left|]. intros [?| ->]; done.
    + by rewrite elem_of_app, list_elem_of_singleton.
Qed.

(** X1.  Whatever the rows, the dict [load_data] returns has each name once,
    every record stored under its own [name] field, and a record for every
    name that occurs in a row and for no other. *)
Theorem load_data_keys (rows : list row) :
  NoDup (keys (load_data rows)) ∧
  (∀ k p, (k, p) ∈ load_data rows → name p = k) ∧
  (∀ k, k ∈ keys (load_data rows) ↔ k ∈ row_name <$> rows).
Proof.
  split; [apply NoDup_load_data|]. split; [|intros k; apply keys_load_data].
  induction rows as [|r rows IH] using rev_ind; intros k p.
  - by intros ?%elem_of_nil.
  - rewrite load_data_snoc, elem_of_dict_set by apply NoDup_load_data.
    intros [[-> ->]|[_ Hin]]; [done|by apply IH].
Qed.

(** X2.  The record kept for a name is the one built from the last row with
    that name. *)
Theorem load_data_last_row_wins (rows : list row) (k : string) (p : person) :
  (k, p) ∈ load_data rows ↔
  ∃ rows1 r rows2,
    rows = rows1 ++ r :: rows2 ∧ row_name r = k ∧ person_of_row r = p ∧
    k ∉ row_name <$> rows2.
Proof.
  revert k p. induction rows as [|r rows IH] using rev_ind; intros k p.
  - split; [by intros ?%elem_of_nil|]. intros (rows1 & r & rows2 & H & _).
    by destruct rows1.
  - rewrite load_data_snoc, elem_of_dict_set by apply NoDup_load_data. split.
    + intros [[-> ->]|[Hne Hin]].
      * exists rows, r, []. split_and!; try done. by intros ?%elem_of_nil.
      * apply IH in Hin as (rows1 & r' & rows2 & -> & <- & <- & Hlast).
        exists rows1, r', (rows2 ++ [r]). split_and!; try done.
        -- by rewrite <-(assoc_L (++)).
        -- rewrite fmap_app, elem_of_app. simpl. rewrite list_elem_of_singleton.
           intros [?|?]; done.
    + intros (rows1 & r' & rows2 & Heq & <- & <- & Hlast).
      destruct rows2 as [|r2 rows2 _] using rev_ind.
      * apply app_inj_tail in Heq as [-> ->]. by left.
      * rewrite app_comm_cons, (assoc_L (++)) in Heq.
        apply app_inj_tail in Heq as [-> ->].
        rewrite fmap_app, elem_of_app in Hlast. simpl in Hlast.
        rewrite list_elem_of_singleton in Hlast.
        right. split; [naive_solver|]. apply IH.
        exists rows1, r', rows2. split_and!; try done. naive_solver.
Qed.

(** X3.  When the rows have distinct names, the dict is the rows in their
    order, one record per row; and then everyone has both parents recorded
    or neither exactly when every row has both parent columns blank or
    both filled. *)
Theorem load_data_distinct_names (rows : list row) :
  NoDup (row_name <$> rows) →
  load_data rows = (λ r, (row_name r, person_of_row r)) <$> rows ∧
  (well_formed (load_data rows) ↔
   Forall (λ r, row_mother r = "" ↔ row_father r = "") rows).
Proof.
  intros Hnd.
  assert (Heq : load_data rows = (λ r, (row_name r, person_of_row r)) <$> rows).
  { induction rows as [|r rows IH] using rev_ind; [done|].
    rewrite fmap_app in Hnd. apply NoDup_app in Hnd as (Hnd & Hr & _).
    rewrite load_data_snoc, IH, fmap_app by done. simpl.
    generalize (person_of_row r). intros p.
    assert (Hk : row_name r ∉ row_name <$> rows).
    { intros Hin. apply (Hr _ Hin). simpl. left. }
    clear -Hk. induction rows as [|r' rows IH]; [done|].
    rewrite fmap_cons in Hk. apply not_elem_of_cons in Hk as [Hne Hk].
    rewrite fmap_cons. cbn [dict_set app]. rewrite decide_False by done.
    by rewrite IH. }
  split; [done|]. rewrite Heq. unfold well_formed. rewrite Forall_fmap.
  apply Forall_iff. intros r. simpl. unfold or_None.
  destruct (decide (row_mother r = "")), (decide (row_father r = "")); naive_solver.
Qed.

Lemma load_data_distinct_names_witness :
  NoDup (row_name <$> family_rows) ∧
  load_data family_rows = (λ r, (row_name r, person_of_row r)) <$> family_rows ∧
  (well_formed (load_data family_rows) ↔
   Forall (λ r, row_mother r = "" ↔ row_father r = "") family_rows).
Proof.
  assert (H : NoDup (row_name <$> family_rows))
    by (apply (bool_decide_unpack _); vm_compute; exact I).
  split; [exact H|]. exact (load_data_distinct_names family_rows H).
Defined.

(** The rows of the worked example give the dict [family]. *)
Example load_data_family : load_data family_rows = family.
Proof. reflexivity. Qed.

(** * When [joint_probability] and [update] raise *)

Lemma gene_count_3 x (one_gene two_genes : gset string) :
  gene_count (Some x) one_gene two_genes = 3 ↔ x ∈ one_gene ∧ x ∈ two_genes.
Proof.
  unfold gene_count, omem, mem.
  destruct (bool_decide_reflect (x ∈ one_gene)), (bool_decide_reflect (x ∈ two_genes));
    simpl; intuition lia.
Qed.

Lemma gene_count_le_3 x (one_gene two_genes : gset string) :
  gene_count x one_gene two_genes ≤ 3.
Proof.
  unfold gene_count. destruct (omem x one_gene), (omem x two_genes); simpl; lia.
Qed.

Lemma loop_None {S X} (body : S → X → option S) (bad : X → Prop) s xs :
  (∀ s x, body s x = None ↔ bad x) →
  loop body s xs = None ↔ Exists bad xs.
Proof.
  intros Hbody. revert s. induction xs as [|x xs IH]; intros s.
  - rewrite loop_nil, Exists_nil. split; [discriminate|done].
  - rewrite loop_cons, Exists_cons. destruct (body s x) as [s'|] eqn:Hb; simpl.
    + rewrite IH. split; [by right|]. intros [Hbad|?]; [|done].
      apply Hbody with (s := s) in Hbad. congruence.
    + split; [|done]. intros _. left. by apply (Hbody s).
Qed.

Section Raises.
Context {A : Type} {N : Num A}.

Lemma PROBS_gene_None n : n ≤ 3 → PROBS_gene (A:=A) n = None ↔ n = 3.
Proof.
  intros Hn. destruct n as [|[|[|[|n]]]]; simpl; try lia; split; (done || lia).
Qed.

Lemma PROBS_trait_None n t : n ≤ 3 → PROBS_trait (A:=A) n t = None ↔ n = 3.
Proof.
  intros Hn. destruct n as [|[|[|[|n]]]]; simpl; try lia; split; (done || lia).
Qed.

Lemma parent_step_None og tg ht (pj : A) parent :
  parent_step og tg ht pj parent = None ↔ parent ∈ og ∧ parent ∈ tg.
Proof.
  rewrite <-gene_count_3. unfold parent_step.
  pose proof (gene_count_le_3 (Some parent) og tg) as Hle.
  pose proof (PROBS_gene_None _ Hle) as Hg.
  pose proof (PROBS_trait_None _ (mem parent ht) Hle) as Ht.
  destruct (PROBS_gene _), (PROBS_trait _ _); simpl; intuition congruence.
Qed.

Lemma child_step_None og tg ht (cj : A) child :
  child_step og tg ht cj child = None ↔ child.1 ∈ og ∧ child.1 ∈ tg.
Proof.
  rewrite <-gene_count_3. unfold child_step.
  pose proof (gene_count_le_3 (Some child.1) og tg) as Hle.
  pose proof (PROBS_trait_None _ (mem child.1 ht) Hle) as Ht.
  destruct (PROBS_trait _ _); simpl; intuition congruence.
Qed.

Lemma update_person_None og tg ht (p : A) human d :
  update_person og tg ht p human d = None ↔ human ∈ og ∧ human ∈ tg.
Proof.
  rewrite <-gene_count_3. unfold update_person.
  pose proof (gene_count_le_3 (Some human) og tg) as Hle.
  destruct (gene_count (Some human) og tg) as [|[|[|[|n]]]]; simpl; try lia;
    split; (done || lia).
Qed.

Lemma update_None (probabilities : table A) og tg ht p :
  update probabilities og tg ht p = None ↔
  Exists (λ hd, hd.1 ∈ og ∧ hd.1 ∈ tg) probabilities.
Proof.
  induction probabilities as [|hd tbl IH].
  - rewrite Exists_nil. split; [discriminate|done].
  - rewrite update_cons, Exists_cons, <-IH,
      <-(update_person_None og tg ht p hd.1 hd.2).
    destruct (update_person _ _ _ _ _ _), (update tbl _ _ _ _); simpl;
      intuition congruence.
Qed.

End Raises.

(** X5.  In either arithmetic, [joint_probability] raises (the [KeyError]
    of [PROBS] at gene count 3) exactly when some person of [people] is
    listed both in [one_gene] and in [two_genes]; a parent who is listed in
    both but has no entry of their own does not make it raise. *)
Theorem joint_probability_raises_iff {A} {N : Num A}
    (people : population) (one_gene two_genes have_trait : gset string) :
  joint_probability (A:=A) people one_gene two_genes have_trait = None ↔
  ∃ human, human ∈ keys people ∧ human ∈ one_gene ∧ human ∈ two_genes.
Proof.
  unfold joint_probability.
  pose proof (loop_None
    (λ (pj : A) (hp : string * person), parent_step one_gene two_genes have_trait pj hp.1)
    (λ hp, hp.1 ∈ one_gene ∧ hp.1 ∈ two_genes) num1 (parents people)
    (λ s x, parent_step_None _ _ _ s x.1)) as Hp.
  pose proof (loop_None (child_step (A:=A) one_gene two_genes have_trait)
    (λ hp, hp.1 ∈ one_gene ∧ hp.1 ∈ two_genes) num1 (children people)
    (child_step_None _ _ _)) as Hc.
  rewrite Exists_exists in Hp, Hc.
  assert (Hsplit : (∃ human, human ∈ keys people ∧ human ∈ one_gene ∧ human ∈ two_genes) ↔
    (∃ hp, hp ∈ parents people ∧ hp.1 ∈ one_gene ∧ hp.1 ∈ two_genes) ∨
    (∃ hp, hp ∈ children people ∧ hp.1 ∈ one_gene ∧ hp.1 ∈ two_genes)).
  { unfold keys, parents, children. split.
    - intros (h & Hin & H1 & H2). apply list_elem_of_fmap in Hin as (hp & -> & Hin).
      destruct (decide (mother hp.2 = None)); [left|right]; exists hp;
        by rewrite list_elem_of_filter.
    - intros [(hp & Hin & H)|(hp & Hin & H)]; apply list_elem_of_filter in Hin as [_ Hin];
        exists hp.1; (split; [|done]); apply list_elem_of_fmap; eauto. }
  rewrite Hsplit, <-Hp, <-Hc.
  destruct (loop _ _ (parents people)), (loop _ _ (children people)); simpl;
    intuition congruence.
Qed.

(** X6.  [update] raises (the [KeyError] of the ["gene"] dict at key 3)
    exactly when some person of the table is listed both in [one_gene] and
    in [two_genes]. *)
Theorem update_raises_iff {A} {N : Num A}
    (probabilities : table A) (one_gene two_genes have_trait : gset string) (p : A) :
  update probabilities one_gene two_genes have_trait p = None ↔
  ∃ human, human ∈ keys probabilities ∧ human ∈ one_gene ∧ human ∈ two_genes.
Proof.
  rewrite update_None, Exists_exists. unfold keys. split.
  - intros (hd & Hin & H). exists hd.1. split; [|done].
    apply list_elem_of_fmap; eauto.
  - intros (h & Hin & H). apply list_elem_of_fmap in Hin as (hd & -> & Hin). eauto.
Qed.

(** * The joint probability in exact arithmetic *)

Lemma unit_positive_1 : unit_positive 1.
Proof. split; [reflexivity|apply Qcle_refl]. Qed.

Lemma unit_positive_mult x y : unit_positive x → unit_positive y → unit_positive (x * y).
Proof.
  intros [Hx0 Hx1] [Hy0 Hy1]. split.
  - rewrite <-(Qcmult_0_l y). by apply Qcmult_lt_compat_r.
  - apply Qcle_trans with (1 * y)%Qc.
    + apply Qcmult_le_compat_r; [done|by apply Qclt_le_weak].
    + by rewrite Qcmult_1_l.
Qed.

Lemma PROBS_gene_unit_positive n :
  n < 3 → ∃ g, PROBS_gene (A:=Qc) n = Some g ∧ unit_positive g.
Proof.
  intros Hn. destruct n as [|[|[|n]]]; try lia; eexists; (split; [reflexivity|]);
    apply (bool_decide_unpack _); vm_compute; exact I.
Qed.

Lemma PROBS_trait_unit_positive n t :
  n < 3 → ∃ g, PROBS_trait (A:=Qc) n t = Some g ∧ unit_positive g.
Proof.
  intros Hn. destruct n as [|[|[|n]]]; try lia; destruct t; eexists;
    (split; [reflexivity|]); apply (bool_decide_unpack _); vm_compute; exact I.
Qed.

Lemma inherit_unit_positive n nm nf :
  n < 3 → nm < 3 → nf < 3 →
  unit_positive (inherit (A:=Qc) n (parent_effect nm) (parent_effect nf)).
Proof.
  intros Hn Hm Hf.
  destruct n as [|[|[|n]]]; try lia; destruct nm as [|[|[|nm]]]; try lia;
    destruct nf as [|[|[|nf]]]; try lia;
    apply (bool_decide_unpack _); vm_compute; exact I.
Qed.

Lemma loop_invariant {S X} (body : S → X → option S) (I : S → Prop) (P : X → Prop) s xs :
  (∀ s x, I s → P x → ∃ s', body s x = Some s' ∧ I s') →
  I s → Forall P xs → ∃ s', loop body s xs = Some s' ∧ I s'.
Proof.
  intros Hbody. revert s. induction xs as [|x xs IH]; intros s Hs Hxs.
  - exists s. by rewrite loop_nil.
  - apply Forall_cons in Hxs as [Hx Hxs].
    destruct (Hbody s x Hs Hx) as (s' & Hb & Hs').
    rewrite loop_cons, Hb. simpl. by apply IH.
Qed.

Lemma parent_step_unit_positive og tg ht (pj : Qc) parent :
  og ## tg → unit_positive pj →
  ∃ pj', parent_step og tg ht pj parent = Some pj' ∧ unit_positive pj'.
Proof.
  intros Hd Hpj. unfold parent_step.
  pose proof (gene_count_lt (Some parent) og tg Hd) as Hn.
  destruct (PROBS_gene_unit_positive _ Hn) as (g & -> & Hg).
  destruct (PROBS_trait_unit_positive _ (mem parent ht) Hn) as (t & -> & Ht).
  simpl. eexists. split; [done|]. by repeat apply unit_positive_mult.
Qed.

Lemma child_step_unit_positive og tg ht (cj : Qc) child :
  og ## tg → unit_positive cj →
  ∃ cj', child_step og tg ht cj child = Some cj' ∧ unit_positive cj'.
Proof.
  intros Hd Hcj. unfold child_step.
  pose proof (gene_count_lt (Some child.1) og tg Hd) as Hn.
  destruct (PROBS_trait_unit_positive _ (mem child.1 ht) Hn) as (t & -> & Ht).
  simpl. eexists. split; [done|].
  repeat apply unit_positive_mult; try done.
  apply inherit_unit_positive; [done|by apply gene_count_lt..].
Qed.

Lemma joint_probability_unit_positive people og tg ht :
  og ## tg →
  ∃ p, joint_probability (A:=Qc) people og tg ht = Some p ∧ unit_positive p.
Proof.
  intros Hd. unfold joint_probability.
  destruct (loop_invariant
    (λ (pj : Qc) (hp : string * person), parent_step og tg ht pj hp.1)
    unit_positive (λ _, True) num1 (parents people)) as (pj & -> & Hpj).
  { intros s x Hs _. by apply parent_step_unit_positive. }
  { apply unit_positive_1. }
  { by apply Forall_forall. }
  destruct (loop_invariant (child_step (A:=Qc) og tg ht)
    unit_positive (λ _, True) num1 (children people)) as (cj & -> & Hcj).
  { intros s x Hs _. by apply child_step_unit_positive. }
  { apply unit_positive_1. }
  { by apply Forall_forall. }
  simpl. eexists. split; [done|]. by apply unit_positive_mult.
Qed.



(** * The totals of the table in exact arithmetic *)

Lemma update_person_totals og tg ht (p : Qc) human d d' :
  update_person og tg ht p human d = Some d' →
  sum_genes_probs d' = (sum_genes_probs d + p)%Qc ∧
  sum_trait_probs d' = (sum_trait_probs d + p)%Qc.
Proof.
  unfold update_person, sum_genes_probs, sum_trait_probs.
  destruct (gene_count (Some human) og tg) as [|[|[|n]]]; simpl; [..|done];
    intros [= <-]; destruct (mem human ht); simpl; split; ring.
Qed.

Lemma update_totals (probabilities probabilities' : table Qc) og tg ht p :
  update probabilities og tg ht p = Some probabilities' →
  Forall2 (λ hd hd', hd'.1 = hd.1 ∧
             sum_genes_probs hd'.2 = (sum_genes_probs hd.2 + p)%Qc ∧
             sum_trait_probs hd'.2 = (sum_trait_probs hd.2 + p)%Qc)
    probabilities probabilities'.
Proof.
  revert probabilities'. induction probabilities as [|hd tbl IH]; intros tbl'.
  - intros [= <-]. constructor.
  - rewrite update_cons.
    destruct (update_person _ _ _ _ _ _) as [d'|] eqn:Hd; [|done].
    destruct (update tbl _ _ _ _) as [tbl''|]; [|done].
    simpl. intros [= <-]. constructor; [|by apply IH].
    split; [done|]. by apply update_person_totals in Hd.
Qed.



(** * [main] in exact arithmetic *)

Lemma call_totals people (probabilities : table Qc) calls (h : hypothesis) (m : Qc) :
  h.1.1 ## h.1.2 →
  Forall (λ hd, sum_genes_probs hd.2 = m ∧ sum_trait_probs hd.2 = m) probabilities →
  ∃ probabilities' p,
    call people (Some (probabilities, calls)) h = Some (probabilities', h :: calls) ∧
    (0 < p)%Qc ∧ keys probabilities' = keys probabilities ∧
    Forall (λ hd, sum_genes_probs hd.2 = (m + p)%Qc ∧ sum_trait_probs hd.2 = (m + p)%Qc)
      probabilities'.
Proof.
  intros Hd Hm. destruct h as [[og tg] ht]. simpl in Hd.
  destruct (joint_probability_unit_positive people og tg ht Hd) as (p & Hp & Hpos & _).
  destruct (update_total probabilities og tg ht p Hd) as [tbl' Hupd].
  exists tbl', p. unfold call, visit. simpl. rewrite Hp. simpl. rewrite Hupd. simpl.
  split; [done|]. split; [done|].
  apply update_totals in Hupd. split.
  - unfold keys. clear Hm. induction Hupd as [|?? ?? [Hk _]]; [done|].
    rewrite !fmap_cons. by f_equal.
  - clear -Hupd Hm. induction Hupd as [|hd hd' ?? (Hk & Hg & Ht)]; [constructor|].
    apply Forall_cons in Hm as [[Hmg Hmt] Hm].
    constructor; [|by apply IHHupd].
    rewrite Hmg in Hg. rewrite Hmt in Ht. exact (conj Hg Ht).
Qed.

Lemma foldl_call_totals people hs (probabilities : table Qc) calls (m : Qc) :
  Forall (λ h : hypothesis, h.1.1 ## h.1.2) hs →
  Forall (λ hd, sum_genes_probs hd.2 = m ∧ sum_trait_probs hd.2 = m) probabilities →
  ∃ probabilities' calls' m',
    foldl (call people) (Some (probabilities, calls)) hs = Some (probabilities', calls') ∧
    (m ≤ m')%Qc ∧ (hs ≠ [] → (m < m')%Qc) ∧
    keys probabilities' = keys probabilities ∧
    Forall (λ hd, sum_genes_probs hd.2 = m' ∧ sum_trait_probs hd.2 = m') probabilities'.
Proof.
  revert probabilities calls m. induction hs as [|h hs IH]; intros tbl calls m Hd Hm.
  - exists tbl, calls, m. split_and!; try done; try apply Qcle_refl.
  - apply Forall_cons in Hd as [Hd Hds].
    destruct (call_totals people tbl calls h m Hd Hm) as (tbl1 & p & Hcall & Hp & Hk1 & Hm1).
    destruct (IH tbl1 (h :: calls) (m + p)%Qc Hds Hm1)
      as (tbl2 & calls2 & m2 & Hfold & Hle & _ & Hk2 & Hm2).
    exists tbl2, calls2, m2. cbn [foldl]. rewrite Hcall.
    assert (Hlt : (m < m + p)%Qc).
    { rewrite <-(Qcplus_0_r m) at 1. by apply Qcplus_lt_mono_l. }
    split_and!; try done.
    + apply Qclt_le_weak. by eapply Qclt_le_trans.
    + intros _. by eapply Qclt_le_trans.
    + congruence.
Qed.

Lemma init_table_totals (people : population) :
  Forall (λ hd : string * dist Qc,
            sum_genes_probs hd.2 = 0%Qc ∧ sum_trait_probs hd.2 = 0%Qc)
    (init_table people).
Proof.
  unfold init_table. rewrite Forall_fmap. apply Forall_forall. intros hp _. simpl.
  split; apply Qc_is_canon; reflexivity.
Qed.

Lemma keys_init_table {A} {N : Num A} (people : population) :
  keys (init_table (A:=A) people) = keys people.
Proof.
  unfold keys, init_table. rewrite <-list_fmap_compose. by apply list_fmap_ext.
Qed.

Lemma normalize_keys {A} {N : Num A} (tbl tbl' : table A) :
  normalize tbl = Some tbl' → keys tbl' = keys tbl.
Proof.
  intros H%normalize_Some. unfold keys.
  induction H as [|?? ?? [Hk _]]; [done|]. rewrite !fmap_cons. by f_equal.
Qed.

Lemma hypotheses_nonempty set_order people :
  (∀ s, NoDup (set_order s)) → (∀ s x, x ∈ set_order s ↔ x ∈ s) →
  NoDup (keys people) → hypotheses set_order people ≠ [].
Proof.
  intros Hnd Hel Hkeys Hnil.
  pose proof (length_hypotheses set_order Hnd Hel people Hkeys) as Hlen.
  rewrite Hnil in Hlen. simpl in Hlen.
  assert (0 < 2 ^ length (unobserved people)) by (apply Nat.neq_0_lt_0, Nat.pow_nonzero; lia).
  assert (0 < 3 ^ length people) by (apply Nat.neq_0_lt_0, Nat.pow_nonzero; lia).
  nia.
Qed.

Lemma hypotheses_all_disjoint set_order people :
  (∀ s, NoDup (set_order s)) → (∀ s x, x ∈ set_order s ↔ x ∈ s) →
  Forall (λ h : hypothesis, h.1.1 ## h.1.2) (hypotheses set_order people).
Proof.
  intros Hnd Hel. apply Forall_forall. intros [[og tg] ht] Hin.
  by apply (hypotheses_disjoint set_order Hnd Hel people og tg ht).
Qed.

Lemma main_Qc_distributions
    (set_order : gset string → list string) (people : population) :
  (∀ s, NoDup (set_order s)) →
  (∀ s x, x ∈ set_order s ↔ x ∈ s) →
  NoDup (keys people) →
  ∃ probabilities,
    main (A:=Qc) set_order people = Some probabilities ∧
    keys probabilities = keys people ∧
    Forall (λ hd, (gene0 hd.2 + gene1 hd.2 + gene2 hd.2 = 1)%Qc ∧
                  (trait_true hd.2 + trait_false hd.2 = 1)%Qc) probabilities.
Proof.
  intros Hnd Hel Hkeys.
  destruct (foldl_call_totals people (hypotheses set_order people)
              (init_table people) [] 0%Qc
              (hypotheses_all_disjoint set_order people Hnd Hel)
              (init_table_totals people))
    as (acc & calls & m & Hfold & _ & Hlt & Hk & Hm).
  specialize (Hlt (hypotheses_nonempty set_order people Hnd Hel Hkeys)).
  assert (Hnz : Forall (λ hd : string * dist Qc, nonzero_sums hd.2) acc).
  { eapply Forall_impl; [exact Hm|]. intros hd [Hg Ht].
    assert (m ≠ 0%Qc) by (intros ->; by apply Qclt_not_le in Hlt; apply Hlt, Qcle_refl).
    split; apply is_zero_Qc; congruence. }
  destruct (normalize_total acc Hnz) as [tbl Htbl].
  exists tbl. split; [|split].
  - unfold main. rewrite enumerate_hypotheses, Hfold. exact Htbl.
  - rewrite (normalize_keys _ _ Htbl), Hk. apply keys_init_table.
  - apply normalize_Some in Htbl. clear -Htbl.
    induction Htbl as [|hd hd' ?? (_ & Hn & Hdiv)]; [constructor|].
    constructor; [|done].
    assert (Hp : normalize_person hd.2 = Some hd'.2) by by apply normalize_person_Some.
    apply normalize_person_sums_Qc in Hp as [Hg Ht].
    unfold sum_genes_probs, sum_trait_probs in *. cbn [nadd num0 Qc_Num] in *.
    rewrite Qcplus_0_l in Hg. done.
Qed.



(** * Orders that do not matter in exact arithmetic *)






Lemma update_person_comm og1 tg1 ht1 (p1 : Qc) og2 tg2 ht2 (p2 : Qc) human d :
  update_person og1 tg1 ht1 p1 human d ≫= update_person og2 tg2 ht2 p2 human
  = update_person og2 tg2 ht2 p2 human d ≫= update_person og1 tg1 ht1 p1 human.
Proof.
  unfold update_person.
  destruct (gene_count (Some human) og1 tg1) as [|[|[|n1]]],
    (gene_count (Some human) og2 tg2) as [|[|[|n2]]];
    destruct (mem human ht1), (mem human ht2); simpl; try done;
    f_equal; f_equal; ring.
Qed.

Lemma update_comm (probabilities : table Qc) og1 tg1 ht1 p1 og2 tg2 ht2 p2 :
  update probabilities og1 tg1 ht1 p1 ≫= (λ t, update t og2 tg2 ht2 p2)
  = update probabilities og2 tg2 ht2 p2 ≫= (λ t, update t og1 tg1 ht1 p1).
Proof.
  induction probabilities as [|hd tbl IH]; [done|].
  rewrite !update_cons.
  pose proof (update_person_comm og1 tg1 ht1 p1 og2 tg2 ht2 p2 hd.1 hd.2) as Hd.
  destruct (update_person og1 tg1 ht1 p1 hd.1 hd.2) as [d1|],
    (update_person og2 tg2 ht2 p2 hd.1 hd.2) as [d2|];
    destruct (update tbl og1 tg1 ht1 p1) as [t1|], (update tbl og2 tg2 ht2 p2) as [t2|];
    cbn [mbind option_bind] in *; rewrite ?update_cons; cbn [fst snd mbind option_bind];
    rewrite <-?Hd, <-?IH; try done;
    repeat match goal with
    | |- context [update_person ?a ?b ?c ?d ?e ?f] =>
        destruct (update_person a b c d e f); cbn [mbind option_bind]
    | |- context [update ?a ?b ?c ?d ?e] =>
        destruct (update a b c d e); cbn [mbind option_bind]
    end; try done; try congruence.
Qed.

Lemma update_twice_None {A} {N : Num A} (probabilities : table A)
    og1 tg1 ht1 p1 og2 tg2 ht2 p2 :
  update probabilities og1 tg1 ht1 p1 ≫= (λ t, update t og2 tg2 ht2 p2) = None ↔
  Exists (λ hd, hd.1 ∈ og1 ∧ hd.1 ∈ tg1) probabilities ∨
  Exists (λ hd, hd.1 ∈ og2 ∧ hd.1 ∈ tg2) probabilities.
Proof.
  rewrite <-(update_None probabilities og1 tg1 ht1 p1).
  destruct (update probabilities og1 tg1 ht1 p1) as [t|] eqn:Hup; simpl; [|tauto].
  rewrite update_None. apply update_trait in Hup.
  assert (Hk : Exists (λ hd : string * dist A, hd.1 ∈ og2 ∧ hd.1 ∈ tg2) t ↔
               Exists (λ hd : string * dist A, hd.1 ∈ og2 ∧ hd.1 ∈ tg2) probabilities).
  { induction Hup as [|hd hd' ?? [Hk _] _ IH]; [done|].
    by rewrite !Exists_cons, IH, Hk. }
  rewrite Hk. split; [by right|]. by intros [|].
Qed.

(** X10.  Two calls of [update] can be swapped as far as raising goes, in
    either arithmetic: the pair raises in one order exactly when it raises
    in the other.  In exact arithmetic the table after both calls is the
    same in either order as well.  In binary64 it need not be: adding 0.2
    and then 0.1 to a bucket that holds 0.3 gives 0.59999999999999998,
    adding 0.1 and then 0.2 gives 0.60000000000000009. *)
Theorem update_commutes :
  (∀ {A} {N : Num A} (probabilities : table A)
     (one_gene1 two_genes1 have_trait1 : gset string) (p1 : A)
     (one_gene2 two_genes2 have_trait2 : gset string) (p2 : A),
     update probabilities one_gene1 two_genes1 have_trait1 p1
       ≫= (λ t, update t one_gene2 two_genes2 have_trait2 p2) = None ↔
     update probabilities one_gene2 two_genes2 have_trait2 p2
       ≫= (λ t, update t one_gene1 two_genes1 have_trait1 p1) = None) ∧
  (∀ (probabilities : table Qc)
     (one_gene1 two_genes1 have_trait1 : gset string) (p1 : Qc)
     (one_gene2 two_genes2 have_trait2 : gset string) (p2 : Qc),
     update probabilities one_gene1 two_genes1 have_trait1 p1
       ≫= (λ t, update t one_gene2 two_genes2 have_trait2 p2)
     = update probabilities one_gene2 two_genes2 have_trait2 p2
       ≫= (λ t, update t one_gene1 two_genes1 have_trait1 p1)) ∧
  update [("Ann", Dist 0.3 0 0 0 0)]%float ∅ ∅ ∅ 0.2%float
    ≫= (λ t, update t ∅ ∅ ∅ 0.1%float)
  = Some [("Ann", Dist 0.59999999999999998 0 0 0 0.30000000000000004)]%float ∧
  update [("Ann", Dist 0.3 0 0 0 0)]%float ∅ ∅ ∅ 0.1%float
    ≫= (λ t, update t ∅ ∅ ∅ 0.2%float)
  = Some [("Ann", Dist 0.60000000000000009 0 0 0 0.30000000000000004)]%float.
Proof.
  split_and!; [|apply update_comm|vm_compute; reflexivity..].
  intros. rewrite !update_twice_None. tauto.
Qed.

Lemma foldl_call_table {A} {N : Num A} people hs (probabilities : table A) calls :
  fst <$> foldl (call people) (Some (probabilities, calls)) hs
  = loop (λ t (h : hypothesis),
            p ← joint_probability people h.1.1 h.1.2 h.2; update t h.1.1 h.1.2 h.2 p)
         probabilities hs.
Proof.
  revert probabilities calls. induction hs as [|h hs IH]; intros tbl calls; [done|].
  rewrite loop_cons. cbn [foldl]. unfold call at 2, visit. cbn [mbind option_bind fst snd].
  destruct (joint_probability people h.1.1 h.1.2 h.2) as [p|]; cbn [mbind option_bind].
  - destruct (update tbl h.1.1 h.1.2 h.2 p) as [tbl'|]; cbn [mbind option_bind].
    + apply IH.
    + by rewrite foldl_call_None.
  - by rewrite foldl_call_None.
Qed.







(** * The people of the table *)

Lemma update_keys {A} {N : Num A} (tbl tbl' : table A) og tg ht p :
  update tbl og tg ht p = Some tbl' → keys tbl' = keys tbl.
Proof.
  intros H%update_trait. unfold keys.
  induction H as [|?? ?? [Hk _]]; [done|]. rewrite !fmap_cons. by f_equal.
Qed.

Lemma loop_preserves {S X} (body : S → X → option S) (I : S → Prop) s s' xs :
  (∀ s x s', I s → body s x = Some s' → I s') →
  I s → loop body s xs = Some s' → I s'.
Proof.
  intros Hbody. revert s. induction xs as [|x xs IH]; intros s Hs.
  - rewrite loop_nil. by intros [= <-].
  - rewrite loop_cons. destruct (body s x) as [s1|] eqn:Hb; simpl; [|done].
    apply IH. by eapply Hbody.
Qed.

(** X11.  In either arithmetic and for every order of the sets: when [main]
    returns, its table has exactly the names of [people], in the order of
    [people]. *)
Theorem main_keeps_people {A} {N : Num A}
    (set_order : gset string → list string) (people : population)
    (probabilities : table A) :
  main set_order people = Some probabilities →
  keys probabilities = keys people.
Proof.
  unfold main. destruct (enumerate set_order people) as [[acc calls]|] eqn:Hen; [|done].
  simpl. intros Hn%normalize_keys. rewrite Hn.
  assert (Hacc : fst <$> enumerate (A:=A) set_order people = Some acc) by by rewrite Hen.
  rewrite enumerate_hypotheses, foldl_call_table in Hacc.
  rewrite <-(keys_init_table (A:=A) people).
  revert Hacc. apply loop_preserves with (I := λ t, keys t = keys (init_table people)); [|done].
  intros t h t' Ht. destruct (joint_probability _ _ _ _) as [p|]; simpl; [|done].
  intros Hu%update_keys. congruence.
Qed.

Lemma main_keeps_people_witness :
  ∃ probabilities,
    main (A:=float) elements ann = Some probabilities ∧
    keys probabilities = keys ann.
Proof.
  pose (tbl := default [] (main (A:=float) elements ann)).
  assert (H : main (A:=float) elements ann = Some tbl) by (vm_compute; reflexivity).
  exists tbl. split; [exact H|].
  exact (main_keeps_people elements ann tbl H).
Defined.

(** * The order of [powerset] *)

Section CombinationsOrder.
Context {X : Type}.
Implicit Types l c : list X.

Lemma elem_of_combinations l r c :
  c ∈ combinations l r → c `sublist_of` l ∧ length c = r.
Proof.
  revert r c. induction l as [|x l IH]; intros [|r] c; simpl.
  - intros ->%list_elem_of_singleton. by split.
  - by intros ?%elem_of_nil.
  - intros ->%list_elem_of_singleton. split; [apply sublist_nil_l|done].
  - rewrite elem_of_app, list_elem_of_fmap. intros [(c' & -> & Hin)|Hin].
    + apply IH in Hin as [Hs <-]. split; [by apply sublist_skip|done].
    + apply IH in Hin as [Hs Hl]. split; [by apply sublist_cons|done].
Qed.

Lemma combinations_all l : combinations l (length l) = [l].
Proof.
  induction l as [|x l IH]; [done|]. simpl.
  rewrite IH, combinations_gt by lia. done.
Qed.

Lemma combinations_from l n a :
  (∀ c, c ∈ seq a n ≫= combinations l → a ≤ length c) ∧
  (∀ i j c d, i ≤ j →
     (seq a n ≫= combinations l) !! i = Some c →
     (seq a n ≫= combinations l) !! j = Some d → length c ≤ length d).
Proof.
  revert a. induction n as [|n IH]; intros a.
  - split; [by intros c ?%elem_of_nil|]. intros i j c d _ Hi. done.
  - destruct (IH (S a)) as [IHlen IHord]. cbn [seq]. rewrite bind_cons. split.
    + intros c [Hin|Hin]%elem_of_app.
      * apply elem_of_combinations in Hin as [_ Hlen]. lia.
      * apply IHlen in Hin. lia.
    + intros i j c d Hij Hi Hj.
      apply lookup_app_Some in Hi as [Hi|[Hile Hi]];
        apply lookup_app_Some in Hj as [Hj|[Hjle Hj]].
      * apply list_elem_of_lookup_2, elem_of_combinations in Hi as [_ Hc].
        apply list_elem_of_lookup_2, elem_of_combinations in Hj as [_ Hd]. lia.
      * apply list_elem_of_lookup_2, elem_of_combinations in Hi as [_ Hc].
        apply list_elem_of_lookup_2, IHlen in Hj. lia.
      * apply lookup_lt_Some in Hj. lia.
      * eapply IHord; [|exact Hi|exact Hj]. lia.
Qed.

Lemma all_combinations_head l : head (all_combinations l) = Some [].
Proof. by rewrite <-combinations_shift. Qed.

Lemma all_combinations_last l : last (all_combinations l) = Some l.
Proof.
  unfold all_combinations. rewrite seq_S, bind_app. simpl.
  rewrite combinations_all, app_nil_r. apply last_snoc.
Qed.

End CombinationsOrder.

(** X4.  For a set [s], [powerset] returns every subset of [s] exactly
    once (so 2 to the size of [s] of them), the empty set first and [s]
    itself last, and never a larger subset before a smaller one. *)
Theorem powerset_subsets_by_size
    (set_order : gset string → list string) (s : gset string) :
  (∀ s, NoDup (set_order s)) →
  (∀ s x, x ∈ set_order s ↔ x ∈ s) →
  (∀ X, X ∈ powerset set_order s ↔ X ⊆ s) ∧
  NoDup (powerset set_order s) ∧
  length (powerset set_order s) = 2 ^ size s ∧
  head (powerset set_order s) = Some ∅ ∧
  last (powerset set_order s) = Some s ∧
  (∀ i j X Y, i ≤ j →
     powerset set_order s !! i = Some X → powerset set_order s !! j = Some Y →
     size X ≤ size Y).
Proof.
  intros Hnd Hel. split_and!.
  - intros X. by apply elem_of_powerset.
  - by apply NoDup_powerset.
  - by apply length_powerset.
  - unfold powerset. rewrite <-combinations_shift. done.
  - unfold powerset. rewrite fmap_last, all_combinations_last. simpl.
    by rewrite list_to_set_set_order.
  - unfold powerset. intros i j X Y Hij Hi Hj.
    rewrite list_lookup_fmap in Hi, Hj.
    destruct (all_combinations (set_order s) !! i) as [c|] eqn:Hc; [|done].
    destruct (all_combinations (set_order s) !! j) as [d|] eqn:Hd; [|done].
    simpl in Hi, Hj. injection Hi as <-. injection Hj as <-.
    assert (Hsize : ∀ k e, all_combinations (set_order s) !! k = Some e →
                           size (list_to_set e : gset string) = length e).
    { intros k e He. apply size_list_to_set.
      apply list_elem_of_lookup_2 in He. unfold all_combinations in He.
      apply list_elem_of_bind in He as (r & He & _).
      apply elem_of_combinations in He as [Hs _].
      by eapply sublist_NoDup. }
    rewrite (Hsize i c Hc), (Hsize j d Hd).
    unfold all_combinations in Hc, Hd.
    by eapply (proj2 (combinations_from (set_order s) _ 0)).
Qed.

Lemma powerset_subsets_by_size_witness :
  (∀ X, X ∈ powerset elements ({["Harry"; "James"]} : gset string)
        ↔ X ⊆ {["Harry"; "James"]}) ∧
  NoDup (powerset elements ({["Harry"; "James"]} : gset string)) ∧
  length (powerset elements ({["Harry"; "James"]} : gset string))
  = 2 ^ size ({["Harry"; "James"]} : gset string) ∧
  head (powerset elements ({["Harry"; "James"]} : gset string)) = Some ∅ ∧
  last (powerset elements ({["Harry"; "James"]} : gset string))
  = Some {["Harry"; "James"]} ∧
  (∀ i j X Y, i ≤ j →
     powerset elements ({["Harry"; "James"]} : gset string) !! i = Some X →
     powerset elements ({["Harry"; "James"]} : gset string) !! j = Some Y →
     size X ≤ size Y).
Proof.
  exact (powerset_subsets_by_size elements {["Harry"; "James"]}
           NoDup_elements (λ s x, elem_of_elements s x)).
Defined.

(** * From the rows of the file to the table *)

(** X14.  Whatever rows the file holds (repeated names, a single parent,
    parents without a row of their own, unknown trait codes), the dict of
    [load_data] is one on which the enumeration of [main] runs to its end
    without raising, in either arithmetic: [main] is [normalize] of the
    accumulated table, which has one entry for each name of the file, so
    that only a division by zero can make it raise.  In exact arithmetic
    there is none: [main] returns a table with one entry for each name of
    the file, every distribution summing to 1. *)
Theorem load_data_main :
  (∀ {A} {N : Num A} (set_order : gset string → list string) (rows : list row),
     (∀ s, NoDup (set_order s)) →
     (∀ s x, x ∈ set_order s ↔ x ∈ s) →
     ∃ accumulated calls,
       enumerate (A:=A) set_order (load_data rows) = Some (accumulated, calls) ∧
       main (A:=A) set_order (load_data rows) = normalize accumulated ∧
       (∀ k, k ∈ keys accumulated ↔ k ∈ row_name <$> rows) ∧
       NoDup (keys accumulated)) ∧
  (∀ (set_order : gset string → list string) (rows : list row),
     (∀ s, NoDup (set_order s)) →
     (∀ s x, x ∈ set_order s ↔ x ∈ s) →
     ∃ probabilities,
       main (A:=Qc) set_order (load_data rows) = Some probabilities ∧
       (∀ k, k ∈ keys probabilities ↔ k ∈ row_name <$> rows) ∧
       NoDup (keys probabilities) ∧
       Forall (λ hd, (gene0 hd.2 + gene1 hd.2 + gene2 hd.2 = 1)%Qc ∧
                     (trait_true hd.2 + trait_false hd.2 = 1)%Qc) probabilities).
Proof.
  split.
  - intros A N set_order rows Hnd Hel.
    destruct (enumerate_calls (A:=A) set_order Hnd Hel (load_data rows)) as [acc Hen].
    exists acc, (reverse (hypotheses set_order (load_data rows))).
    assert (Hk : keys acc = keys (load_data rows)).
    { assert (Hacc : fst <$> enumerate (A:=A) set_order (load_data rows) = Some acc)
        by by rewrite Hen.
      rewrite enumerate_hypotheses, foldl_call_table in Hacc.
      rewrite <-(keys_init_table (A:=A) (load_data rows)).
      revert Hacc.
      apply loop_preserves with (I := λ t, keys t = keys (init_table (load_data rows)));
        [|done].
      intros t h t' Ht. destruct (joint_probability _ _ _ _) as [p|]; simpl; [|done].
      intros Hup%update_keys. congruence. }
    split_and!; [done|by unfold main; rewrite Hen|..]; rewrite Hk.
    + apply keys_load_data.
    + apply NoDup_load_data.
  - intros set_order rows Hnd Hel.
    destruct (main_Qc_distributions set_order (load_data rows) Hnd Hel
                (NoDup_load_data rows)) as (tbl & Hmain & Hk & Hsum).
    exists tbl. rewrite Hk. split_and!; try done.
    + apply keys_load_data.
    + apply NoDup_load_data.
Qed.

Lemma load_data_main_witness :
  (∃ accumulated calls,
     enumerate (A:=float) elements
       (load_data [CsvRow "Harry" "Lily" "" "2"; CsvRow "Harry" "" "Tom" "1"])
     = Some (accumulated, calls) ∧
     main (A:=float) elements
       (load_data [CsvRow "Harry" "Lily" "" "2"; CsvRow "Harry" "" "Tom" "1"])
     = normalize accumulated ∧
     (∀ k, k ∈ keys accumulated
           ↔ k ∈ row_name <$> [CsvRow "Harry" "Lily" "" "2"; CsvRow "Harry" "" "Tom" "1"]) ∧
     NoDup (keys accumulated)) ∧
  ∃ probabilities,
    main (A:=Qc) elements
      (load_data [CsvRow "Harry" "Lily" "" "2"; CsvRow "Harry" "" "Tom" "1"])
    = Some probabilities ∧
    (∀ k, k ∈ keys probabilities
          ↔ k ∈ row_name <$> [CsvRow "Harry" "Lily" "" "2"; CsvRow "Harry" "" "Tom" "1"]) ∧
    NoDup (keys probabilities) ∧
    Forall (λ hd, (gene0 hd.2 + gene1 hd.2 + gene2 hd.2 = 1)%Qc ∧
                  (trait_true hd.2 + trait_false hd.2 = 1)%Qc) probabilities.
Proof.
  split.
  - exact (proj1 load_data_main float _ elements
             [CsvRow "Harry" "Lily" "" "2"; CsvRow "Harry" "" "Tom" "1"]
             NoDup_elements (λ s x, elem_of_elements s x)).
  - exact (proj2 load_data_main elements
             [CsvRow "Harry" "Lily" "" "2"; CsvRow "Harry" "" "Tom" "1"]
             NoDup_elements (λ s x, elem_of_elements s x)).
Defined.



(** * Tic-tac-toe *)

Section TictactoeFacts.
Import Tictactoe.

Lemma res_bind_Ret {T U} (r : res T) (f : T → res U) (u : U) :
  r ≫= f = Ret u ↔ ∃ v, r = Ret v ∧ f v = Ret u.
Proof.
  destruct r as [v|e]; simpl; split.
  - intros H. by exists v.
  - by intros (v' & [= <-] & H).
  - done.
  - by intros (v' & [=] & _).
Qed.

(** ** Indexing *)

Lemma position_Ret {V} (l : list V) (i : Z) (k : nat) :
  position l i = Ret k ↔
  (0 ≤ i < Z.of_nat (length l) ∧ k = Z.to_nat i)%Z ∨
  (- Z.of_nat (length l) ≤ i < 0 ∧ k = Z.to_nat (i + Z.of_nat (length l)))%Z.
Proof.
  unfold position. split.
  - intros H. repeat case_decide; inversion H; subst; lia.
  - intros [[? ->]|[? ->]]; repeat case_decide; try lia; f_equal; lia.
Qed.

Lemma position_Raise {V} (l : list V) (i : Z) e :
  position l i = Raise e ↔
  e = IndexError ∧ ¬ (- Z.of_nat (length l) ≤ i < Z.of_nat (length l))%Z.
Proof.
  unfold position. split.
  - intros H. repeat case_decide; inversion H; subst; (split; [done|lia]).
  - intros [-> ?]; repeat case_decide; try lia; done.
Qed.

Lemma position_lt {V} (l : list V) (i : Z) (k : nat) :
  position l i = Ret k → k < length l.
Proof. rewrite position_Ret. lia. Qed.

Lemma position_nonneg {V} (l : list V) (k : nat) :
  k < length l → position l (Z.of_nat k) = Ret k.
Proof. intros Hk. apply position_Ret. left. lia. Qed.

Lemma getitem_Ret {V} (l : list V) (i : Z) (v : V) :
  getitem l i = Ret v ↔ ∃ k, position l i = Ret k ∧ l !! k = Some v.
Proof.
  unfold getitem. rewrite res_bind_Ret. split; intros (k & Hk & Hv); exists k;
    (split; [done|]).
  - destruct (l !! k); congruence.
  - by rewrite Hv.
Qed.

Lemma getitem_Raise {V} (l : list V) (i : Z) e :
  getitem l i = Raise e ↔ e = IndexError ∧ ¬ (- Z.of_nat (length l) ≤ i < Z.of_nat (length l))%Z.
Proof.
  unfold getitem. rewrite <-position_Raise.
  destruct (position l i) as [k|e'] eqn:Hk; simpl; [|split; intros [= ->]; done].
  apply position_lt in Hk. apply lookup_lt_is_Some in Hk as [v ->].
  split; discriminate.
Qed.

Lemma setitem_Ret {V} (l l' : list V) (i : Z) (v : V) :
  setitem l i v = Ret l' ↔ ∃ k, position l i = Ret k ∧ l' = <[k := v]> l.
Proof.
  unfold setitem. rewrite res_bind_Ret. split; intros (k & Hk & Hv); exists k;
    (split; [done|]); simpl in *; congruence.
Qed.

Lemma getitem_nonneg {V} (l : list V) (k : nat) (v : V) :
  l !! k = Some v → getitem l (Z.of_nat k) = Ret v.
Proof.
  intros Hv. apply getitem_Ret. exists k. split; [|done].
  apply position_nonneg. by eapply lookup_lt_Some.
Qed.

Lemma at2_Ret (board : list (list (option mark))) (i j : Z) el :
  at2 board i j = Ret el ↔
  ∃ r c row, position board i = Ret r ∧ board !! r = Some row ∧
             position row j = Ret c ∧ row !! c = Some el.
Proof.
  unfold at2. rewrite res_bind_Ret. split.
  - intros (row & (r & Hr & Hrow)%getitem_Ret & (c & Hc & Hel)%getitem_Ret).
    by exists r, c, row.
  - intros (r & c & row & Hr & Hrow & Hc & Hel). exists row.
    split; apply getitem_Ret; eauto.
Qed.

End TictactoeFacts.

Section TictactoeMoves.
Import Tictactoe.
Implicit Types board : list (list (option mark)).

(** ** [player] *)

Lemma count_marks_row (row : list (option mark)) (nx no : nat) :
  foldl (λ '(num_X, num_O) el,
      let num_X := if decide (el = Some X) then S num_X else num_X in
      let num_O := if decide (el = Some O) then S num_O else num_O in
      (num_X, num_O)) (nx, no) row
  = (nx + length (filter (λ el, el = Some X) row),
     no + length (filter (λ el, el = Some O) row)).
Proof.
  revert nx no. induction row as [|el row IH]; intros nx no; simpl.
  - f_equal; lia.
  - rewrite IH, !filter_cons. repeat case_decide; simpl; f_equal; lia.
Qed.

Lemma count_marks_counts board :
  count_marks board = (count_cells (Some X) board, count_cells (Some O) board).
Proof.
  unfold count_marks, count_cells.
  assert (H : ∀ nx no,
    foldl (λ acc row,
      foldl (λ '(num_X, num_O) el,
        let num_X := if decide (el = Some X) then S num_X else num_X in
        let num_O := if decide (el = Some O) then S num_O else num_O in
        (num_X, num_O)) acc row) (nx, no) board
    = (nx + length (filter (λ el, el = Some X) (concat board)),
       no + length (filter (λ el, el = Some O) (concat board)))).
  { induction board as [|row board IH]; intros nx no; simpl.
    - f_equal; lia.
    - rewrite count_marks_row, IH, !filter_app, !length_app. f_equal; lia. }
  apply H.
Qed.

Lemma player_counts board :
  player board = if decide (count_cells (Some O) board < count_cells (Some X) board)
                 then O else X.
Proof. unfold player. by rewrite count_marks_counts. Qed.

(** ** Changing one cell *)

Lemma count_cells_insert (v old new : option mark) board r c row :
  board !! r = Some row → row !! c = Some old →
  count_cells v (<[r := <[c := new]> row]> board) + (if decide (old = v) then 1 else 0)
  = count_cells v board + (if decide (new = v) then 1 else 0).
Proof.
  intros Hrow Hold. unfold count_cells.
  pose proof (take_drop_middle board r row Hrow) as Hb.
  pose proof (take_drop_middle row c old Hold) as Hr.
  rewrite insert_take_drop by by eapply lookup_lt_Some.
  rewrite (insert_take_drop row) by by eapply lookup_lt_Some.
  set (b1 := take r board) in *. set (b2 := drop (S r) board) in *.
  set (r1 := take c row) in *. set (r2 := drop (S c) row) in *.
  clearbody b1 b2 r1 r2. subst board row.
  repeat rewrite ?concat_app, ?concat_cons, ?filter_app, ?filter_cons, ?length_app.
  repeat case_decide; simpl; rewrite ?length_app; simpl; lia.
Qed.

Lemma cell_at_insert board r c row new r' c' :
  board !! r = Some row → c < length row →
  cell_at (<[r := <[c := new]> row]> board) r' c'
  = if decide (r' = r ∧ c' = c) then Some new else cell_at board r' c'.
Proof.
  intros Hrow Hc. unfold cell_at.
  destruct (decide (r' = r)) as [->|Hr].
  - rewrite list_lookup_insert_eq by by eapply lookup_lt_Some. simpl.
    rewrite Hrow. simpl. destruct (decide (c' = c)) as [->|Hc'].
    + rewrite list_lookup_insert_eq by done. by rewrite decide_True.
    + rewrite list_lookup_insert_ne by done. rewrite decide_False by naive_solver. done.
  - rewrite list_lookup_insert_ne by done. rewrite decide_False by naive_solver. done.
Qed.

(** ** [actions] *)

Lemma elem_of_actions board (i j : Z) :
  (i, j) ∈ actions board ↔
  ∃ r c, i = Z.of_nat r ∧ j = Z.of_nat c ∧ cell_at board r c = Some EMPTY.
Proof.
  unfold actions, indexed, cell_at. rewrite elem_of_list_to_set, list_elem_of_bind. split.
  - intros ([i' row] & Hin & (r & row' & [= -> ->] & Hrow)%elem_of_lookup_imap).
    apply list_elem_of_bind in Hin
      as ([j' el] & Hin & (c & el' & [= -> ->] & Hel)%elem_of_lookup_imap).
    case_decide as He; [|by apply elem_of_nil in Hin].
    apply list_elem_of_singleton in Hin as [= -> ->]. subst el'.
    exists r, c. rewrite Hrow. done.
  - intros (r & c & -> & -> & Hcell).
    destruct (board !! r) as [row|] eqn:Hrow; [|done]. simpl in Hcell.
    exists (Z.of_nat r, row). split; [|apply elem_of_lookup_imap; eauto].
    apply list_elem_of_bind. exists (Z.of_nat c, EMPTY).
    split; [|apply elem_of_lookup_imap; eauto].
    rewrite decide_True by done. by apply list_elem_of_singleton.
Qed.

Lemma elem_of_concat {V} (x : V) (ls : list (list V)) :
  x ∈ concat ls ↔ ∃ l, l ∈ ls ∧ x ∈ l.
Proof.
  rewrite list_elem_of_In, in_concat. setoid_rewrite list_elem_of_In. done.
Qed.

Lemma actions_empty board :
  actions board = ∅ ↔ forallb (λ el, bool_decide (el ≠ EMPTY)) (concat board) = true.
Proof.
  rewrite forallb_forall. setoid_rewrite <-list_elem_of_In. split.
  - intros Hempty el Hin. apply bool_decide_eq_true. intros ->.
    apply elem_of_concat in Hin as (row & Hrow & Hel).
    apply list_elem_of_lookup in Hrow as [r Hr]. apply list_elem_of_lookup in Hel as [c Hc].
    assert ((Z.of_nat r, Z.of_nat c) ∈ actions board); [|set_solver].
    apply elem_of_actions. exists r, c. unfold cell_at. rewrite Hr. done.
  - intros Hall. apply set_eq. intros [i j]. split; [|set_solver].
    intros (r & c & -> & -> & Hcell)%elem_of_actions. exfalso.
    unfold cell_at in Hcell. destruct (board !! r) as [row|] eqn:Hr; [|done].
    simpl in Hcell. assert (Hin : EMPTY ∈ concat board).
    { apply elem_of_concat. exists row. split; by eapply list_elem_of_lookup_2. }
    apply Hall in Hin. apply bool_decide_eq_true in Hin. done.
Qed.

End TictactoeMoves.

Section TictactoeResult.
Import Tictactoe.
Implicit Types board : list (list (option mark)).

(** ** [result] *)

Lemma position_inj {V} (l : list V) i k k' :
  position l i = Ret k → position l i = Ret k' → k = k'.
Proof. congruence. Qed.

Lemma result_Ret board (action : Z * Z) new_board :
  result board action = Ret new_board ↔
  ∃ r c row,
    position board action.1 = Ret r ∧ board !! r = Some row ∧
    position row action.2 = Ret c ∧ row !! c = Some EMPTY ∧
    (action.1 ≤ 2)%Z ∧ (action.2 ≤ 2)%Z ∧
    new_board = <[r := <[c := Some (player board)]> row]> board.
Proof.
  unfold result. rewrite res_bind_Ret. split.
  - intros (el & (r & c & row & Hr & Hrow & Hc & Hel)%at2_Ret & H).
    case_decide as Hchk; [done|].
    apply res_bind_Ret in H as (row1 & (r1 & Hr1 & Hrow1)%getitem_Ret & H).
    apply res_bind_Ret in H as (row2 & (c1 & Hc1 & ->)%setitem_Ret & H).
    apply setitem_Ret in H as (r2 & Hr2 & ->).
    assert (r1 = r) as -> by congruence. assert (r2 = r) as -> by congruence.
    assert (row1 = row) as -> by congruence. assert (c1 = c) as -> by congruence.
    exists r, c, row.
    assert (el = EMPTY) as -> by (destruct (decide (el = EMPTY)); [done|tauto]).
    split_and!; try done; lia.
  - intros (r & c & row & Hr & Hrow & Hc & Hel & H1 & H2 & ->).
    exists EMPTY. split; [apply at2_Ret; by exists r, c, row|].
    rewrite decide_False by (intros [?|[?|?]]; [done|lia..]).
    apply res_bind_Ret. exists row. split; [apply getitem_Ret; eauto|].
    apply res_bind_Ret. exists (<[c := Some (player board)]> row).
    split; apply setitem_Ret; eauto.
Qed.

(** The shape of a board is that of its rows' lengths. *)
Lemma result_lengths board action new_board :
  result board action = Ret new_board →
  length <$> new_board = length <$> board.
Proof.
  intros (r & c & row & Hr & Hrow & Hc & Hel & _ & _ & ->)%result_Ret.
  rewrite list_fmap_insert, length_insert.
  apply list_eq. intros k. destruct (decide (k = r)) as [->|Hk].
  - rewrite list_lookup_insert_eq by (rewrite length_fmap; by eapply lookup_lt_Some).
    by rewrite list_lookup_fmap, Hrow.
  - by rewrite list_lookup_insert_ne by congruence.
Qed.

Lemma three_by_three_lengths board :
  three_by_three board ↔ length <$> board = [3; 3; 3].
Proof.
  unfold three_by_three. split.
  - intros [Hlen Hall]. destruct board as [|a [|b [|c [|??]]]]; try done.
    apply Forall_cons in Hall as [Ha Hall]. apply Forall_cons in Hall as [Hb Hall].
    apply Forall_cons in Hall as [Hc _]. rewrite !fmap_cons. by rewrite Ha, Hb, Hc.
  - intros H. destruct board as [|a [|b [|c [|??]]]]; try done.
    injection H as Ha Hb Hc. split; [done|]. by repeat constructor.
Qed.

Lemma result_three_by_three board action new_board :
  three_by_three board → result board action = Ret new_board →
  three_by_three new_board.
Proof.
  rewrite !three_by_three_lengths. intros H Hres.
  by rewrite (result_lengths _ _ _ Hres).
Qed.

Lemma result_cells board action new_board :
  result board action = Ret new_board →
  ∃ r c, position board action.1 = Ret r ∧
         (∃ row, board !! r = Some row ∧ position row action.2 = Ret c) ∧
         cell_at board r c = Some EMPTY ∧
         ∀ r' c', cell_at new_board r' c'
                  = if decide (r' = r ∧ c' = c) then Some (Some (player board))
                    else cell_at board r' c'.
Proof.
  intros (r & c & row & Hr & Hrow & Hc & Hel & _ & _ & ->)%result_Ret.
  exists r, c. split_and!; [done|by exists row| |].
  - unfold cell_at. by rewrite Hrow.
  - intros r' c'. apply cell_at_insert; [done|by eapply lookup_lt_Some].
Qed.

Lemma result_actions board action new_board :
  action ∈ actions board → result board action = Ret new_board →
  actions new_board = actions board ∖ {[action]}.
Proof.
  destruct action as [i j].
  intros (r0 & c0 & -> & -> & Hcell0)%elem_of_actions
         (r & c & Hr & (row & Hrow & Hc) & Hcell & Hframe)%result_cells.
  simpl in *. apply position_Ret in Hr as [[_ Hr]|[? _]]; [|lia].
  apply position_Ret in Hc as [[_ Hc]|[? _]]; [|lia].
  rewrite Nat2Z.id in Hr, Hc. subst r c.
  apply set_eq. intros [i j]. rewrite elem_of_difference, !elem_of_actions, elem_of_singleton.
  split.
  - intros (r & c & -> & -> & H). rewrite Hframe in H. case_decide as Hd; [done|].
    split; [by exists r, c|]. intros [= ?%Nat2Z.inj ?%Nat2Z.inj]. tauto.
  - intros [(r & c & -> & -> & H) Hne]. exists r, c. split_and!; [done..|].
    rewrite Hframe. rewrite decide_False; [done|]. intros [-> ->]. done.
Qed.

Lemma result_actions_size board action new_board :
  action ∈ actions board → result board action = Ret new_board →
  size (actions board) = S (size (actions new_board)).
Proof.
  intros Hin Hres. rewrite (result_actions _ _ _ Hin Hres).
  rewrite size_difference by set_solver. rewrite size_singleton.
  assert (size (actions board) ≠ 0); [|lia].
  intros Hz%size_empty_inv. set_solver.
Qed.

(** X15.  Turns alternate: on any board where the marks of [O] are as many
    as those of [X] or one fewer, as on the empty board, a move that
    [result] accepts leaves a board with that property on which the other
    player is to move; [X] is to move exactly when the two counts are
    equal. *)
Theorem result_alternates_turns board (action : Z * Z) new_board :
  count_cells (Some O) board ≤ count_cells (Some X) board ≤ S (count_cells (Some O) board) →
  result board action = Ret new_board →
  count_cells (Some O) new_board ≤ count_cells (Some X) new_board
    ≤ S (count_cells (Some O) new_board) ∧
  player new_board ≠ player board ∧
  (player board = X ↔ count_cells (Some O) board = count_cells (Some X) board).
Proof.
  intros Hbal (r & c & row & Hr & Hrow & Hc & Hel & _ & _ & ->)%result_Ret.
  pose proof (count_cells_insert (Some X) EMPTY (Some (player board)) board r c row Hrow Hel) as HX.
  pose proof (count_cells_insert (Some O) EMPTY (Some (player board)) board r c row Hrow Hel) as HO.
  rewrite (player_counts (<[_ := _]> _)).
  rewrite (player_counts board) in *.
  unfold EMPTY in *. repeat case_decide; try done; try lia; split_and!; try done; try lia;
    split; (done || lia).
Qed.

Lemma result_alternates_turns_witness :
  ∃ new_board,
    result initial_state (1, 1)%Z = Ret new_board ∧
    count_cells (Some O) new_board ≤ count_cells (Some X) new_board
      ≤ S (count_cells (Some O) new_board) ∧
    player new_board ≠ player initial_state ∧
    (player initial_state = X
     ↔ count_cells (Some O) initial_state = count_cells (Some X) initial_state).
Proof.
  exists [[EMPTY; EMPTY; EMPTY]; [EMPTY; Some X; EMPTY]; [EMPTY; EMPTY; EMPTY]].
  assert (Hres : result initial_state (1, 1)%Z
                 = Ret [[EMPTY; EMPTY; EMPTY]; [EMPTY; Some X; EMPTY]; [EMPTY; EMPTY; EMPTY]])
    by (vm_compute; reflexivity).
  assert (Hbal : count_cells (Some O) initial_state ≤ count_cells (Some X) initial_state
                 ≤ S (count_cells (Some O) initial_state))
    by (vm_compute; lia).
  split; [exact Hres|].
  exact (result_alternates_turns initial_state (1, 1)%Z _ Hbal Hres).
Defined.

End TictactoeResult.

Section TictactoeLegalMoves.
Import Tictactoe.
Implicit Types board : list (list (option mark)).

Lemma position_3 {V} (l : list V) (i : Z) :
  length l = 3 →
  position l i = if decide (-3 ≤ i < 3)%Z then Ret (Z.to_nat (i mod 3)) else Raise IndexError.
Proof.
  intros Hlen. case_decide as Hi.
  - apply position_Ret. rewrite Hlen.
    destruct (decide (0 ≤ i)%Z); [left|right]; (split; [lia|]).
    + by rewrite Z.mod_small by lia.
    + f_equal. rewrite <-(Z.mod_add i 1 3) by lia. rewrite Z.mod_small by lia. lia.
  - apply position_Raise. split; [done|]. rewrite Hlen. lia.
Qed.

Lemma three_by_three_row board r row :
  three_by_three board → board !! r = Some row → length row = 3.
Proof.
  intros [_ Hall] Hrow. rewrite Forall_forall in Hall.
  apply Hall. by eapply list_elem_of_lookup_2.
Qed.

Lemma three_by_three_cell board r c :
  three_by_three board → r < 3 → c < 3 → is_Some (cell_at board r c).
Proof.
  intros Hs Hr Hc. unfold cell_at.
  destruct (lookup_lt_is_Some_2 board r) as [row Hrow]; [destruct Hs; lia|].
  rewrite Hrow. simpl. apply lookup_lt_is_Some_2.
  rewrite (three_by_three_row _ _ _ Hs Hrow). done.
Qed.

Lemma mod_3_lt (i : Z) : Z.to_nat (i mod 3) < 3.
Proof. pose proof (Z.mod_pos_bound i 3). lia. Qed.

(** X16.  [result] on a board of three rows of three cells, for a move
    [(i, j)] of ints.  With [i] or [j] outside -3..2 it raises
    [IndexError], not [ValueError]; otherwise the move addresses the cell
    in row [i mod 3] and column [j mod 3], so a negative index counts from
    the end: if that cell is not empty it raises [ValueError], and if it is
    empty it returns a board of the same shape with the mark of
    [player board] in that cell and every other cell as it was. *)
Theorem result_outcome board (i j : Z) :
  three_by_three board →
  (¬ (-3 ≤ i < 3 ∧ -3 ≤ j < 3)%Z → result board (i, j) = Raise IndexError) ∧
  ((-3 ≤ i < 3 ∧ -3 ≤ j < 3)%Z →
   cell_at board (Z.to_nat (i mod 3)) (Z.to_nat (j mod 3)) ≠ Some EMPTY →
   result board (i, j) = Raise ValueError) ∧
  ((-3 ≤ i < 3 ∧ -3 ≤ j < 3)%Z →
   cell_at board (Z.to_nat (i mod 3)) (Z.to_nat (j mod 3)) = Some EMPTY →
   ∃ new_board,
     result board (i, j) = Ret new_board ∧ three_by_three new_board ∧
     ∀ r c, cell_at new_board r c
            = if decide (r = Z.to_nat (i mod 3) ∧ c = Z.to_nat (j mod 3))
              then Some (Some (player board)) else cell_at board r c).
Proof.
  intros Hs.
  assert (Hat : at2 board i j
    = if decide (-3 ≤ i < 3 ∧ -3 ≤ j < 3)%Z
      then match cell_at board (Z.to_nat (i mod 3)) (Z.to_nat (j mod 3)) with
           | Some el => Ret el
           | None => Raise IndexError
           end
      else Raise IndexError).
  { unfold at2, getitem. rewrite position_3 by by destruct Hs.
    destruct (decide (-3 ≤ i < 3)%Z) as [Hi|Hi]; simpl.
    - unfold cell_at.
      destruct (lookup_lt_is_Some_2 board (Z.to_nat (i mod 3))) as [row Hrow].
      { destruct Hs as [-> _]. apply mod_3_lt. }
      rewrite Hrow. simpl. rewrite position_3 by by eapply three_by_three_row.
      destruct (decide (-3 ≤ j < 3)%Z) as [Hj|Hj]; simpl.
      + by rewrite decide_True.
      + by rewrite decide_False by tauto.
    - by rewrite decide_False by tauto. }
  split_and!.
  - intros Hout. unfold result. simpl. rewrite Hat, decide_False by done. done.
  - intros Hin Hcell. unfold result. simpl. rewrite Hat, decide_True by done.
    destruct (three_by_three_cell board (Z.to_nat (i mod 3)) (Z.to_nat (j mod 3)) Hs)
      as [el Hel]; [apply mod_3_lt..|].
    rewrite Hel in *. simpl. rewrite decide_True; [done|]. left. congruence.
  - intros [Hi Hj] Hcell. unfold cell_at in Hcell.
    destruct (board !! Z.to_nat (i mod 3)) as [row|] eqn:Hrow; [|done]. simpl in Hcell.
    assert (Hres : result board (i, j)
      = Ret (<[Z.to_nat (i mod 3) := <[Z.to_nat (j mod 3) := Some (player board)]> row]> board)).
    { apply result_Ret. exists (Z.to_nat (i mod 3)), (Z.to_nat (j mod 3)), row. simpl.
      rewrite !position_3, !decide_True by
        (done || by destruct Hs || by eapply three_by_three_row).
      split_and!; try done; try lia.
      rewrite position_3 by (eapply three_by_three_row; [exact Hs|exact Hrow]).
      by rewrite decide_True. }
    eexists. split; [exact Hres|]. split; [by eapply result_three_by_three|].
    intros r c. apply cell_at_insert; [done|by eapply lookup_lt_Some].
Qed.

Lemma result_outcome_witness :
  three_by_three initial_state ∧
  (¬ (-3 ≤ -1 < 3 ∧ -3 ≤ 2 < 3)%Z → result initial_state (-1, 2)%Z = Raise IndexError) ∧
  ((-3 ≤ -1 < 3 ∧ -3 ≤ 2 < 3)%Z →
   cell_at initial_state (Z.to_nat (-1 mod 3)) (Z.to_nat (2 mod 3)) ≠ Some EMPTY →
   result initial_state (-1, 2)%Z = Raise ValueError) ∧
  ((-3 ≤ -1 < 3 ∧ -3 ≤ 2 < 3)%Z →
   cell_at initial_state (Z.to_nat (-1 mod 3)) (Z.to_nat (2 mod 3)) = Some EMPTY →
   ∃ new_board,
     result initial_state (-1, 2)%Z = Ret new_board ∧ three_by_three new_board ∧
     ∀ r c, cell_at new_board r c
            = if decide (r = Z.to_nat (-1 mod 3) ∧ c = Z.to_nat (2 mod 3))
              then Some (Some (player initial_state)) else cell_at initial_state r c).
Proof.
  assert (Hs : three_by_three initial_state)
    by (apply (bool_decide_unpack _); vm_compute; exact I).
  split; [exact Hs|]. exact (result_outcome initial_state (-1) 2 Hs).
Defined.

(** A board after a move with a negative index. *)
Example result_negative_index :
  result initial_state (-1, 2)%Z
  = Ret [[EMPTY; EMPTY; EMPTY]; [EMPTY; EMPTY; EMPTY]; [EMPTY; EMPTY; Some X]].
Proof. vm_compute. reflexivity. Qed.

Lemma actions_result board (action : Z * Z) :
  three_by_three board → action ∈ actions board →
  ∃ new_board, result board action = Ret new_board.
Proof.
  intros Hs. destruct action as [i j].
  intros (r & c & -> & -> & Hcell)%elem_of_actions.
  unfold cell_at in Hcell. destruct (board !! r) as [row|] eqn:Hrow; [|done].
  simpl in Hcell.
  assert (r < 3) by (destruct Hs as [<- _]; by eapply lookup_lt_Some).
  assert (c < 3).
  { rewrite <-(three_by_three_row _ _ _ Hs Hrow). by eapply lookup_lt_Some. }
  eexists. apply result_Ret. exists r, c, row. simpl.
  rewrite !position_nonneg by
    ((destruct Hs as [-> _]; done) || (rewrite (three_by_three_row _ _ _ Hs Hrow); done)).
  split_and!; try done; lia.
Qed.

(** X17.  On a board of three rows of three cells, the moves of
    [actions] are exactly the pairs of non-negative ints that [result]
    accepts; and making one of them removes it, and nothing else, from
    the moves available on the new board. *)
Theorem actions_are_the_legal_moves board (action : Z * Z) :
  three_by_three board →
  (action ∈ actions board ↔
   (0 ≤ action.1)%Z ∧ (0 ≤ action.2)%Z ∧ ∃ new_board, result board action = Ret new_board) ∧
  (∀ new_board, action ∈ actions board → result board action = Ret new_board →
     three_by_three new_board ∧ actions new_board = actions board ∖ {[action]}).
Proof.
  intros Hs. destruct action as [i j]. split.
  - simpl. split.
    + intros Hin. pose proof Hin as (r & c & -> & -> & _)%elem_of_actions.
      split; [lia|]. split; [lia|]. by apply actions_result.
    + intros (Hi & Hj & nb & (r & c & row & Hr & Hrow & Hc & Hel & _)%result_Ret).
      simpl in *. apply elem_of_actions.
      apply position_Ret in Hr as [[_ ->]|[? _]]; [|lia].
      apply position_Ret in Hc as [[_ ->]|[? _]]; [|lia].
      exists (Z.to_nat i), (Z.to_nat j). split_and!; [lia..|].
      unfold cell_at. by rewrite Hrow.
  - intros nb Hin Hres. split; [by eapply result_three_by_three|].
    by apply result_actions.
Qed.

Lemma actions_are_the_legal_moves_witness :
  three_by_three initial_state ∧
  ((1, 1)%Z ∈ actions initial_state ↔
   (0 ≤ 1)%Z ∧ (0 ≤ 1)%Z ∧ ∃ new_board, result initial_state (1, 1)%Z = Ret new_board) ∧
  (∀ new_board, (1, 1)%Z ∈ actions initial_state →
     result initial_state (1, 1)%Z = Ret new_board →
     three_by_three new_board ∧ actions new_board = actions initial_state ∖ {[(1, 1)%Z]}).
Proof.
  assert (Hs : three_by_three initial_state)
    by (apply (bool_decide_unpack _); vm_compute; exact I).
  split; [exact Hs|]. exact (actions_are_the_legal_moves initial_state (1, 1)%Z Hs).
Defined.

End TictactoeLegalMoves.

Section TictactoeWinner.
Import Tictactoe.
Implicit Types board : list (list (option mark)).
Implicit Types a b c d e f g h i : option mark.

(** ** [winner] *)

Lemma three_by_three_cells board :
  three_by_three board →
  ∃ a b c d e f g h i, board = [[a; b; c]; [d; e; f]; [g; h; i]].
Proof.
  intros [Hlen Hall]. destruct board as [|r0 [|r1 [|r2 [|??]]]]; try done.
  apply Forall_cons in Hall as [H0 Hall]. apply Forall_cons in Hall as [H1 Hall].
  apply Forall_cons in Hall as [H2 _].
  destruct r0 as [|a [|b [|c [|??]]]]; try done.
  destruct r1 as [|d [|e [|f [|??]]]]; try done.
  destruct r2 as [|g [|h [|i [|??]]]]; try done.
  by exists a, b, c, d, e, f, g, h, i.
Qed.

(** A line is complete when one mark fills it. *)
Lemma row_check_0 a b c d e f g h i :
  row_check [[a; b; c]; [d; e; f]; [g; h; i]] 0
  = Ret (bool_decide (Exists (λ m,
           line_of m [[a; b; c]; [d; e; f]; [g; h; i]] [(0, 0); (0, 1); (0, 2)]) [X; O])).
Proof. destruct a as [[]|], b as [[]|], c as [[]|]; vm_compute; reflexivity. Qed.

Lemma row_check_1 a b c d e f g h i :
  row_check [[a; b; c]; [d; e; f]; [g; h; i]] 1
  = Ret (bool_decide (Exists (λ m,
           line_of m [[a; b; c]; [d; e; f]; [g; h; i]] [(1, 0); (1, 1); (1, 2)]) [X; O])).
Proof. destruct d as [[]|], e as [[]|], f as [[]|]; vm_compute; reflexivity. Qed.

Lemma row_check_2 a b c d e f g h i :
  row_check [[a; b; c]; [d; e; f]; [g; h; i]] 2
  = Ret (bool_decide (Exists (λ m,
           line_of m [[a; b; c]; [d; e; f]; [g; h; i]] [(2, 0); (2, 1); (2, 2)]) [X; O])).
Proof. destruct g as [[]|], h as [[]|], i as [[]|]; vm_compute; reflexivity. Qed.

Lemma column_check_0 a b c d e f g h i :
  column_check [[a; b; c]; [d; e; f]; [g; h; i]] 0
  = Ret (bool_decide (Exists (λ m,
           line_of m [[a; b; c]; [d; e; f]; [g; h; i]] [(0, 0); (1, 0); (2, 0)]) [X; O])).
Proof. destruct a as [[]|], d as [[]|], g as [[]|]; vm_compute; reflexivity. Qed.

Lemma column_check_1 a b c d e f g h i :
  column_check [[a; b; c]; [d; e; f]; [g; h; i]] 1
  = Ret (bool_decide (Exists (λ m,
           line_of m [[a; b; c]; [d; e; f]; [g; h; i]] [(0, 1); (1, 1); (2, 1)]) [X; O])).
Proof. destruct b as [[]|], e as [[]|], h as [[]|]; vm_compute; reflexivity. Qed.

Lemma column_check_2 a b c d e f g h i :
  column_check [[a; b; c]; [d; e; f]; [g; h; i]] 2
  = Ret (bool_decide (Exists (λ m,
           line_of m [[a; b; c]; [d; e; f]; [g; h; i]] [(0, 2); (1, 2); (2, 2)]) [X; O])).
Proof. destruct c as [[]|], f as [[]|], i as [[]|]; vm_compute; reflexivity. Qed.

Lemma diagonal_check_3 a b c d e f g h i :
  diagonal_check [[a; b; c]; [d; e; f]; [g; h; i]]
  = Ret (bool_decide (Exists (λ m,
           line_of m [[a; b; c]; [d; e; f]; [g; h; i]] [(0, 0); (1, 1); (2, 2)] ∨
           line_of m [[a; b; c]; [d; e; f]; [g; h; i]] [(0, 2); (1, 1); (2, 0)]) [X; O])).
Proof.
  destruct a as [[]|], e as [[]|], i as [[]|], c as [[]|], g as [[]|];
    vm_compute; reflexivity.
Qed.


Lemma Exists_marks (P : mark → Prop) : Exists P [X; O] ↔ ∃ m, P m.
Proof.
  rewrite !Exists_cons, Exists_nil. split.
  - intros [?|[?|[]]]; eauto.
  - intros [[] ?]; auto.
Qed.

Lemma line_of_first m board (row col : nat) line :
  line_of m board ((row, col) :: line) → cell_at board row col = Some (Some m).
Proof. intros H. by apply Forall_cons in H as [H _]. Qed.

Lemma line_of_second m board rc (row col : nat) line :
  line_of m board (rc :: (row, col) :: line) → cell_at board row col = Some (Some m).
Proof. intros H. apply Forall_cons in H as [_ H]. by apply Forall_cons in H as [H _]. Qed.

(** [winner] on a board of three rows of three cells: either it returns
    a mark that fills a line, or it returns [None] and no line is filled. *)
Lemma winner_cases board :
  three_by_three board →
  (∃ m line, line ∈ lines ∧ line_of m board line ∧ winner board = Ret (Some m)) ∨
  (winner board = Ret None ∧ ∀ m line, line ∈ lines → ¬ line_of m board line).
Proof.
  intros (a & b & c & d & e & f & g & h & i & ->)%three_by_three_cells.
  unfold winner.
  change (Z.of_nat <$> seq 0 (length [[a; b; c]; [d; e; f]; [g; h; i]])) with [0; 1; 2]%Z.
  cbn [winner_loop].
  rewrite row_check_0, column_check_0, row_check_1, column_check_1,
    row_check_2, column_check_2, diagonal_check_3.
  change (at2 [[a; b; c]; [d; e; f]; [g; h; i]] 0 0) with (Ret a).
  change (at2 [[a; b; c]; [d; e; f]; [g; h; i]] 1 0) with (Ret d).
  change (at2 [[a; b; c]; [d; e; f]; [g; h; i]] 2 0) with (Ret g).
  change (at2 [[a; b; c]; [d; e; f]; [g; h; i]] 0 1) with (Ret b).
  change (at2 [[a; b; c]; [d; e; f]; [g; h; i]] 0 2) with (Ret c).
  change (at2 [[a; b; c]; [d; e; f]; [g; h; i]] 1 1) with (Ret e).
  cbn [mbind res_bind].
  destruct (bool_decide_reflect (Exists (λ m,
    line_of m [[a; b; c]; [d; e; f]; [g; h; i]] [(0, 0); (0, 1); (0, 2)]) [X; O]))
    as [[m Hm]%Exists_marks|Hr0].
  { left. exists m, [(0, 0); (0, 1); (0, 2)]. split; [set_solver|]. split; [done|].
    apply line_of_first in Hm. by injection Hm as ->. }
  destruct (bool_decide_reflect (Exists (λ m,
    line_of m [[a; b; c]; [d; e; f]; [g; h; i]] [(0, 0); (1, 0); (2, 0)]) [X; O]))
    as [[m Hm]%Exists_marks|Hc0].
  { left. exists m, [(0, 0); (1, 0); (2, 0)]. split; [set_solver|]. split; [done|].
    apply line_of_first in Hm. by injection Hm as ->. }
  destruct (bool_decide_reflect (Exists (λ m,
    line_of m [[a; b; c]; [d; e; f]; [g; h; i]] [(1, 0); (1, 1); (1, 2)]) [X; O]))
    as [[m Hm]%Exists_marks|Hr1].
  { left. exists m, [(1, 0); (1, 1); (1, 2)]. split; [set_solver|]. split; [done|].
    apply line_of_first in Hm. by injection Hm as ->. }
  destruct (bool_decide_reflect (Exists (λ m,
    line_of m [[a; b; c]; [d; e; f]; [g; h; i]] [(0, 1); (1, 1); (2, 1)]) [X; O]))
    as [[m Hm]%Exists_marks|Hc1].
  { left. exists m, [(0, 1); (1, 1); (2, 1)]. split; [set_solver|]. split; [done|].
    apply line_of_first in Hm. by injection Hm as ->. }
  destruct (bool_decide_reflect (Exists (λ m,
    line_of m [[a; b; c]; [d; e; f]; [g; h; i]] [(2, 0); (2, 1); (2, 2)]) [X; O]))
    as [[m Hm]%Exists_marks|Hr2].
  { left. exists m, [(2, 0); (2, 1); (2, 2)]. split; [set_solver|]. split; [done|].
    apply line_of_first in Hm. by injection Hm as ->. }
  destruct (bool_decide_reflect (Exists (λ m,
    line_of m [[a; b; c]; [d; e; f]; [g; h; i]] [(0, 2); (1, 2); (2, 2)]) [X; O]))
    as [[m Hm]%Exists_marks|Hc2].
  { left. exists m, [(0, 2); (1, 2); (2, 2)]. split; [set_solver|]. split; [done|].
    apply line_of_first in Hm. by injection Hm as ->. }
  destruct (bool_decide_reflect (Exists (λ m,
    line_of m [[a; b; c]; [d; e; f]; [g; h; i]] [(0, 0); (1, 1); (2, 2)] ∨
    line_of m [[a; b; c]; [d; e; f]; [g; h; i]] [(0, 2); (1, 1); (2, 0)]) [X; O]))
    as [[m Hm]%Exists_marks|Hd].
  { left. destruct Hm as [Hm|Hm].
    - exists m, [(0, 0); (1, 1); (2, 2)]. split; [set_solver|]. split; [done|].
      apply line_of_second in Hm. by injection Hm as ->.
    - exists m, [(0, 2); (1, 1); (2, 0)]. split; [set_solver|]. split; [done|].
      apply line_of_second in Hm. by injection Hm as ->. }
  right. split; [done|]. intros m line Hin Hline.
  rewrite Exists_marks in Hr0, Hc0, Hr1, Hc1, Hr2, Hc2, Hd.
  unfold lines in Hin.
  repeat (apply elem_of_cons in Hin as [->|Hin]); [..|by apply elem_of_nil in Hin];
    eauto.
Qed.


(** X18.  On a board of three rows of three cells [winner] does not
    raise; the mark it returns fills one of the eight lines, it returns
    [None] exactly when no line is filled by one mark, and when only one
    of the two marks fills a line it returns that mark. *)
Theorem winner_fills_a_line board :
  three_by_three board →
  ∃ w, winner board = Ret w ∧
    (∀ m, w = Some m → ∃ line, line ∈ lines ∧ line_of m board line) ∧
    (w = None ↔ ∀ m line, line ∈ lines → ¬ line_of m board line) ∧
    (∀ m, (∃ line, line ∈ lines ∧ line_of m board line) →
          (∀ m' line, m' ≠ m → line ∈ lines → ¬ line_of m' board line) →
          w = Some m).
Proof.
  intros [(m & line & Hin & Hline & Hw)|[Hw Hnone]]%winner_cases.
  - exists (Some m). split; [done|]. split_and!.
    + intros m' [= <-]. eauto.
    + split; [done|]. intros Hno. by destruct (Hno m line).
    + intros m' _ Hothers. destruct (decide (m = m')) as [->|Hne]; [done|].
      by destruct (Hothers m line).
  - exists None. split; [done|]. split_and!.
    + done.
    + done.
    + intros m (line & Hin & Hline) _. by destruct (Hnone m line).
Qed.

Lemma winner_fills_a_line_witness :
  three_by_three x_has_won ∧
  ∃ w, winner x_has_won = Ret w ∧
    (∀ m, w = Some m → ∃ line, line ∈ lines ∧ line_of m x_has_won line) ∧
    (w = None ↔ ∀ m line, line ∈ lines → ¬ line_of m x_has_won line) ∧
    (∀ m, (∃ line, line ∈ lines ∧ line_of m x_has_won line) →
          (∀ m' line, m' ≠ m → line ∈ lines → ¬ line_of m' x_has_won line) →
          w = Some m).
Proof.
  assert (Hs : three_by_three x_has_won)
    by (apply (bool_decide_unpack _); vm_compute; exact I).
  split; [exact Hs|]. exact (winner_fills_a_line x_has_won Hs).
Defined.

(** The winner of that board. *)
Example winner_x_has_won : winner x_has_won = Ret (Some X).
Proof. vm_compute. reflexivity. Qed.

(** ** [terminal] and [utility] *)

Lemma terminal_cases board :
  three_by_three board →
  ∃ t, terminal board = Ret t ∧
    (t = true ↔ actions board = ∅ ∨ ∃ m line, line ∈ lines ∧ line_of m board line).
Proof.
  intros Hs. unfold terminal.
  destruct (forallb _ (concat board)) eqn:Hfull.
  - exists true. split; [done|]. split; [|done]. intros _. left. by apply actions_empty.
  - assert (Hne : actions board ≠ ∅).
    { intros H%actions_empty. congruence. }
    destruct (winner_cases board Hs) as [(m & line & Hin & Hline & ->)|[-> Hnone]]; simpl.
    + exists true. split; [done|]. split; [|done].
      intros _. right. eauto.
    + exists false. split; [done|].
      split; [done|]. intros [?|(m & line & Hin & Hline)]; [done|].
      by destruct (Hnone m line).
Qed.

Lemma utility_cases board :
  three_by_three board →
  ∃ u, utility board = Ret u ∧ (-1 ≤ u ≤ 1)%Z ∧
    (u = 1%Z ↔ winner board = Ret (Some X)) ∧
    (u = (-1)%Z ↔ winner board = Ret (Some O)) ∧
    (u = 0%Z ↔ winner board = Ret None).
Proof.
  intros Hs. unfold utility.
  destruct (winner_cases board Hs) as [(m & line & Hin & Hline & ->)|[-> Hnone]]; simpl.
  - destruct m.
    + exists 1%Z. split_and!; (done || lia || (split; done)).
    + exists (-1)%Z. split_and!; (done || lia || (split; done)).
  - exists 0%Z. split_and!; (done || lia || (split; done)).
Qed.

(** X19.  On a board of three rows of three cells [terminal] and
    [utility] do not raise; [terminal] is [True] exactly when no move is
    left or some line is filled by one mark, and [utility] is 1, -1 or 0
    according to whether [winner] returns [X], [O] or [None]. *)
Theorem terminal_and_utility board :
  three_by_three board →
  ∃ t u, terminal board = Ret t ∧ utility board = Ret u ∧
    (t = true ↔ actions board = ∅ ∨ ∃ m line, line ∈ lines ∧ line_of m board line) ∧
    (u = 1%Z ↔ winner board = Ret (Some X)) ∧
    (u = (-1)%Z ↔ winner board = Ret (Some O)) ∧
    (u = 0%Z ↔ winner board = Ret None).
Proof.
  intros Hs.
  destruct (terminal_cases board Hs) as (t & Ht & Hiff).
  destruct (utility_cases board Hs) as (u & Hu & _ & H1 & H2 & H3).
  exists t, u. by split_and!.
Qed.

Lemma terminal_and_utility_witness :
  three_by_three initial_state ∧
  ∃ t u, terminal initial_state = Ret t ∧ utility initial_state = Ret u ∧
    (t = true ↔ actions initial_state = ∅
                ∨ ∃ m line, line ∈ lines ∧ line_of m initial_state line) ∧
    (u = 1%Z ↔ winner initial_state = Ret (Some X)) ∧
    (u = (-1)%Z ↔ winner initial_state = Ret (Some O)) ∧
    (u = 0%Z ↔ winner initial_state = Ret None).
Proof.
  assert (Hs : three_by_three initial_state)
    by (apply (bool_decide_unpack _); vm_compute; exact I).
  split; [exact Hs|]. exact (terminal_and_utility initial_state Hs).
Defined.

End TictactoeWinner.

Section TictactoeLoops.
Import Tictactoe.

(** ** Loops that may raise *)

Lemma for_each_nil {S V} (body : S → V → res S) s : for_each body s [] = Ret s.
Proof. done. Qed.

Lemma foldl_Raise {S V} (body : S → V → res S) e xs :
  foldl (λ acc x, acc ≫= λ s, body s x) (Raise e) xs = Raise e.
Proof. induction xs; simpl; auto. Qed.

Lemma for_each_cons {S V} (body : S → V → res S) s x xs :
  for_each body s (x :: xs) = body s x ≫= λ s', for_each body s' xs.
Proof.
  unfold for_each. simpl. destruct (body s x); simpl; [done|apply foldl_Raise].
Qed.

Lemma for_each_snoc {S V} (body : S → V → res S) s xs x :
  for_each body s (xs ++ [x]) = for_each body s xs ≫= λ s', body s' x.
Proof. unfold for_each. by rewrite foldl_app. Qed.

Lemma for_each_ext {S V} (f g : S → V → res S) s xs :
  (∀ s x, x ∈ xs → f s x = g s x) → for_each f s xs = for_each g s xs.
Proof.
  revert s. induction xs as [|x xs IH]; intros s Hfg; [done|].
  rewrite !for_each_cons, Hfg by left.
  destruct (g s x); simpl; [|done]. apply IH. intros. apply Hfg. by right.
Qed.

(** A loop that appends one value per element. *)
Lemma for_each_collect {V W} (h : V → res W) (Q : V → W → Prop) xs acc :
  (∀ x, x ∈ xs → ∃ y, h x = Ret y ∧ Q x y) →
  ∃ ys, for_each (λ acc x, y ← h x; Ret (acc ++ [y])) acc xs = Ret (acc ++ ys) ∧
        Forall2 Q xs ys.
Proof.
  revert acc. induction xs as [|x xs IH]; intros acc Hh.
  - exists []. by rewrite app_nil_r.
  - destruct (Hh x) as (y & Hy & HQ); [left|].
    destruct (IH (acc ++ [y])) as (ys & Hys & HQs).
    { intros. apply Hh. by right. }
    exists (y :: ys). rewrite for_each_cons, Hy. simpl.
    rewrite Hys, <-(assoc_L (++)). split; [done|by constructor].
Qed.

(** ** [max] and [min] *)

Lemma foldl_max_spec (s : Z) (l : list Z) :
  foldl Z.max s l ∈ s :: l ∧ ∀ y, y ∈ s :: l → (y ≤ foldl Z.max s l)%Z.
Proof.
  revert s. induction l as [|x l IH]; intros s; simpl.
  - split; [left|]. intros y ->%list_elem_of_singleton. lia.
  - destruct (IH (Z.max s x)) as [Hin Hle]. split.
    + apply elem_of_cons in Hin as [Hin|Hin]; [|by do 2 right].
      rewrite Hin. destruct (Z.max_spec s x) as [[_ ->]|[_ ->]]; [right; left|left].
    + intros y [->|[->|Hy]%elem_of_cons]%elem_of_cons.
      * etrans; [apply (Z.le_max_l _ x)|]. apply Hle. left.
      * etrans; [apply (Z.le_max_r s)|]. apply Hle. left.
      * apply Hle. by right.
Qed.

Lemma foldl_min_spec (s : Z) (l : list Z) :
  foldl Z.min s l ∈ s :: l ∧ ∀ y, y ∈ s :: l → (foldl Z.min s l ≤ y)%Z.
Proof.
  revert s. induction l as [|x l IH]; intros s; simpl.
  - split; [left|]. intros y ->%list_elem_of_singleton. lia.
  - destruct (IH (Z.min s x)) as [Hin Hle]. split.
    + apply elem_of_cons in Hin as [Hin|Hin]; [|by do 2 right].
      rewrite Hin. destruct (Z.min_spec s x) as [[_ ->]|[_ ->]]; [left|right; left].
    + intros y [->|[->|Hy]%elem_of_cons]%elem_of_cons.
      * etrans; [|apply (Z.le_min_l _ x)]. apply Hle. left.
      * etrans; [|apply (Z.le_min_r s)]. apply Hle. left.
      * apply Hle. by right.
Qed.

(** The best score of a non-empty list, for either player. *)
Lemma best_of_scores (p : mark) (scores : list Z) :
  scores ≠ [] →
  ∃ v, match p with X => py_max scores | O => py_min scores end = Ret v ∧
       v ∈ scores ∧ ∀ y, y ∈ scores → ¬ better p v y.
Proof.
  destruct scores as [|s l]; [done|]. intros _. destruct p; simpl.
  - destruct (foldl_max_spec s l) as [Hin Hle]. eexists. split; [done|].
    split; [done|]. intros y Hy%Hle. lia.
  - destruct (foldl_min_spec s l) as [Hin Hle]. eexists. split; [done|].
    split; [done|]. intros y Hy%Hle. lia.
Qed.

End TictactoeLoops.

Section TictactoeSearch.
Import Tictactoe.
Implicit Types board : list (list (option mark)).

Variable set_order : gset (Z * Z) → list (Z * Z).
Hypothesis elem_of_set_order : ∀ s x, x ∈ set_order s ↔ x ∈ s.

(** ** [find_score] *)

Lemma set_order_empty : set_order ∅ = [].
Proof.
  destruct (set_order ∅) as [|x l] eqn:H; [done|].
  assert (x ∈ (∅ : gset (Z * Z))); [|set_solver].
  apply elem_of_set_order. rewrite H. left.
Qed.

(** [find_score] satisfies the recursion of the source: the bound on the
    depth is never met. *)
Lemma find_score_unfold board :
  find_score set_order board
  = terminal board ≫= λ t : bool,
    if t then utility board else
    scores ← for_each (λ scores move,
                new_board ← result board move;
                s ← find_score set_order new_board;
                Ret (scores ++ [s]))
              [] (set_order (actions board));
    match player board with
    | X => py_max scores
    | O => py_min scores
    end.
Proof.
  unfold find_score at 1.
  destruct (size (actions board)) as [|n] eqn:Hsize.
  - apply size_empty_inv, leibniz_equiv in Hsize. cbn [find_score_upto].
    rewrite Hsize, set_order_empty. done.
  - cbn [find_score_upto]. destruct (terminal board) as [[]|]; simpl; try done.
    rewrite (for_each_ext _ (λ scores move,
                new_board ← result board move;
                s ← find_score set_order new_board;
                Ret (scores ++ [s]))); [done|].
    intros scores move Hin%elem_of_set_order.
    destruct (result board move) as [nb|] eqn:Hres; simpl; [|done].
    pose proof (result_actions_size board move nb Hin Hres) as Hsz.
    unfold find_score. by replace (size (actions nb)) with n by lia.
Qed.

(** What the score of a board is: its utility when the game is over,
    and otherwise a score of one of the boards a move leads to that no
    such board betters for the player to move. *)
Lemma find_score_spec (n : nat) : ∀ board,
  size (actions board) = n → three_by_three board →
  ∃ v, find_score set_order board = Ret v ∧ (-1 ≤ v ≤ 1)%Z ∧
    (terminal board = Ret true → utility board = Ret v) ∧
    (terminal board = Ret false →
       (∃ move new_board, move ∈ actions board ∧ result board move = Ret new_board ∧
                          find_score set_order new_board = Ret v) ∧
       (∀ move new_board v', move ∈ actions board → result board move = Ret new_board →
          find_score set_order new_board = Ret v' → ¬ better (player board) v v')).
Proof.
  induction n as [n IH] using lt_wf_ind. intros board Hsize Hs.
  rewrite find_score_unfold.
  destruct (terminal_cases board Hs) as (t & Ht & Hiff).
  destruct (utility_cases board Hs) as (u & Hu & Hrange & _).
  rewrite Ht. simpl. destruct t.
  { exists u. split; [done|]. split; [done|]. split; [done|]. intros [=]. }
  assert (Hne : actions board ≠ ∅).
  { intros Hempty. destruct Hiff as [_ Hiff]. by specialize (Hiff (or_introl Hempty)). }
  destruct (for_each_collect
    (λ move, new_board ← result board move; find_score set_order new_board)
    (λ move s, ∃ new_board, result board move = Ret new_board ∧
                 find_score set_order new_board = Ret s ∧ (-1 ≤ s ≤ 1)%Z)
    (set_order (actions board)) []) as (scores & Hscores & HQ).
  { intros move Hin%elem_of_set_order.
    destruct (actions_result board move Hs Hin) as [nb Hres].
    pose proof (result_actions_size board move nb Hin Hres) as Hsz.
    destruct (IH (size (actions nb)) ltac:(lia) nb eq_refl
                (result_three_by_three _ _ _ Hs Hres)) as (s & Hfs & Hr & _).
    exists s. rewrite Hres. simpl. split; [done|]. by exists nb. }
  assert (Hloop : for_each (λ scores move,
                new_board ← result board move;
                s ← find_score set_order new_board;
                Ret (scores ++ [s])) [] (set_order (actions board)) = Ret scores).
  { change ([] ++ scores) with scores in Hscores.
    rewrite <-Hscores. apply for_each_ext. intros acc move _.
    by destruct (result board move). }
  rewrite Hloop. simpl.
  assert (Hnonempty : scores ≠ []).
  { intros ->. apply Forall2_nil_inv_r in HQ.
    apply Hne. apply set_eq. intros x. rewrite <-elem_of_set_order, HQ. set_solver. }
  destruct (best_of_scores (player board) scores Hnonempty) as (v & Hv & Hin & Hbest).
  exists v. split; [done|].
  apply list_elem_of_lookup in Hin as [k Hk].
  destruct (Forall2_lookup_r _ _ _ _ _ HQ Hk) as (move & Hmove & nb & Hres & Hfs & Hr).
  split; [done|]. split; [done|]. intros _. split.
  - exists move, nb. split; [|done].
    apply elem_of_set_order. by eapply list_elem_of_lookup_2.
  - intros move' nb' v' Hin' Hres' Hfs'.
    apply elem_of_set_order, list_elem_of_lookup in Hin' as [k' Hk'].
    destruct (Forall2_lookup_l _ _ _ _ _ HQ Hk') as (s' & Hs' & nb'' & Hres'' & Hfs'' & _).
    assert (s' = v') as -> by congruence.
    apply Hbest. by eapply list_elem_of_lookup_2.
Qed.


(** X20.  On a board of three rows of three cells [find_score] does not
    raise and returns -1, 0 or 1.  When the game is over this is the
    utility of the board; otherwise it is the score of the board some
    available move leads to, and no available move leads to a board with
    a score that is better for the player to move (larger for [X],
    smaller for [O]). *)
Theorem find_score_is_minimax_value board :
  three_by_three board →
  ∃ v, find_score set_order board = Ret v ∧ (-1 ≤ v ≤ 1)%Z ∧
    (terminal board = Ret true → utility board = Ret v) ∧
    (terminal board = Ret false →
       (∃ move new_board, move ∈ actions board ∧ result board move = Ret new_board ∧
                          find_score set_order new_board = Ret v) ∧
       (∀ move new_board v', move ∈ actions board → result board move = Ret new_board →
          find_score set_order new_board = Ret v' → ¬ better (player board) v v')).
Proof. intros Hs. by apply (find_score_spec (size (actions board))). Qed.

(** ** [minimax] *)

Lemma better_irrefl p v : ¬ better p v v.
Proof. destruct p; simpl; lia. Qed.

Lemma better_trans_not p v s v' : better p v s → ¬ better p v v' → ¬ better p s v'.
Proof. destruct p; simpl; lia. Qed.

Lemma better_ne p v s v' : better p v s → ¬ better p v v' → v' ≠ s.
Proof. destruct p; simpl; lia. Qed.

Lemma better_antisym p v v' : ¬ better p v v' → ¬ better p v' v → v = v'.
Proof. destruct p; simpl; lia. Qed.

(** The loop of [minimax]: it ends with the first move, in the order of
    the loop, among those whose score no other move betters. *)
Lemma minimax_loop board (moves : list (Z * Z)) :
  (∀ move, move ∈ moves →
     ∃ new_board s, result board move = Ret new_board ∧
                    find_score set_order new_board = Ret s) →
  ∃ best,
    for_each (λ '(best_score, best_move) move,
        new_board ← result board move;
        s ← find_score set_order new_board;
        if decide ((score_lt best_score (Fin s) = true ∧ player board = X) ∨
                   (score_lt (Fin s) best_score = true ∧ player board = O))
        then Ret (Fin s, Some move)
        else Ret (best_score, best_move))
      (if decide (player board = O) then (PosInf, None) else (NegInf, None)) moves
    = Ret best ∧
    ((moves = [] ∧ best.2 = None) ∨
     ∃ k move new_board v,
       best = (Fin v, Some move) ∧ moves !! k = Some move ∧
       result board move = Ret new_board ∧ find_score set_order new_board = Ret v ∧
       (∀ move' new_board' v', move' ∈ moves → result board move' = Ret new_board' →
          find_score set_order new_board' = Ret v' → ¬ better (player board) v v') ∧
       (∀ k' move' new_board' v', k' < k → moves !! k' = Some move' →
          result board move' = Ret new_board' →
          find_score set_order new_board' = Ret v' → v' ≠ v)).
Proof.
  induction moves as [|x xs IH] using rev_ind; intros Hmoves.
  - eexists. split; [done|]. left. split; [done|]. by case_decide.
  - destruct IH as (best & Hloop & Hbest).
    { intros move Hin. apply Hmoves, elem_of_app. by left. }
    destruct (Hmoves x) as (nb & s & Hres & Hfs).
    { apply elem_of_app. right. left. }
    destruct Hbest as [[-> Hnone]|(k & m & nbm & v & -> & Hk & Hresm & Hfsm & Hopt & Hfirst)].
    + exists (Fin s, Some x). split.
      { rewrite for_each_snoc, for_each_nil. simpl.
        destruct (player board) eqn:Hp; simpl; rewrite Hres; simpl; rewrite Hfs; done. }
      right. exists 0, x, nb, s. split_and!; try done.
      * intros move' nb' v' ->%list_elem_of_singleton Hres' Hfs'.
        assert (v' = s) as -> by congruence. apply better_irrefl.
      * intros k' ????. lia.
    + rewrite for_each_snoc, Hloop. simpl. rewrite Hres. simpl. rewrite Hfs. simpl.
      assert (Hcond : (score_lt (Fin v) (Fin s) = true ∧ player board = X) ∨
                      (score_lt (Fin s) (Fin v) = true ∧ player board = O)
                      ↔ better (player board) v s).
      { simpl. rewrite !bool_decide_eq_true. destruct (player board); simpl; naive_solver. }
      destruct (decide (better (player board) v s)) as [Hb|Hb].
      * rewrite decide_True by by apply Hcond.
        exists (Fin s, Some x). split; [done|]. right.
        exists (length xs), x, nb, s. split_and!; try done.
        -- by rewrite lookup_app_r, Nat.sub_diag by lia.
        -- intros move' nb' v' [Hin| ->%list_elem_of_singleton]%elem_of_app Hres' Hfs'.
           ++ eapply better_trans_not; [done|]. by eapply Hopt.
           ++ assert (v' = s) as -> by congruence. apply better_irrefl.
        -- intros k' move' nb' v' Hlt Hk' Hres' Hfs'.
           rewrite lookup_app_l in Hk' by done.
           eapply better_ne; [done|]. eapply Hopt; [|done..].
           by eapply list_elem_of_lookup_2.
      * rewrite decide_False by by rewrite Hcond.
        exists (Fin v, Some m). split; [done|]. right.
        exists k, m, nbm, v. split_and!; try done.
        -- rewrite lookup_app_l; [done|]. by eapply lookup_lt_Some.
        -- intros move' nb' v' [Hin| ->%list_elem_of_singleton]%elem_of_app Hres' Hfs'.
           ++ by eapply Hopt.
           ++ assert (v' = s) as -> by congruence. done.
        -- intros k' move' nb' v' Hlt Hk' Hres' Hfs'.
           apply lookup_lt_Some in Hk as Hklt.
           rewrite lookup_app_l in Hk' by lia. by eapply Hfirst.
Qed.

(** X21.  On a board of three rows of three cells [minimax] does not
    raise.  It returns [None] when the game is over.  Otherwise it returns
    an available move that leads to a board whose score is the score of
    the board itself, that is a best move for the player to move, and
    among these the one the loop over the set of moves meets first. *)
Theorem minimax_returns_best_move board :
  three_by_three board →
  (terminal board = Ret true ∧ minimax set_order board = Ret None) ∨
  (terminal board = Ret false ∧
   ∃ k move new_board,
     minimax set_order board = Ret (Some move) ∧
     set_order (actions board) !! k = Some move ∧ move ∈ actions board ∧
     result board move = Ret new_board ∧
     find_score set_order new_board = find_score set_order board ∧
     ∀ k' move' new_board', k' < k → set_order (actions board) !! k' = Some move' →
       result board move' = Ret new_board' →
       find_score set_order new_board' ≠ find_score set_order board).
Proof.
  intros Hs. unfold minimax.
  destruct (terminal_cases board Hs) as (t & Ht & Hiff).
  rewrite Ht. cbn [mbind res_bind]. destruct t; [by left|]. right. split; [done|].
  assert (Hne : actions board ≠ ∅).
  { intros Hempty. destruct Hiff as [_ Hiff]. by specialize (Hiff (or_introl Hempty)). }
  destruct (minimax_loop board (set_order (actions board))) as (best & Hloop & Hbest).
  { intros move Hin%elem_of_set_order.
    destruct (actions_result board move Hs Hin) as [nb Hres].
    destruct (find_score_spec (size (actions nb)) nb eq_refl
                (result_three_by_three _ _ _ Hs Hres)) as (s & Hfs & _).
    by exists nb, s. }
  destruct Hbest as [[Hnil _]|(k & m & nbm & v & -> & Hk & Hresm & Hfsm & Hopt & Hfirst)].
  { exfalso. apply Hne, set_eq. intros x. rewrite <-elem_of_set_order, Hnil. set_solver. }
  destruct (find_score_spec (size (actions board)) board eq_refl Hs)
    as (v0 & Hfs0 & _ & _ & Hnt).
  destruct (Hnt Ht) as [(m0 & nb0 & Hin0 & Hres0 & Hfsnb0) Hopt0].
  assert (Hm : m ∈ actions board).
  { apply elem_of_set_order. by eapply list_elem_of_lookup_2. }
  assert (v = v0) as ->.
  { apply (better_antisym (player board)).
    - eapply Hopt; [|done..]. by apply elem_of_set_order.
    - by eapply Hopt0. }
  exists k, m, nbm. split_and!; try done.
  - revert Hloop. destruct (decide (player board = O)); intros Hloop;
      cbn beta iota zeta; rewrite Hloop; done.
  - congruence.
  - intros k' move' nb' Hlt Hk' Hres' Heq.
    rewrite Hfs0 in Heq. by eapply Hfirst.
Qed.

End TictactoeSearch.

Section TictactoeOrders.
Import Tictactoe.
Implicit Types board : list (list (option mark)).

Lemma find_score_is_minimax_value_witness :
  three_by_three x_to_win ∧
  ∃ v, find_score elements x_to_win = Ret v ∧ (-1 ≤ v ≤ 1)%Z ∧
    (terminal x_to_win = Ret true → utility x_to_win = Ret v) ∧
    (terminal x_to_win = Ret false →
       (∃ move new_board, move ∈ actions x_to_win ∧ result x_to_win move = Ret new_board ∧
                          find_score elements new_board = Ret v) ∧
       (∀ move new_board v', move ∈ actions x_to_win → result x_to_win move = Ret new_board →
          find_score elements new_board = Ret v' → ¬ better (player x_to_win) v v')).
Proof.
  assert (Hs : three_by_three x_to_win)
    by (apply (bool_decide_unpack _); vm_compute; exact I).
  split; [exact Hs|].
  exact (find_score_is_minimax_value elements (λ s x, elem_of_elements s x) x_to_win Hs).
Defined.

Lemma minimax_returns_best_move_witness :
  three_by_three x_to_win ∧
  ((terminal x_to_win = Ret true ∧ minimax elements x_to_win = Ret None) ∨
   (terminal x_to_win = Ret false ∧
    ∃ k move new_board,
      minimax elements x_to_win = Ret (Some move) ∧
      elements (actions x_to_win) !! k = Some move ∧ move ∈ actions x_to_win ∧
      result x_to_win move = Ret new_board ∧
      find_score elements new_board = find_score elements x_to_win ∧
      ∀ k' move' new_board', k' < k → elements (actions x_to_win) !! k' = Some move' →
        result x_to_win move' = Ret new_board' →
        find_score elements new_board' ≠ find_score elements x_to_win)).
Proof.
  assert (Hs : three_by_three x_to_win)
    by (apply (bool_decide_unpack _); vm_compute; exact I).
  split; [exact Hs|].
  exact (minimax_returns_best_move elements (λ s x, elem_of_elements s x) x_to_win Hs).
Defined.

(** With [X] to move and a win at hand, the score is 1 and the move is
    the winning one. *)
Example minimax_takes_the_win :
  find_score elements x_to_win = Ret 1%Z ∧
  minimax elements x_to_win = Ret (Some (2, 0)%Z).
Proof. split; vm_compute; reflexivity. Qed.

Lemma find_score_orders (n : nat) set_order1 set_order2 :
  (∀ s x, x ∈ set_order1 s ↔ x ∈ s) → (∀ s x, x ∈ set_order2 s ↔ x ∈ s) →
  ∀ board, size (actions board) = n → three_by_three board →
  find_score set_order1 board = find_score set_order2 board.
Proof.
  intros H1 H2. induction n as [n IH] using lt_wf_ind. intros board Hsize Hs.
  destruct (find_score_spec set_order1 H1 n board Hsize Hs) as (v1 & Hfs1 & _ & Ht1 & Hnt1).
  destruct (find_score_spec set_order2 H2 n board Hsize Hs) as (v2 & Hfs2 & _ & Ht2 & Hnt2).
  rewrite Hfs1, Hfs2. f_equal.
  destruct (terminal_cases board Hs) as ([] & Ht & _).
  - specialize (Ht1 Ht). specialize (Ht2 Ht). congruence.
  - destruct (Hnt1 Ht) as [(m1 & nb1 & Hin1 & Hres1 & Hnb1) Hopt1].
    destruct (Hnt2 Ht) as [(m2 & nb2 & Hin2 & Hres2 & Hnb2) Hopt2].
    assert (Hagree : ∀ move nb, move ∈ actions board → result board move = Ret nb →
                       find_score set_order1 nb = find_score set_order2 nb).
    { intros move nb Hin Hres.
      pose proof (result_actions_size board move nb Hin Hres).
      apply (IH (size (actions nb))); [lia|done|by eapply result_three_by_three]. }
    apply (better_antisym (player board)).
    + eapply Hopt1; [exact Hin2|exact Hres2|]. by rewrite (Hagree m2 nb2).
    + eapply Hopt2; [exact Hin1|exact Hres1|]. by rewrite <-(Hagree m1 nb1).
Qed.

(** X22.  On a board of three rows of three cells the score that
    [find_score] returns does not depend on the order in which Python
    lists the moves of a set. *)
Theorem find_score_set_order set_order1 set_order2 board :
  (∀ s x, x ∈ set_order1 s ↔ x ∈ s) → (∀ s x, x ∈ set_order2 s ↔ x ∈ s) →
  three_by_three board →
  find_score set_order1 board = find_score set_order2 board.
Proof. intros H1 H2 Hs. by apply (find_score_orders (size (actions board))). Qed.

Lemma elem_of_reverse_moves (s : gset (Z * Z)) x : x ∈ reverse (elements s) ↔ x ∈ s.
Proof. rewrite elem_of_reverse. apply elem_of_elements. Qed.

Lemma find_score_set_order_witness :
  three_by_three initial_state ∧
  find_score elements initial_state
  = find_score (λ s, reverse (elements s)) initial_state.
Proof.
  assert (Hs : three_by_three initial_state)
    by (apply (bool_decide_unpack _); vm_compute; exact I).
  split; [exact Hs|].
  exact (find_score_set_order elements (λ s, reverse (elements s)) initial_state
           (λ s x, elem_of_elements s x) elem_of_reverse_moves Hs).
Defined.

End TictactoeOrders.

Section TictactoeGames.
Import Tictactoe.
Implicit Types board : list (list (option mark)).

(** ** Sequences of moves *)

Lemma result_counts board action new_board :
  result board action = Ret new_board →
  count_cells EMPTY board = S (count_cells EMPTY new_board) ∧
  count_cells (Some X) new_board
  = count_cells (Some X) board + (if decide (player board = X) then 1 else 0) ∧
  count_cells (Some O) new_board
  = count_cells (Some O) board + (if decide (player board = O) then 1 else 0).
Proof.
  intros (r & c & row & Hr & Hrow & Hc & Hel & _ & _ & ->)%result_Ret.
  pose proof (count_cells_insert EMPTY EMPTY (Some (player board)) board r c row Hrow Hel) as HE.
  pose proof (count_cells_insert (Some X) EMPTY (Some (player board)) board r c row Hrow Hel) as HX.
  pose proof (count_cells_insert (Some O) EMPTY (Some (player board)) board r c row Hrow Hel) as HO.
  unfold EMPTY in *. destruct (player board); repeat case_decide; try done; lia.
Qed.

Lemma halves (k : nat) :
  (2 * k) / 2 = k ∧ (2 * k + 1) / 2 = k ∧
  (2 * k + 1 + 1) / 2 = k + 1 ∧ (2 * k + 1 + 1 + 1) / 2 = k + 1.
Proof.
  split_and!; symmetry.
  - apply (Nat.div_unique _ 2 _ 0); lia.
  - apply (Nat.div_unique _ 2 _ 1); lia.
  - apply (Nat.div_unique _ 2 _ 0); lia.
  - apply (Nat.div_unique _ 2 _ 1); lia.
Qed.

(** X23.  A game: after any sequence of [n] moves that [result] accepts
    one after the other from the initial state, the board has three rows
    of three cells, [X] holds (n + 1) / 2 of them and [O] holds n / 2,
    9 - n are empty (so no more than nine moves are accepted), and
    [player] returns [X] exactly when [n] is even. *)
Theorem moves_from_initial_state (moves : list (Z * Z)) board :
  for_each result initial_state moves = Ret board →
  three_by_three board ∧
  count_cells (Some X) board = (length moves + 1) / 2 ∧
  count_cells (Some O) board = length moves / 2 ∧
  count_cells EMPTY board + length moves = 9 ∧
  player board = (if Nat.even (length moves) then X else O).
Proof.
  revert board. induction moves as [|move moves IH] using rev_ind; intros board.
  - rewrite for_each_nil. intros [= <-]. split_and!; try done.
    apply (bool_decide_unpack _). vm_compute. exact I.
  - rewrite for_each_snoc. intros (prev & Hprev & Hres)%res_bind_Ret.
    destruct (IH prev Hprev) as (Hs & HX & HO & HE & Hp).
    destruct (result_counts prev move board Hres) as (HE' & HX' & HO').
    rewrite length_app. cbn [length].
    assert (Hpar : Nat.even (length moves + 1) = negb (Nat.even (length moves))).
    { by rewrite Nat.add_1_r, Nat.even_succ, <-Nat.negb_even. }
    split; [by eapply result_three_by_three|].
    rewrite player_counts, Hpar, HX', HO', HX, HO, Hp.
    destruct (Nat.even (length moves)) eqn:Hev; cbn [negb].
    + apply Nat.even_spec in Hev as [k Hk]. rewrite Hk.
      destruct (halves k) as (-> & -> & -> & _).
      simpl. split_and!; try lia. by rewrite decide_True by lia.
    + assert (Hodd : Nat.odd (length moves) = true).
      { by rewrite <-Nat.negb_even, Hev. }
      apply Nat.odd_spec in Hodd as [k Hk]. rewrite Hk.
      destruct (halves k) as (_ & -> & -> & ->).
      simpl. split_and!; try lia. by rewrite decide_False by lia.
Qed.

Lemma moves_from_initial_state_witness :
  ∃ board,
    for_each result initial_state [(1, 1); (0, 0); (-1, -1)]%Z = Ret board ∧
    three_by_three board ∧
    count_cells (Some X) board = (length [(1, 1); (0, 0); (-1, -1)]%Z + 1) / 2 ∧
    count_cells (Some O) board = length [(1, 1); (0, 0); (-1, -1)]%Z / 2 ∧
    count_cells EMPTY board + length [(1, 1); (0, 0); (-1, -1)]%Z = 9 ∧
    player board = (if Nat.even (length [(1, 1); (0, 0); (-1, -1)]%Z) then X else O).
Proof.
  exists [[Some O; EMPTY; EMPTY]; [EMPTY; Some X; EMPTY]; [EMPTY; EMPTY; Some X]].
  assert (H : for_each result initial_state [(1, 1); (0, 0); (-1, -1)]%Z
              = Ret [[Some O; EMPTY; EMPTY]; [EMPTY; Some X; EMPTY]; [EMPTY; EMPTY; Some X]])
    by (vm_compute; reflexivity).
  split; [exact H|]. exact (moves_from_initial_state _ _ H).
Defined.

End TictactoeGames.
